(** * imagor: request lifecycle and pipeline decision engine

    A shallow embedding of [imagor.go] (the request orchestrator, the loader
    chain, the storage fan-out and the single-flight coordinator) and of the
    load decision of [processor/vipsprocessor/vips.go], with the properties
    of the specification stated and proved over it. *)

From Stdlib Require Import ZArith Ascii String List Lia Permutation Bool.
From stdpp Require Import gmap strings list pretty.
Import ListNotations.

Local Open Scope string_scope.
Local Open Scope Z_scope.

(** ** Parameters of a request *)

Module imagorpath.

(** Modelled from the spec: [imagorpath.Params] and [imagorpath.Filter] are
    declared in the [imagorpath] package, which is not among the sources.
    The record lists the fields listed in the data model of the spec, under
    the names the code reads them by. *)
Record Filter := mkFilter {
  Name : string;
  Args : string
}.

Record Params := mkParams {
  ParamsEcho : bool;   (* [p.Params]: the request only asks to echo the parameters *)
  Path : string;
  Image : string;
  Unsafe : bool;
  Hash : string;
  Meta : bool;
  Trim : bool;
  CropLeft : Z;
  CropTop : Z;
  CropRight : Z;
  CropBottom : Z;
  FitIn : bool;
  Stretch : bool;
  Width : Z;
  Height : Z;
  HAlign : string;
  VAlign : string;
  Smart : bool;
  Filters : list Filter
}.

(** Modelled from the spec: the alignment constants of [imagorpath]; the
    spec names the alignments top, bottom, left and right. *)
Definition VAlignTop : string := "top".
Definition VAlignBottom : string := "bottom".
Definition HAlignLeft : string := "left".
Definition HAlignRight : string := "right".

End imagorpath.

(** ** The pipeline decision engine ([vips.go], [Process]) *)

Module Vips.
Import imagorpath.

(** The enumerations of the image library, as far as [vips.go] names them. *)
Inductive Interesting :=
| InterestingNone
| InterestingCentre
| InterestingAttention
| InterestingLow
| InterestingHigh.

Inductive Size :=
| SizeBoth
| SizeDown
| SizeForce.

Inductive ImageType :=
| ImageTypeUnknown
| ImageTypeGIF
| ImageTypeJPEG
| ImageTypeMagick
| ImageTypePDF
| ImageTypePNG
| ImageTypeSVG
| ImageTypeTIFF
| ImageTypeWEBP
| ImageTypeHEIF
| ImageTypeBMP
| ImageTypeAVIF
| ImageTypeJP2K.

Definition ImageType_eqb (a b : ImageType) : bool :=
  match a, b with
  | ImageTypeUnknown, ImageTypeUnknown | ImageTypeGIF, ImageTypeGIF
  | ImageTypeJPEG, ImageTypeJPEG | ImageTypeMagick, ImageTypeMagick
  | ImageTypePDF, ImageTypePDF | ImageTypePNG, ImageTypePNG
  | ImageTypeSVG, ImageTypeSVG | ImageTypeTIFF, ImageTypeTIFF
  | ImageTypeWEBP, ImageTypeWEBP | ImageTypeHEIF, ImageTypeHEIF
  | ImageTypeBMP, ImageTypeBMP | ImageTypeAVIF, ImageTypeAVIF
  | ImageTypeJP2K, ImageTypeJP2K => true
  | _, _ => false
  end.

(** [var imageTypeMap = map[string]vips.ImageType{...}] *)
Definition imageTypeMap : gmap string ImageType :=
  list_to_map
    [ ("gif", ImageTypeGIF); ("jpeg", ImageTypeJPEG); ("jpg", ImageTypeJPEG);
      ("magick", ImageTypeMagick); ("pdf", ImageTypePDF); ("png", ImageTypePNG);
      ("svg", ImageTypeSVG); ("tiff", ImageTypeTIFF); ("webp", ImageTypeWEBP);
      ("heif", ImageTypeHEIF); ("bmp", ImageTypeBMP); ("avif", ImageTypeAVIF);
      ("jp2", ImageTypeJP2K) ].

(** The configuration fields of [VipsProcessor] the decision reads. *)
Record VipsProcessor := mkVips {
  MaxWidth : Z;
  MaxHeight : Z;
  MaxAnimationFrames : Z
}.

(** [New]: the defaults before any option is applied. *)
Definition New : VipsProcessor :=
  {| MaxWidth := 9999; MaxHeight := 9999; MaxAnimationFrames := -1 |}.

(** [strings.Split(s, ",")[0]]: the text before the first comma (the whole
    string when there is none; [Split] never returns an empty slice for a
    non-empty separator). *)
Fixpoint firstField (s : string) : string :=
  match s with
  | EmptyString => EmptyString
  | String c rest =>
      if Ascii.eqb c ","%char then EmptyString else String c (firstField rest)
  end.

(** The local variables of [Process] that the scan of the filters sets. *)
Record Flags := mkFlags {
  special : bool;
  upscale : bool;
  stretch : bool;
  format : ImageType;
  maxN : Z
}.

(** The initial values: the [var (...)] block, then the three [if]s on
    [p.Trim], [p.FitIn] and [maxN]. *)
Definition initFlags (v : VipsProcessor) (p : Params) : Flags :=
  {| special := if Trim p then true else false;
     upscale := if FitIn p then false else true;
     stretch := Stretch p;
     format := ImageTypeUnknown;
     maxN := if (MaxAnimationFrames v =? 0) || (MaxAnimationFrames v <? -1)
             then 1 else MaxAnimationFrames v |}.

(** One iteration of [for _, p := range p.Filters { switch p.Name ... }]. *)
Definition scanFilter (fl : Flags) (f : Filter) : Flags :=
  if String.eqb (Name f) "format" then
    match imageTypeMap !! Args f with
    | Some typ =>
        {| special := special fl; upscale := upscale fl; stretch := stretch fl;
           format := typ;
           maxN := if negb (ImageType_eqb typ ImageTypeGIF) &&
                      negb (ImageType_eqb typ ImageTypeWEBP)
                   then 1 else maxN fl |}
    | None => fl
    end
  else if String.eqb (Name f) "stretch" then
    {| special := special fl; upscale := upscale fl; stretch := true;
       format := format fl; maxN := maxN fl |}
  else if String.eqb (Name f) "upscale" then
    {| special := special fl; upscale := true; stretch := stretch fl;
       format := format fl; maxN := maxN fl |}
  else if String.eqb (Name f) "no_upscale" then
    {| special := special fl; upscale := false; stretch := stretch fl;
       format := format fl; maxN := maxN fl |}
  else if String.eqb (Name f) "fill" || String.eqb (Name f) "background_color" then
    if String.eqb (firstField (Args f)) "auto" then
      {| special := true; upscale := upscale fl; stretch := stretch fl;
         format := format fl; maxN := maxN fl |}
    else fl
  else if String.eqb (Name f) "trim" then
    {| special := true; upscale := upscale fl; stretch := stretch fl;
       format := format fl; maxN := maxN fl |}
  else fl.

Definition scanFilters (v : VipsProcessor) (p : Params) : Flags :=
  fold_left scanFilter (Filters p) (initFlags v p).

(** The call that creates the image: [v.newThumbnail(blob, width, height,
    crop, size, n)] or [v.newImage(blob, n)]. *)
Inductive LoadCall :=
| NewThumbnail (width height : Z) (crop : Interesting) (size : Size) (n : Z)
| NewImage (n : Z).

(** The interest of the branch [p.Width > 0 && p.Height > 0] without
    [fit_in] and [stretch]; [None] when no arm of the [if] chain applies and
    [thumbnail] stays false. *)
Definition cropInterest (p : Params) : option Interesting :=
  if Smart p then Some InterestingAttention
  else if (String.eqb (VAlign p) VAlignTop && String.eqb (HAlign p) EmptyString)
          || (String.eqb (HAlign p) HAlignLeft && String.eqb (VAlign p) EmptyString)
  then Some InterestingLow
  else if (String.eqb (VAlign p) VAlignBottom && String.eqb (HAlign p) EmptyString)
          || (String.eqb (HAlign p) HAlignRight && String.eqb (VAlign p) EmptyString)
  then Some InterestingHigh
  else if (String.eqb (VAlign p) EmptyString || String.eqb (VAlign p) "middle")
          && (String.eqb (HAlign p) EmptyString || String.eqb (HAlign p) "center")
  then Some InterestingCentre
  else None.

(** The block under the comment "apply shrink-on-load where possible":
    [Some c] when it creates the image by the call [c] (and sets
    [thumbnail = true]), [None] when it leaves [thumbnail] false. *)
Definition shrinkOnLoad (v : VipsProcessor) (p : Params) (fl : Flags)
  : option LoadCall :=
  if negb (special fl) && (CropBottom p =? 0) && (CropTop p =? 0)
     && (CropLeft p =? 0) && (CropRight p =? 0)
  then
    if FitIn p then
      if (Width p >? 0) || (Height p >? 0) then
        let w := if Width p =? 0 then MaxWidth v else Width p in
        let h := if Height p =? 0 then MaxHeight v else Height p in
        let size := if upscale fl then SizeBoth else SizeDown in
        Some (NewThumbnail w h InterestingNone size (maxN fl))
      else None
    else if stretch fl then
      if (Width p >? 0) && (Height p >? 0) then
        Some (NewThumbnail (Width p) (Height p) InterestingNone SizeForce (maxN fl))
      else None
    else
      if (Width p >? 0) && (Height p >? 0) then
        match cropInterest p with
        | Some interest =>
            Some (NewThumbnail (Width p) (Height p) interest SizeBoth (maxN fl))
        | None => None
        end
      else if (Width p >? 0) && (Height p =? 0) then
        Some (NewThumbnail (Width p) (MaxHeight v) InterestingNone SizeBoth (maxN fl))
      else if (Height p >? 0) && (Width p =? 0) then
        Some (NewThumbnail (MaxWidth v) (Height p) InterestingNone SizeBoth (maxN fl))
      else None
  else None.

(** The load decision of [Process]: the shrink-on-load block, then the
    [if !thumbnail] block. The second component is the value of [thumbnail]
    that [Process] hands on to [v.process]. *)
Definition loadDecision (v : VipsProcessor) (p : Params) : LoadCall * bool :=
  let fl := scanFilters v p in
  match shrinkOnLoad v p fl with
  | Some c => (c, true)
  | None =>
      if special fl then (NewImage (maxN fl), false)
      else (NewThumbnail (MaxWidth v) (MaxHeight v) InterestingNone SizeDown (maxN fl),
            false)
  end.

End Vips.

(** ** The request lifecycle ([imagor.go]) *)

Module Imagor.

(** *** Blobs and errors *)

(** [imagor.Meta], as [getMeta] of [vips.go] builds it. *)
Record Meta := mkMeta {
  Format : string;
  ContentType : string;
  Width : Z;
  Height : Z;
  Orientation : Z
}.

(** Modelled from the spec: [File] is declared in a file that is not among
    the sources. The spec describes it as an opaque byte container with an
    emptiness probe, a lazy [ReadAll] and an optional [Meta]; the model
    keeps the three as fields. [ReadAll] is the buffer that
    [file.ReadAll()] yields ([ServeHTTP] drops its error). *)
Record File := mkFile {
  IsEmpty : bool;
  ReadAll : list Byte.byte;
  FileMeta : option Meta
}.

(** Modelled from the spec: [IsFileEmpty], the emptiness probe on a
    [*File] that may be nil, [None] here. [ServeHTTP] applies it to the nil
    file that [Do] returns with an error and reads [file.Meta] only when it
    answers false, so it is true of nil. *)
Definition IsFileEmpty (f : option File) : bool :=
  match f with
  | None => true
  | Some f => IsEmpty f
  end.

(** [imagor.Error]: a message and an HTTP status code. *)
Record Error := NewError {
  Message : string;
  Code : Z
}.

(** Modelled from the spec: the error values of the missing [errors.go].
    The spec fixes the codes 404, 403 and 500 and the message of
    [ErrSignatureMismatch]; the other messages are the names of the kinds
    written the same way. The spec gives [Pass] no status code (it is never
    written to a response), so [ErrPass] takes its code as a parameter. *)
Definition ErrPass (passCode : Z) : Error := NewError "pass" passCode.
Definition ErrNotFound : Error := NewError "not-found" 404.
Definition ErrSignatureMismatch : Error := NewError "signature-mismatch" 403.
Definition ErrInternal : Error := NewError "internal" 500.

(** Go [error] values: an [imagor.Error], the two sentinel errors of
    [context], any other error, and an error that wraps another one. *)
Inductive error :=
| EImagor (e : Error)
| ECanceled
| EDeadlineExceeded
| EOther (msg : string)
| EWrap (msg : string) (inner : error).

#[global] Instance Error_eq_dec : EqDecision Error.
Proof. solve_decision. Defined.
#[global] Instance error_eq_dec : EqDecision error.
Proof. solve_decision. Defined.

(** [errors.Is(err, target)] for a sentinel [target]: [err] or an error it
    wraps is the target. *)
Fixpoint errorsIs (err target : error) : bool :=
  if decide (err = target) then true
  else match err with
       | EWrap _ inner => errorsIs inner target
       | _ => false
       end.

(** [err == ErrPass], an interface value compared with the struct. *)
Definition isErr (err : error) (e : Error) : bool :=
  if decide (err = EImagor e) then true else false.

(** *** The backends and the events of a run *)

(** A call that leaves the orchestrator: to a loader, a storage or a
    processor. The numbers are the identities of the backend objects. *)
Inductive event :=
| EvLoad (loader : nat) (image : string)
| EvSave (storage : nat) (image : string) (file : option File)
| EvProcess (processor : nat) (file : option File) (p : imagorpath.Params).

(** A [Loader]: its identity, whether the object also implements [Storage]
    (the type assertion [loader.(Store)] succeeds), and what [Load] answers
    for a key after the calls made so far. *)
Record Loader := mkLoader {
  loader_id : nat;
  loader_store : bool;
  Load : list event -> string -> option File * option error
}.

(** A [Storage]: its identity and what [Save] answers. *)
Record Storage := mkStorage {
  storage_id : nat;
  Save : list event -> string -> option File -> option error
}.

(** A run of [Process]: it returns, or it calls the [load] function it was
    given and goes on with the answer. *)
Inductive ProcRun :=
| ProcReturn (f : option File) (e : option error)
| ProcLoad (image : string) (k : option File * option error -> ProcRun).

Record Processor := mkProcessor {
  processor_id : nat;
  Process : list event -> option File -> imagorpath.Params -> ProcRun
}.

(** The fields of [Imagor] that [Do] and [ServeHTTP] read; durations are
    integers (nanoseconds). *)
Record Imagor := mkImagor {
  Version : string;
  Unsafe : bool;
  Secret : string;
  Loaders : list Loader;
  Storages : list Storage;
  ResultLoaders : list Loader;
  ResultStorages : list Storage;
  Processors : list Processor;
  RequestTimeout : Z;
  LoadTimeout : Z;
  SaveTimeout : Z;
  ProcessTimeout : Z;
  CacheHeaderTTL : Z;
  Debug : bool
}.

(** A [context.Context], as far as [acquire] looks into it: the keys [K]
    for which [ctx.Value(acquireKey{K})] is [true]. *)
Record Context := mkContext {
  acquired : gset string
}.

Definition WithValue (ctx : Context) (key : string) : Context :=
  {| acquired := {[ key ]} ∪ acquired ctx |}.

(** The values a JSON response is marshalled from. *)
Inductive JSONValue :=
| JBanner (version : string)
| JParams (p : imagorpath.Params)
| JMeta (m : Meta)
| JError (e : Error).

(** What the code takes from other packages and from its environment. *)
Record World := mkWorld {
  (* [imagorpath.Sign(path, secret)] *)
  Sign : string -> string -> string;
  (* [imagorpath.Parse(path)] *)
  Parse : string -> imagorpath.Params;
  (* the status code of [ErrPass] *)
  passCode : Z;
  (* [WrapError(err).(Error)]: the [Error] when the assertion succeeds *)
  WrapError : error -> option Error;
  (* the [select] of [acquire]: [Some e] when, after the calls so far, the
     wait on the key ends by [ctx.Done()] with [ctx.Err() = e] *)
  ctxDone : list event -> string -> option error;
  (* [http.DetectContentType] *)
  DetectContentType : list Byte.byte -> string;
  (* [json.Marshal] and [json.MarshalIndent] *)
  Marshal : JSONValue -> list Byte.byte;
  MarshalIndent : JSONValue -> list Byte.byte;
  (* the [Expires] header value that [setCacheHeaders] derives from the clock *)
  expiresIn : Z -> string;
  (* [int(ttl.Seconds())] *)
  ttlSeconds : Z -> Z
}.

(** *** The monad of a run *)

Inductive level := LDebug | LWarn.

(** The state threaded through a run: the calls to the backends, the lines
    handed to the logger, and the keys with a call in flight in the
    single-flight group [app.g]. *)
Record St := mkSt {
  calls : list event;
  logs : list (level * string);
  flights : gset string
}.

(** How a computation ends: it returns, it panics, or it waits for ever. *)
Inductive Outcome (A : Type) :=
| Returned (a : A)
| Panicked
| Blocked.
Arguments Returned {A} a.
Arguments Panicked {A}.
Arguments Blocked {A}.

Definition M (A : Type) : Type := St -> Outcome A * St.

#[global] Instance M_ret : MRet M := fun A a st => (Returned a, st).
#[global] Instance M_bind : MBind M := fun A B f m st =>
  match m st with
  | (Returned a, st') => f a st'
  | (Panicked, st') => (Panicked, st')
  | (Blocked, st') => (Blocked, st')
  end.

Definition panic {A} : M A := fun st => (Panicked, st).
Definition block {A} : M A := fun st => (Blocked, st).
Definition history : M (list event) := fun st => (Returned (calls st), st).
Definition emit (e : event) : M unit := fun st =>
  (Returned tt, {| calls := calls st ++ [e]; logs := logs st; flights := flights st |}).
Definition log (l : level) (msg : string) : M unit := fun st =>
  (Returned tt, {| calls := calls st; logs := logs st ++ [(l, msg)]; flights := flights st |}).
Definition when (b : bool) (m : M unit) : M unit := if b then m else mret tt.

Definition getFlights : M (gset string) := fun st => (Returned (flights st), st).
Definition setFlights (g : gset string) : M unit := fun st =>
  (Returned tt, {| calls := calls st; logs := logs st; flights := g |}).

(** *** Storage fan-out: [save] *)

(** The body of one goroutine of [save]: [storage.Save(ctx, key, file)],
    whose error is logged and dropped. *)
Definition saveOne (app : Imagor) (storage : Storage) (key : string)
    (file : option File) : M unit :=
  h ← history;
  _ ← emit (EvSave (storage_id storage) key file);
  match Save storage h key file with
  | Some _ => log LWarn "save"
  | None => when (Debug app) (log LDebug "saved")
  end.

(** [storage == origin]: the interface values hold the same object. *)
Definition sameObject (storage : Storage) (origin : option nat) : bool :=
  match origin with
  | Some o => Nat.eqb (storage_id storage) o
  | None => false
  end.

(** The loop of [save] followed by [wg.Wait()], with the goroutines run in
    the order they are started. *)
Fixpoint saveAll (app : Imagor) (origin : option nat) (storages : list Storage)
    (key : string) (file : option File) : M unit :=
  match storages with
  | [] => mret tt
  | storage :: rest =>
      _ ← (if sameObject storage origin
           then when (Debug app) (log LDebug "skip-save")
           else saveOne app storage key file);
      saveAll app origin rest key file
  end.

(** [save]. The variable [cancel] is a function only when [SaveTimeout] is
    positive; [defer cancel()] calls it when [save] returns, after
    [wg.Wait()], and calling a nil function panics. *)
Definition save (app : Imagor) (ctx : Context) (origin : option nat)
    (storages : list Storage) (key : string) (file : option File) : M unit :=
  let cancel : option unit := if SaveTimeout app >? 0 then Some tt else None in
  _ ← saveAll app origin storages key file;
  match cancel with
  | Some _ => mret tt
  | None => panic
  end.

(** *** Loader chain: [load] *)

(** The event of the call [loader.Load(loadReq, key)]. *)
Definition loadEvent (key : string) (loader : Loader) : event :=
  EvLoad (loader_id loader) key.

(** The [for _, loader := range loaders] of [load], with the variables
    [file], [origin] and [err] it updates. *)
Fixpoint loadLoop (W : World) (app : Imagor) (key : string) (loaders : list Loader)
    (file : option File) (origin : option nat) (err : option error)
  : M (option File * option nat * option error) :=
  match loaders with
  | [] => mret (file, origin, err)
  | loader :: rest =>
      h ← history;
      _ ← emit (loadEvent key loader);
      let '(f, e) := Load loader h key in
      let file := if negb (IsFileEmpty f) then f else file in
      match e with
      | None =>
          (* err = nil; origin, _ = loader.(Store); break *)
          mret (file,
                if loader_store loader then Some (loader_id loader) else None,
                None)
      | Some e' =>
          _ ← when (Debug app ||
                    (negb (isErr e' (ErrPass (passCode W))) &&
                     negb (isErr e' ErrNotFound) &&
                     negb (errorsIs e' ECanceled)))
                (log LWarn "load");
          loadLoop W app key rest file origin (Some e')
      end
  end.

Definition load (W : World) (app : Imagor) (r : Context) (loaders : list Loader)
    (key : string) : M (option File * option nat * option error) :=
  '(file, origin, err) ← loadLoop W app key loaders None None None;
  match err with
  | None =>
      _ ← when (Debug app) (log LDebug "loaded");
      mret (file, origin, None)
  | Some e =>
      if negb (errorsIs e ECanceled) then
        let e := if isErr e (ErrPass (passCode W)) then EImagor ErrNotFound else e in
        _ ← log LWarn "load";
        mret (file, origin, Some e)
      else mret (file, origin, Some e)
  end.

(** *** Single-flight coordinator: [acquire], in the run of one request *)

(** [acquire]. A context that holds the key calls [fn] directly. Otherwise
    [app.g.DoChan] is called: when the group has no call in flight for the
    key, a goroutine runs [fn] with the key added to the context, and the
    [select] takes its result or [ctx.Done()]; its run is placed before the
    [select]. When the key is in flight, the caller only joins the waiters,
    and in the run of a single request it waits for a call that is waiting
    for it: only [ctx.Done()] ends the wait. *)
Definition acquire (W : World) (app : Imagor) (ctx : Context) (key : string)
    (fn : Context -> M (option File * option error))
  : M (option File * option error) :=
  _ ← when (Debug app) (log LDebug "acquire");
  if decide (key ∈ acquired ctx) then fn ctx
  else
    g ← getFlights;
    if decide (key ∈ g) then
      h ← history;
      match ctxDone W h key with
      | Some e => mret (None, Some e)
      | None => block
      end
    else
      _ ← setFlights ({[ key ]} ∪ g);
      res ← fn (WithValue ctx key);
      (* doCall: delete(g.m, key), then the result goes to the channels *)
      g' ← getFlights;
      _ ← setFlights (g' ∖ {[ key ]});
      h ← history;
      match ctxDone W h key with
      | Some e => mret (None, Some e)
      | None => mret res
      end.

(** *** Request orchestrator *)

Definition loadStore (W : World) (app : Imagor) (r : Context) (key : string)
  : M (option File * option error) :=
  acquire W app r ("img:" +:+ key) (fun ctx =>
    '(file, origin, err) ← load W app ctx (Loaders app) key;
    if IsFileEmpty file then mret (file, err)
    else
      _ ← when (0 <? Z.of_nat (length (Storages app)))
            (save app ctx origin (Storages app) key file);
      mret (file, err)).

Definition loadResult (W : World) (app : Imagor) (r : Context) (key : string)
  : M (option File * option error) :=
  if Nat.eqb (length (ResultLoaders app)) 0 then mret (None, None)
  else
    '(file, _, err) ← load W app r (ResultLoaders app) key;
    mret (file, err).

(** [processor.Process(ctx, file, p, load)], where [load] is the closure of
    [Do] over [app.loadStore(r, image)]. *)
Fixpoint runProcess (loadf : string -> M (option File * option error))
    (run : ProcRun) : M (option File * option error) :=
  match run with
  | ProcReturn f e => mret (f, e)
  | ProcLoad image k => res ← loadf image; runProcess loadf (k res)
  end.

Definition callProcess (W : World) (app : Imagor) (r : Context)
    (processor : Processor) (file : option File) (p : imagorpath.Params)
  : M (option File * option error) :=
  h ← history;
  _ ← emit (EvProcess (processor_id processor) file p);
  runProcess (loadStore W app r) (Process processor h file p).

(** The [for _, processor := range app.Processors] of [Do], with the
    variables [file] and [err] it updates. With [app.Debug] the log line of
    a success reads [f.Meta], which panics on a nil [f]. *)
Fixpoint processLoop (W : World) (app : Imagor) (r : Context)
    (p : imagorpath.Params) (processors : list Processor)
    (file : option File) (err : option error)
  : M (option File * option error) :=
  match processors with
  | [] => mret (file, err)
  | processor :: rest =>
      '(f, e) ← callProcess W app r processor file p;
      match e with
      | None =>
          _ ← when (Debug app)
                (match f with
                 | Some _ => log LDebug "processed"
                 | None => panic
                 end);
          mret (f, None)
      | Some e' =>
          if isErr e' (ErrPass (passCode W)) then
            let file := if negb (IsFileEmpty f) then f else file in
            _ ← when (Debug app) (log LDebug "process");
            processLoop W app r p rest file err
          else
            _ ← log LWarn "process";
            if errorsIs e' EDeadlineExceeded then mret (file, Some e')
            else processLoop W app r p rest file (Some e')
      end
  end.

(** [strings.TrimPrefix]. *)
Definition TrimPrefix (s prefix : string) : string :=
  if String.prefix prefix s
  then String.substring (String.length prefix)
         (String.length s - String.length prefix)%nat s
  else s.

(** The function that [Do] hands to [acquire]. *)
Definition doResult (W : World) (app : Imagor) (r : Context)
    (p : imagorpath.Params) (resultKey : string) (ctx : Context)
  : M (option File * option error) :=
  '(file, err) ← loadResult W app r resultKey;
  if (if err is None then true else false) && negb (IsFileEmpty file)
  then mret (file, err)
  else
    '(file, err) ← loadStore W app r (imagorpath.Image p);
    match err with
    | Some _ =>
        _ ← log LDebug "load";
        mret (file, err)
    | None =>
        if IsFileEmpty file then mret (file, err)
        else
          '(file, err) ← processLoop W app r p (Processors app) file None;
          _ ← when ((if err is None then true else false) &&
                    (0 <? Z.of_nat (length (ResultStorages app))))
                (save app ctx None (ResultStorages app) resultKey file);
          mret (file, err)
    end.

(** [Do]. The request is its context; [context.WithTimeout] keeps the
    values of the context it derives from. *)
Definition Do (W : World) (app : Imagor) (r : Context) (p : imagorpath.Params)
  : M (option File * option error) :=
  let ctx := r in
  if negb (Unsafe app && imagorpath.Unsafe p) &&
     negb (String.eqb (Sign W (imagorpath.Path p) (Secret app)) (imagorpath.Hash p))
  then
    _ ← when (Debug app) (log LDebug "sign-mismatch");
    mret (None, Some (EImagor ErrSignatureMismatch))
  else
    let resultKey := TrimPrefix (imagorpath.Path p) "meta/" in
    acquire W app ctx ("res:" +:+ resultKey) (doResult W app r p resultKey).

(** *** HTTP response shaping: [ServeHTTP] *)

(** An [http.ResponseWriter]: the header map, the status line once it is
    written (with the headers that went out with it), and the body. Headers
    changed after the status line is written are not sent; [Write] without
    a status line writes 200 first; a status line is written once. The
    codes handed to [WriteHeader] are taken to be valid status codes. *)
Record ResponseWriter := mkResponseWriter {
  header : gmap string (list string);
  wroteHeader : option (Z * gmap string (list string));
  body : list Byte.byte
}.

Definition newResponseWriter : ResponseWriter :=
  {| header := ∅; wroteHeader := None; body := [] |}.

Definition HeaderSet (k v : string) (w : ResponseWriter) : ResponseWriter :=
  {| header := <[ k := [v] ]> (header w);
     wroteHeader := wroteHeader w; body := body w |}.

Definition HeaderAdd (k v : string) (w : ResponseWriter) : ResponseWriter :=
  {| header := <[ k := (default [] (header w !! k) ++ [v])%list ]> (header w);
     wroteHeader := wroteHeader w; body := body w |}.

Definition WriteHeader (code : Z) (w : ResponseWriter) : ResponseWriter :=
  match wroteHeader w with
  | Some _ => w
  | None => {| header := header w; wroteHeader := Some (code, header w);
               body := body w |}
  end.

Definition Write (buf : list Byte.byte) (w : ResponseWriter) : ResponseWriter :=
  let w := WriteHeader 200 w in
  {| header := header w; wroteHeader := wroteHeader w; body := body w ++ buf |}.

(** The status code of the response. *)
Definition status (w : ResponseWriter) : option Z := fst <$> wroteHeader w.

Definition resJSON (W : World) (v : JSONValue) (w : ResponseWriter) : ResponseWriter :=
  let buf := Marshal W v in
  let w := HeaderSet "Content-Type" "application/json" w in
  let w := HeaderSet "Content-Length" (pretty (Z.of_nat (length buf))) w in
  Write buf w.

Definition resJSONIndent (W : World) (v : JSONValue) (w : ResponseWriter)
  : ResponseWriter :=
  let buf := MarshalIndent W v in
  let w := HeaderSet "Content-Type" "application/json" w in
  let w := HeaderSet "Content-Length" (pretty (Z.of_nat (length buf))) w in
  Write buf w.

Definition getCacheControl (W : World) (ttl : Z) : string :=
  if ttl =? 0 then "private, no-cache, no-store, must-revalidate"
  else "public, s-maxage=" +:+ pretty (ttlSeconds W ttl) +:+
       ", max-age=" +:+ pretty (ttlSeconds W ttl) +:+ ", no-transform".

Definition setCacheHeaders (W : World) (ttl : Z) (w : ResponseWriter)
  : ResponseWriter :=
  let w := HeaderAdd "Expires" (expiresIn W ttl) w in
  HeaderAdd "Cache-Control" (getCacheControl W ttl) w.

(** The variable [buf] of [ServeHTTP]: the bytes of a file that is not
    empty. *)
Definition readBuf (file : option File) : list Byte.byte :=
  match file with
  | Some f => if negb (IsFileEmpty file) then ReadAll f else []
  | None => []
  end.

(** The [Meta] that [ServeHTTP] answers with, whatever the error, when the
    file is not empty and has one and the request asks for it. *)
Definition metaReply (p : imagorpath.Params) (file : option File) : option Meta :=
  match file with
  | Some f =>
      if negb (IsFileEmpty file) then
        match FileMeta f with
        | Some m => if imagorpath.Meta p then Some m else None
        | None => None
        end
      else None
  | None => None
  end.

(** The error a response shows for the error [e]:
    "passed till the end means not found". *)
Definition shown (W : World) (e : Error) : Error :=
  if decide (e = ErrPass (passCode W)) then ErrNotFound else e.

(** [ServeHTTP] from the return of [app.Do(r, p)] on. *)
Definition respond (W : World) (app : Imagor) (p : imagorpath.Params)
    (file : option File) (err : option error) (w : ResponseWriter)
  : ResponseWriter :=
  let buf : list Byte.byte := readBuf file in
  let ln := Z.of_nat (length buf) in
  (* the block under [if !IsFileEmpty(file)]: [inl] when it returns *)
  let first : ResponseWriter + ResponseWriter :=
    match file with
    | Some f =>
        if negb (IsFileEmpty file) then
          match FileMeta f with
          | Some m =>
              if imagorpath.Meta p then inl (resJSON W (JMeta m) w)
              else inr (HeaderSet "Content-Type" (ContentType m) w)
          | None =>
              if ln >? 0
              then inr (HeaderSet "Content-Type" (DetectContentType W buf) w)
              else inr w
          end
        else inr w
    | None => inr w
    end in
  match first with
  | inl w => w
  | inr w =>
      match err with
      | Some err =>
          match WrapError W err with
          | Some e =>
              (* if e == ErrPass { e = ErrNotFound } *)
              let e := shown W e in
              let w := WriteHeader (Code e) w in
              if ln >? 0 then
                let w := HeaderSet "Content-Length" (pretty ln) w in
                Write buf w
              else resJSON W (JError e) w
          | None => resJSON W (JError ErrInternal) w
          end
      | None =>
          let w := setCacheHeaders W (CacheHeaderTTL app) w in
          let w := HeaderSet "Content-Length" (pretty ln) w in
          let w := WriteHeader 200 w in
          Write buf w
      end
  end.

(** [ServeHTTP]: the request is its escaped path and its context. *)
Definition ServeHTTP (W : World) (app : Imagor) (path : string) (r : Context)
    (w : ResponseWriter) : M ResponseWriter :=
  if String.eqb path "/" || String.eqb path EmptyString then
    mret (resJSON W (JBanner (Version app)) w)
  else
    let p := Parse W path in
    if imagorpath.ParamsEcho p then mret (resJSONIndent W (JParams p) w)
    else
      '(file, err) ← Do W app r p;
      mret (respond W app p file err w).

End Imagor.

(** ** The goroutines of [save] *)

(** [save] starts one goroutine per storage that is not the origin and
    waits for all of them on a [sync.WaitGroup]. The machine below runs one
    call of [save] under any schedule: every step is one action of the
    function or of one of its goroutines. *)
Module Fanout.
Import Imagor.

(** Where the function itself is: in the loop (with the storages still to
    visit), in [wg.Wait()], returned, or panicked in [defer cancel()]. *)
Inductive pc :=
| Looping (rest : list Storage)
| Waiting
| Return
| Panic.

Record state := mkState {
  at_pc : pc;
  wg : nat;                       (* the counter of the WaitGroup *)
  started : list Storage;         (* goroutines that have not called [Save] yet *)
  finishing : list Storage;       (* goroutines back from [Save], before [wg.Done()] *)
  saved : list event;             (* the [Save] calls made, in the order made *)
  lines : list (level * string)   (* the lines logged *)
}.

Inductive action :=
| Iterate           (* one iteration of the loop, or its end *)
| CallSave (i : nat)  (* the i-th started goroutine calls [storage.Save] and logs *)
| Done (i : nat)      (* the i-th finishing goroutine runs [defer wg.Done()] *)
| Wait.             (* [wg.Wait()] returns, then [defer cancel()] runs *)

Definition init (storages : list Storage) : state :=
  {| at_pc := Looping storages; wg := 0; started := []; finishing := [];
     saved := []; lines := [] |}.

Section Step.
Variables (app : Imagor) (h0 : list event) (origin : option nat)
          (key : string) (file : option File).

Definition saveEvent (storage : Storage) : event :=
  EvSave (storage_id storage) key file.

Definition step (a : action) (s : state) : option state :=
  match a with
  | Iterate =>
      match at_pc s with
      | Looping (storage :: rest) =>
          if sameObject storage origin then
            Some {| at_pc := Looping rest; wg := wg s; started := started s;
                    finishing := finishing s; saved := saved s;
                    lines := if Debug app
                             then (lines s ++ [(LDebug, "skip-save")])%list
                             else lines s |}
          else
            (* wg.Add(1); go func(storage Storage) {...}(storage) *)
            Some {| at_pc := Looping rest; wg := S (wg s);
                    started := (started s ++ [storage])%list;
                    finishing := finishing s; saved := saved s; lines := lines s |}
      | Looping [] =>
          Some {| at_pc := Waiting; wg := wg s; started := started s;
                  finishing := finishing s; saved := saved s; lines := lines s |}
      | _ => None
      end
  | CallSave i =>
      match started s !! i with
      | Some storage =>
          Some {| at_pc := at_pc s; wg := wg s;
                  started := delete i (started s);
                  finishing := (finishing s ++ [storage])%list;
                  saved := (saved s ++ [saveEvent storage])%list;
                  lines :=
                    match Save storage (h0 ++ saved s)%list key file with
                    | Some _ => (lines s ++ [(LWarn, "save")])%list
                    | None => if Debug app
                              then (lines s ++ [(LDebug, "saved")])%list
                              else lines s
                    end |}
      | None => None
      end
  | Done i =>
      match finishing s !! i with
      | Some _ =>
          Some {| at_pc := at_pc s; wg := Nat.pred (wg s); started := started s;
                  finishing := delete i (finishing s); saved := saved s;
                  lines := lines s |}
      | None => None
      end
  | Wait =>
      match at_pc s with
      | Waiting =>
          if Nat.eqb (wg s) 0 then
            Some {| at_pc := if SaveTimeout app >? 0 then Return else Panic;
                    wg := wg s; started := started s; finishing := finishing s;
                    saved := saved s; lines := lines s |}
          else None
      | _ => None
      end
  end.

(** A schedule is a list of actions; [run] fails on an action that is not
    enabled. *)
Fixpoint run (sched : list action) (s : state) : option state :=
  match sched with
  | [] => Some s
  | a :: rest =>
      match step a s with
      | Some s' => run rest s'
      | None => None
      end
  end.

Definition terminal (s : state) : bool :=
  match at_pc s with
  | Return | Panic => true
  | _ => false
  end.

(** The storages [save] writes to: all but those that are the origin. *)
Definition targets (storages : list Storage) : list Storage :=
  List.filter (fun storage => negb (sameObject storage origin)) storages.

(** The storages the loop has still to visit. *)
Definition remaining (s : state) : list Storage :=
  match at_pc s with
  | Looping rest => rest
  | _ => []
  end.

(** The invariant of the machine for a call on [storages]: the counter of
    the WaitGroup counts the goroutines that have not finished; every write
    is made, about to be made by a started goroutine, or still to be
    started by the loop; and the function is past [wg.Wait()] only with the
    counter at zero. *)
Definition inv (storages : list Storage) (s : state) : Prop :=
  wg s = (length (started s) + length (finishing s))%nat /\
  (saved s ++ map saveEvent (started s) ++ map saveEvent (targets (remaining s)))%list
    ≡ₚ map saveEvent (targets storages) /\
  (terminal s = true -> wg s = 0%nat).

(** The [Save] calls among the events that go to the object [id], and the
    entries of a list of storages that are the object [id]. *)
Definition savesTo (id : nat) (events : list event) : nat :=
  length (List.filter (fun e => match e with
                                | EvSave s _ _ => Nat.eqb s id
                                | _ => false
                                end) events).

Definition entries (id : nat) (l : list Storage) : nat :=
  length (List.filter (fun storage => Nat.eqb (storage_id storage) id) l).

(** The schedule that runs every goroutine to its end as soon as it is
    started. *)
Fixpoint inOrder (storages : list Storage) : list action :=
  match storages with
  | [] => [Iterate; Wait]
  | storage :: rest =>
      if sameObject storage origin then Iterate :: inOrder rest
      else Iterate :: CallSave 0 :: Done 0 :: inOrder rest
  end.

End Step.
End Fanout.

(** ** Concurrent callers of [acquire] *)

(** [acquire] under concurrency: many callers, one single-flight group.
    [app.g] is a [singleflight.Group] of golang.org/x/sync: [DoChan] adds
    the caller's channel to the call in flight for the key when there is
    one; otherwise it registers a new call and starts a goroutine that runs
    the function, removes the call from the group and sends the result to
    every channel of the call. Every step of the machine is one action of
    a caller or of such a goroutine. *)
Module SingleFlight.
Import Imagor.

Definition Result : Type := option File * option error.

(** A caller of [acquire]: in the [select] (with the content of its
    buffered channel), running [fn(ctx)] itself because its context holds
    the key, or returned. A returned caller keeps the call it had joined,
    if any, and whether its result came from the channel. *)
Inductive caller :=
| Selecting (key : string) (flight : nat) (ch : option Result)
| Direct (key : string)
| Finished (key : string) (flight : option nat) (fromChan : bool) (res : Result).

Record state := mkState {
  m : gmap string nat;               (* [g.m]: key to the call in flight *)
  chans : gmap nat (list nat);       (* call to the callers whose channels it holds *)
  goroutines : list (string * nat);  (* the goroutines running [fn]: key and call *)
  callers : gmap nat caller;
  next : nat                         (* the calls created so far *)
}.

Definition init : state :=
  {| m := ∅; chans := ∅; goroutines := []; callers := ∅; next := 0 |}.

Inductive action :=
| Acquire (c : nat) (ctx : Context) (key : string)
    (* caller [c] enters [acquire(ctx, key, fn)] up to its [select] *)
| FnReturn (i : nat) (res : Result)
    (* in the i-th goroutine [fn] returns [res]: the call is deleted from
       the group and [res] is sent to its channels *)
| DirectReturn (c : nat) (res : Result)
    (* [fn(ctx)] called directly by caller [c] returns [res] *)
| Receive (c : nat)
    (* [select]: [case res := <-ch] *)
| CtxDone (c : nat) (e : error).
    (* [select]: [case <-ctx.Done()], with [ctx.Err() = e] *)

(** Sending [res] on the channel of caller [c]. *)
Definition send (res : Result) (cs : gmap nat caller) (c : nat) : gmap nat caller :=
  match cs !! c with
  | Some (Selecting key flight None) => <[ c := Selecting key flight (Some res) ]> cs
  | _ => cs
  end.

Definition step (a : action) (s : state) : option state :=
  match a with
  | Acquire c ctx key =>
      match callers s !! c with
      | Some _ => None
      | None =>
          if decide (key ∈ acquired ctx) then
            Some {| m := m s; chans := chans s; goroutines := goroutines s;
                    callers := <[ c := Direct key ]> (callers s); next := next s |}
          else
            match m s !! key with
            | Some flight =>
                Some {| m := m s;
                        chans := <[ flight := (default [] (chans s !! flight) ++ [c])%list ]>
                                   (chans s);
                        goroutines := goroutines s;
                        callers := <[ c := Selecting key flight None ]> (callers s);
                        next := next s |}
            | None =>
                let flight := next s in
                Some {| m := <[ key := flight ]> (m s);
                        chans := <[ flight := [c] ]> (chans s);
                        goroutines := (goroutines s ++ [(key, flight)])%list;
                        callers := <[ c := Selecting key flight None ]> (callers s);
                        next := S (next s) |}
            end
      end
  | FnReturn i res =>
      match goroutines s !! i with
      | Some (key, flight) =>
          Some {| m := delete key (m s);
                  chans := chans s;
                  goroutines := delete i (goroutines s);
                  callers := fold_left (send res) (default [] (chans s !! flight))
                               (callers s);
                  next := next s |}
      | None => None
      end
  | DirectReturn c res =>
      match callers s !! c with
      | Some (Direct key) =>
          Some {| m := m s; chans := chans s; goroutines := goroutines s;
                  callers := <[ c := Finished key None false res ]> (callers s);
                  next := next s |}
      | _ => None
      end
  | Receive c =>
      match callers s !! c with
      | Some (Selecting key flight (Some res)) =>
          (* [res.Val], asserted to be a file pointer when it is not nil,
             and [res.Err] *)
          let res' := match fst res with
                      | Some f => (Some f, snd res)
                      | None => (None, snd res)
                      end in
          Some {| m := m s; chans := chans s; goroutines := goroutines s;
                  callers := <[ c := Finished key (Some flight) true res' ]> (callers s);
                  next := next s |}
      | _ => None
      end
  | CtxDone c e =>
      match callers s !! c with
      | Some (Selecting key flight _) =>
          Some {| m := m s; chans := chans s; goroutines := goroutines s;
                  callers := <[ c := Finished key (Some flight) false (None, Some e) ]>
                               (callers s);
                  next := next s |}
      | _ => None
      end
  end.

Fixpoint run (sched : list action) (s : state) : option state :=
  match sched with
  | [] => Some s
  | a :: rest =>
      match step a s with
      | Some s' => run rest s'
      | None => None
      end
  end.

(** The invocations of [fn] for a key that are executing: the goroutines of
    the group and the callers that run it directly. *)
Definition executing (s : state) (key : string) : nat :=
  (length (List.filter (fun g => String.eqb (fst g) key) (goroutines s)) +
   length (List.filter
             (fun c => match snd c with
                       | Direct k => String.eqb k key
                       | _ => false
                       end)
             (map_to_list (callers s))))%nat.

(** No caller of the schedule enters [acquire] for [key] with a context
    that holds [key]. *)
Definition unheld (key : string) (sched : list action) : Prop :=
  Forall (fun a => match a with
                   | Acquire _ ctx k => k = key -> key ∉ acquired ctx
                   | _ => True
                   end) sched.

(** Caller [c] has the result [r] from the channel of the call [flight]:
    it is in its channel, or the caller returned with it. *)
Definition got (cs : gmap nat caller) (c flight : nat) (r : Result) : Prop :=
  (exists key, cs !! c = Some (Selecting key flight (Some r))) \/
  (exists key, cs !! c = Some (Finished key (Some flight) true r)).

(** The invariant of the machine. *)
Record inv (s : state) : Prop := mkInv {
  (* the group maps a key to a call exactly when a goroutine runs it *)
  inv_m : forall key flight,
    m s !! key = Some flight <-> (key, flight) ∈ goroutines s;
  (* no two goroutines run for the same key, nor for the same call *)
  inv_keys : NoDup (map fst (goroutines s));
  inv_ids : NoDup (map snd (goroutines s));
  (* the calls in use were created *)
  inv_next : forall key flight, (key, flight) ∈ goroutines s -> (flight < next s)%nat;
  inv_sel : forall c key flight ch,
    callers s !! c = Some (Selecting key flight ch) -> (flight < next s)%nat;
  inv_fin : forall c key flight b r,
    callers s !! c = Some (Finished key (Some flight) b r) -> (flight < next s)%nat;
  (* the channels of a call belong to callers that joined it *)
  inv_chans : forall flight cs c,
    chans s !! flight = Some cs -> c ∈ cs ->
    is_Some (callers s !! c) /\
    (forall key flight' ch,
       callers s !! c = Some (Selecting key flight' ch) -> flight' = flight);
  inv_member : forall c key flight ch,
    callers s !! c = Some (Selecting key flight ch) ->
    exists cs, chans s !! flight = Some cs /\ c ∈ cs;
  (* a caller waits on an empty channel only for a call that is running *)
  inv_wait : forall c key flight,
    callers s !! c = Some (Selecting key flight None) ->
    (key, flight) ∈ goroutines s;
  (* a call that is running has sent nothing *)
  inv_fresh : forall key flight c r,
    (key, flight) ∈ goroutines s -> ~ got (callers s) c flight r;
  (* a call sends one result *)
  inv_same : forall c1 c2 flight r1 r2,
    got (callers s) c1 flight r1 -> got (callers s) c2 flight r2 -> r1 = r2;
  (* a caller that joined a call and did not take its result returned the
     error of its context *)
  inv_done : forall c key flight r,
    callers s !! c = Some (Finished key (Some flight) false r) ->
    exists e, r = (None, Some e)
}.

(** No caller runs the function for [key] directly. *)
Definition noDirect (key : string) (s : state) : Prop :=
  forall c, callers s !! c <> Some (Direct key).

End SingleFlight.

(** ** Observations on a run of [Do] *)

Module Observe.
Import Imagor.

(** The check of the signature verifier in the words of the spec: unsafe
    mode is enabled and the request is unsafe, or the signature of the path
    is the hash of the request. *)
Definition signatureOk (W : World) (app : Imagor) (p : imagorpath.Params) : bool :=
  (Unsafe app && imagorpath.Unsafe p) ||
  String.eqb (Sign W (imagorpath.Path p) (Secret app)) (imagorpath.Hash p).

(** The key of the derivative: the path without a leading [meta/]. *)
Definition resultKey (p : imagorpath.Params) : string :=
  TrimPrefix (imagorpath.Path p) "meta/".

(** The [Save] calls that go to one of the result storages. *)
Definition isResultSave (app : Imagor) (e : event) : bool :=
  match e with
  | EvSave s _ _ =>
      existsb (fun storage => Nat.eqb (storage_id storage) s) (ResultStorages app)
  | _ => false
  end.

Definition resultSaves (app : Imagor) (events : list event) : list event :=
  List.filter (isResultSave app) events.

(** No object is both a result storage and a source storage. *)
Definition separate (app : Imagor) : Prop :=
  forall s s', In s (ResultStorages app) -> In s' (Storages app) ->
               storage_id s <> storage_id s'.

(** Whether [acquire] runs the function it is given: the context holds the
    key, or the group has no call in flight for it. *)
Definition runsFn (ctx : Context) (key : string) (st : St) : bool :=
  (if decide (key ∈ acquired ctx) then true else false) ||
  (if decide (key ∈ flights st) then false else true).

(** The state in which [acquire] starts the function. *)
Definition fnState (app : Imagor) (ctx : Context) (key : string) (st : St) : St :=
  let st1 := snd (when (Debug app) (log LDebug "acquire") st) in
  if decide (key ∈ acquired ctx) then st1
  else {| calls := calls st1; logs := logs st1; flights := {[ key ]} ∪ flights st1 |}.

(** The context [acquire] hands to the function. *)
Definition fnContext (ctx : Context) (key : string) : Context :=
  if decide (key ∈ acquired ctx) then ctx else WithValue ctx key.

(** The ways out of the function that [Do] hands to [acquire]: the result
    loaders had the derivative; the source load failed; the source load
    gave an empty blob without error; the processors ran and left the blob
    and the error given; or a step before panicked or blocked. *)
Inductive Exit :=
| ExitCached (file : option File)
| ExitLoadError (e : error)
| ExitEmpty (file : option File)
| ExitProcessed (file : option File) (err : option error)
| ExitAborted.

Definition doExit (W : World) (app : Imagor) (r : Context)
    (p : imagorpath.Params) (st : St) : Exit :=
  match loadResult W app r (resultKey p) st with
  | (Returned (f, e), st1) =>
      if (if e is None then true else false) && negb (IsFileEmpty f)
      then ExitCached f
      else
        match loadStore W app r (imagorpath.Image p) st1 with
        | (Returned (f, Some e), _) => ExitLoadError e
        | (Returned (f, None), st2) =>
            if IsFileEmpty f then ExitEmpty f
            else
              match processLoop W app r p (Processors app) f None st2 with
              | (Returned (f', e'), _) => ExitProcessed f' e'
              | _ => ExitAborted
              end
        | _ => ExitAborted
        end
  | _ => ExitAborted
  end.

(** The blob and the state with which the function that [Do] hands to
    [acquire] reaches the processor loop; [None] when it leaves before the
    loop, or a step before panicked or blocked. *)
Definition loopEntry (W : World) (app : Imagor) (r : Context)
    (p : imagorpath.Params) (st : St) : option (option File * St) :=
  match loadResult W app r (resultKey p) st with
  | (Returned (f, e), st1) =>
      if (if e is None then true else false) && negb (IsFileEmpty f) then None
      else
        match loadStore W app r (imagorpath.Image p) st1 with
        | (Returned (f, None), st2) =>
            if IsFileEmpty f then None else Some (f, st2)
        | _ => None
        end
  | _ => None
  end.

(** The processors of a list are called one after the other and every one
    answers with [ErrPass]: the blob and the state after the last one (a
    blob that comes with a pass, when it is not empty, is the input of the
    next processor); [None] when a processor answers otherwise. *)
Fixpoint everyPass (W : World) (app : Imagor) (r : Context)
    (p : imagorpath.Params) (processors : list Processor)
    (file : option File) (st : St) : option (option File * St) :=
  match processors with
  | [] => Some (file, st)
  | processor :: rest =>
      match callProcess W app r processor file p st with
      | (Returned (f, Some e), st1) =>
          if isErr e (ErrPass (passCode W)) then
            everyPass W app r p rest (if negb (IsFileEmpty f) then f else file)
              (snd (when (Debug app) (log LDebug "process") st1))
          else None
      | _ => None
      end
  end.

(** The processors of a list are called one after the other and every one
    answers with an error after which the loop goes on, [ErrPass] or an
    error that is not a deadline exceeded: the blob, the error pending and
    the state after the last one; [None] when a processor answers
    otherwise. *)
Fixpoint goesOn (W : World) (app : Imagor) (r : Context)
    (p : imagorpath.Params) (processors : list Processor)
    (file : option File) (err : option error) (st : St)
  : option (option File * option error * St) :=
  match processors with
  | [] => Some (file, err, st)
  | processor :: rest =>
      match callProcess W app r processor file p st with
      | (Returned (f, Some e), st1) =>
          if isErr e (ErrPass (passCode W)) then
            goesOn W app r p rest (if negb (IsFileEmpty f) then f else file) err
              (snd (when (Debug app) (log LDebug "process") st1))
          else if errorsIs e EDeadlineExceeded then None
          else goesOn W app r p rest file (Some e) (snd (log LWarn "process" st1))
      | _ => None
      end
  end.

(** A computation whose calls, from any state, extend the calls made so
    far by events that satisfy [P]. *)
Definition adds {A} (P : list event -> Prop) (m : M A) : Prop :=
  forall st, exists l, calls (snd (m st)) = (calls st ++ l)%list /\ P l.

(** A computation that makes no [Save] call on a result storage. *)
Definition quiet (app : Imagor) {A} (m : M A) : Prop :=
  adds (fun l => resultSaves app l = []) m.

End Observe.

(** ** Concrete requests and configurations *)

Module Scenario.
Import Imagor.

(** A request for a 100x100 crop with the given alignment and filters. *)
Definition crop100 (halign valign : string) (smart : bool) (filters : list imagorpath.Filter)
  : imagorpath.Params :=
  {| imagorpath.ParamsEcho := false; imagorpath.Path := "100x100/foo.jpg";
     imagorpath.Image := "foo.jpg"; imagorpath.Unsafe := true;
     imagorpath.Hash := EmptyString; imagorpath.Meta := false;
     imagorpath.Trim := false; imagorpath.CropLeft := 0; imagorpath.CropTop := 0;
     imagorpath.CropRight := 0; imagorpath.CropBottom := 0;
     imagorpath.FitIn := false; imagorpath.Stretch := false;
     imagorpath.Width := 100; imagorpath.Height := 100;
     imagorpath.HAlign := halign; imagorpath.VAlign := valign;
     imagorpath.Smart := smart; imagorpath.Filters := filters |}.

(** A blob of three bytes without [Meta], and one with it. *)
Definition blob : File :=
  {| IsEmpty := false; ReadAll := [Byte.x49; Byte.x4d; Byte.x47]; FileMeta := None |}.

Definition jpegMeta : Meta :=
  {| Format := "jpeg"; ContentType := "image/jpeg"; Width := 100; Height := 100;
     Orientation := 0 |}.

Definition thumb : File :=
  {| IsEmpty := false; ReadAll := [Byte.x54; Byte.x48]; FileMeta := Some jpegMeta |}.

(** Two stores: objects that are both a loader and a storage. *)
Definition S3 : Storage := mkStorage 1 (fun _ _ _ => None).
Definition FS : Storage := mkStorage 2 (fun _ _ _ => Some (EOther "disk full")).

Definition S3Loader : Loader := mkLoader 1 true (fun _ _ => (Some blob, None)).
Definition FSLoader : Loader := mkLoader 2 true (fun _ _ => (Some blob, None)).

(** A storage for results only. *)
Definition ResultStore : Storage := mkStorage 7 (fun _ _ _ => None).

(** A loader that answers with no blob and no error, one that passes, and
    one that passes with a placeholder blob. *)
Definition EmptyLoader : Loader := mkLoader 3 false (fun _ _ => (None, None)).
Definition PassLoader : Loader :=
  mkLoader 4 false (fun _ _ => (None, Some (EImagor (ErrPass 400)))).
Definition GoneLoader : Loader :=
  mkLoader 5 false (fun _ _ => (None, Some (EImagor ErrNotFound))).

(** Processors: one that makes a thumbnail, one that passes, one that
    fails, one that succeeds with no blob, and one that loads a second
    image before it answers. *)
Definition Thumbnailer : Processor :=
  mkProcessor 10 (fun _ _ _ => ProcReturn (Some thumb) None).
Definition PassProcessor : Processor :=
  mkProcessor 11 (fun _ _ _ => ProcReturn None (Some (EImagor (ErrPass 400)))).
Definition FailProcessor : Processor :=
  mkProcessor 12 (fun _ _ _ => ProcReturn None (Some (EOther "decode failed"))).
Definition VoidProcessor : Processor :=
  mkProcessor 13 (fun _ _ _ => ProcReturn None None).
Definition Watermarker : Processor :=
  mkProcessor 14 (fun _ _ _ =>
    ProcLoad "logo.png" (fun _ => ProcReturn (Some thumb) None)).

(** The defaults of [New], with the backends given. *)
Definition newApp (loaders : list Loader) (storages : list Storage)
    (resultLoaders : list Loader) (resultStorages : list Storage)
    (processors : list Processor) : Imagor :=
  {| Version := "dev"; Unsafe := true; Secret := EmptyString;
     Loaders := loaders; Storages := storages;
     ResultLoaders := resultLoaders; ResultStorages := resultStorages;
     Processors := processors;
     RequestTimeout := 30 * 1000000000; LoadTimeout := 20 * 1000000000;
     SaveTimeout := 20 * 1000000000; ProcessTimeout := 20 * 1000000000;
     CacheHeaderTTL := 24 * 3600 * 1000000000; Debug := false |}.

(** The same with the option that sets the save timeout to zero. *)
Definition withoutSaveTimeout (app : Imagor) : Imagor :=
  {| Version := Version app; Unsafe := Unsafe app; Secret := Secret app;
     Loaders := Loaders app; Storages := Storages app;
     ResultLoaders := ResultLoaders app; ResultStorages := ResultStorages app;
     Processors := Processors app;
     RequestTimeout := RequestTimeout app; LoadTimeout := LoadTimeout app;
     SaveTimeout := 0; ProcessTimeout := ProcessTimeout app;
     CacheHeaderTTL := CacheHeaderTTL app; Debug := Debug app |}.

(** A world without cancellation, in which every path parses to an unsafe
    request for the path itself. *)
Definition world : World :=
  {| Sign := fun path secret => "sig-" +:+ secret +:+ "-" +:+ path;
     Parse := fun path =>
       {| imagorpath.ParamsEcho := false; imagorpath.Path := path;
          imagorpath.Image := path; imagorpath.Unsafe := true;
          imagorpath.Hash := EmptyString; imagorpath.Meta := false;
          imagorpath.Trim := false; imagorpath.CropLeft := 0;
          imagorpath.CropTop := 0; imagorpath.CropRight := 0;
          imagorpath.CropBottom := 0; imagorpath.FitIn := false;
          imagorpath.Stretch := false; imagorpath.Width := 0;
          imagorpath.Height := 0; imagorpath.HAlign := EmptyString;
          imagorpath.VAlign := EmptyString; imagorpath.Smart := false;
          imagorpath.Filters := [] |};
     passCode := 400;
     WrapError := fun err => match err with
                             | EImagor e => Some e
                             | _ => Some ErrInternal
                             end;
     ctxDone := fun _ _ => None;
     DetectContentType := fun _ => "application/octet-stream";
     Marshal := fun _ => [Byte.x7b; Byte.x7d];
     MarshalIndent := fun _ => [Byte.x7b; Byte.x0a; Byte.x7d];
     expiresIn := fun _ => "Thu, 01 Jan 1970 00:00:00 GMT";
     ttlSeconds := fun ttl => ttl / 1000000000 |}.

Definition st0 : St := {| calls := []; logs := []; flights := ∅ |}.
Definition ctx0 : Context := {| acquired := ∅ |}.

End Scenario.

(** ** Further observations *)

Module Extra.
Import Imagor.

(** Every [Save] call among the events has a blob that is not empty. *)
Definition savesNonEmpty (events : list event) : Prop :=
  Forall (fun e => match e with
                   | EvSave _ _ file => IsFileEmpty file = false
                   | _ => True
                   end) events.

(** A computation whose returned value satisfies [Q]. *)
Definition yields {A} (Q : A -> Prop) (m : M A) : Prop :=
  forall st a st', m st = (Returned a, st') -> Q a.

(** The error, if any, is not [ErrPass]. *)
Definition notPass (W : World) (err : option error) : Prop :=
  err <> Some (EImagor (ErrPass (passCode W))).


(** The processors called, in the order of the calls. *)
Fixpoint processed (events : list event) : list nat :=
  match events with
  | [] => []
  | EvProcess processor _ _ :: rest => processor :: processed rest
  | _ :: rest => processed rest
  end.

(** The headers that went out with the status line. *)
Definition sent (w : ResponseWriter) : gmap string (list string) :=
  match wroteHeader w with
  | Some (_, h) => h
  | None => ∅
  end.

(** The steps that a call of [save] still has to make in a state of the
    fan-out machine: two per started goroutine, one per goroutine back from
    [Save], three per storage the loop has to visit, and the end of the
    loop and of the wait. *)
Definition stepsLeft (s : Fanout.state) : nat :=
  (2 * length (Fanout.started s) + length (Fanout.finishing s) +
   match Fanout.at_pc s with
   | Fanout.Looping rest => 3 * length rest + 2
   | Fanout.Waiting => 1
   | Fanout.Return | Fanout.Panic => 0
   end)%nat.

End Extra.

(** ** Lifecycle: [Startup] and [Shutdown] *)

Module Lifecycle.
Import Imagor.

(** A processor as [Startup] and [Shutdown] see it: its identity and what
    its two hooks answer after the hooks that have run before. *)
Record Hooked := mkHooked {
  hooked_id : nat;
  StartupHook : list nat -> option error;
  ShutdownHook : list nat -> option error
}.

(** [for _, processor := range app.Processors { if err = hook(ctx); err !=
    nil { return } }; return]: the loop of [Startup] and of [Shutdown],
    with the identities of the processors whose hook has run. *)
Fixpoint runHooks (hook : Hooked -> list nat -> option error)
    (processors : list Hooked) (ran : list nat) : list nat * option error :=
  match processors with
  | [] => (ran, None)
  | processor :: rest =>
      match hook processor ran with
      | Some e => ((ran ++ [hooked_id processor])%list, Some e)
      | None => runHooks hook rest (ran ++ [hooked_id processor])%list
      end
  end.

Definition Startup (processors : list Hooked) : list nat * option error :=
  runHooks StartupHook processors [].

Definition Shutdown (processors : list Hooked) : list nat * option error :=
  runHooks ShutdownHook processors [].

End Lifecycle.

(** ** The rest of [vips.go] *)

(** *** Creating the image: [newThumbnail], [newImage] *)

Module VipsLoad.
Import imagorpath Vips.

(** Modelled from the spec: [imagor.Blob] is declared in a file that is
    not among the sources. The spec describes it as a byte payload with an
    emptiness probe and a probe for formats that may hold several frames;
    [ReadAll] answers the bytes or an error. *)
Record Blob := mkBlob {
  BlobEmpty : bool;
  BlobReadAll : list Byte.byte + Imagor.error;
  SupportsAnimation : bool
}.

(** Modelled from the spec: [imagor.IsBlobEmpty], the emptiness probe on a
    [*Blob] that may be nil, [None] here. *)
Definition IsBlobEmpty (blob : option Blob) : bool :=
  match blob with
  | None => true
  | Some b => BlobEmpty b
  end.

(** What the two functions do with the blob: return an error before the
    image library is called, or call [vips.LoadThumbnailFromBuffer] or
    [vips.LoadImageFromBuffer] with these arguments. [pages] is the
    [NumPages] of the import parameters, [None] for nil parameters; [crop]
    holds the arguments of the [v.animatedThumbnailWithCrop] that follows
    the load, if one does. *)
Inductive Loaded :=
| LoadFails (e : Imagor.error)
| LoadThumbnailFromBuffer (buf : list Byte.byte) (width height : Z)
    (crop : Interesting) (size : Size) (pages : option Z)
| LoadImageFromBuffer (buf : list Byte.byte) (pages : option Z)
    (crop : option (Z * Z * Interesting * Size)).

(** [newThumbnail], up to the call of the library. *)
Definition newThumbnail (blob : option Blob) (width height : Z)
    (crop : Interesting) (size : Size) (n : Z) : Loaded :=
  match blob with
  | Some b =>
      if IsBlobEmpty blob then LoadFails (Imagor.EImagor Imagor.ErrNotFound)
      else
        match BlobReadAll b with
        | inr err => LoadFails err
        | inl buf =>
            if SupportsAnimation b && negb (n =? 1) && negb (n =? 0) then
              match crop, size with
              | InterestingNone, _ | _, SizeForce =>
                  LoadThumbnailFromBuffer buf width height crop size (Some n)
              | _, _ =>
                  LoadImageFromBuffer buf (Some n) (Some (width, height, crop, size))
              end
            else LoadThumbnailFromBuffer buf width height crop size None
        end
  | None => LoadFails (Imagor.EImagor Imagor.ErrNotFound)
  end.

(** [newImage], up to the call of the library. *)
Definition newImage (blob : option Blob) (n : Z) : Loaded :=
  match blob with
  | Some b =>
      if IsBlobEmpty blob then LoadFails (Imagor.EImagor Imagor.ErrNotFound)
      else
        match BlobReadAll b with
        | inr err => LoadFails err
        | inl buf =>
            if SupportsAnimation b && negb (n =? 1) && negb (n =? 0)
            then LoadImageFromBuffer buf (Some n) None
            else LoadImageFromBuffer buf None None
        end
  | None => LoadFails (Imagor.EImagor Imagor.ErrNotFound)
  end.

(** The part of [Process] that creates the image: the call that
    [loadDecision] selects, made on the blob. *)
Definition loadImage (v : VipsProcessor) (p : Params) (blob : option Blob) : Loaded :=
  match fst (loadDecision v p) with
  | NewThumbnail width height crop size n => newThumbnail blob width height crop size n
  | NewImage n => newImage blob n
  end.

(** The number of pages the library is asked for. *)
Definition pages (l : Loaded) : option Z :=
  match l with
  | LoadFails _ => None
  | LoadThumbnailFromBuffer _ _ _ _ _ n => n
  | LoadImageFromBuffer _ n _ => n
  end.

(** The call of the image library that [export] makes: the encoder, and
    the [Quality] that [export] sets in its parameters, [None] when it
    leaves the default of the library. The PNG parameters get none. *)
Inductive Encoding :=
| ExportPng
| ExportWebp (quality : option Z)
| ExportHeif (quality : option Z)
| ExportTiff (quality : option Z)
| ExportGIF (quality : option Z)
| ExportAvif (quality : option Z)
| ExportJp2k (quality : option Z)
| ExportJpeg (quality : option Z).

(** [export], up to the call of the library. *)
Definition export (format : ImageType) (quality : Z) : Encoding :=
  let opts := if quality >? 0 then Some quality else None in
  match format with
  | ImageTypePNG => ExportPng
  | ImageTypeWEBP => ExportWebp opts
  | ImageTypeHEIF => ExportHeif opts
  | ImageTypeTIFF => ExportTiff opts
  | ImageTypeGIF => ExportGIF opts
  | ImageTypeAVIF => ExportAvif opts
  | ImageTypeJP2K => ExportJp2k opts
  | _ => ExportJpeg opts
  end.

(** The format that a call encodes to, and the quality it sets. *)
Definition encoder (call : Encoding) : ImageType :=
  match call with
  | ExportPng => ImageTypePNG
  | ExportWebp _ => ImageTypeWEBP
  | ExportHeif _ => ImageTypeHEIF
  | ExportTiff _ => ImageTypeTIFF
  | ExportGIF _ => ImageTypeGIF
  | ExportAvif _ => ImageTypeAVIF
  | ExportJp2k _ => ImageTypeJP2K
  | ExportJpeg _ => ImageTypeJPEG
  end.

Definition encoderQuality (call : Encoding) : option Z :=
  match call with
  | ExportPng => None
  | ExportWebp q | ExportHeif q | ExportTiff q | ExportGIF q | ExportAvif q
  | ExportJp2k q | ExportJpeg q => q
  end.

Section SecondScan.
(** The number that [strconv.Atoi] returns; [Process] drops its error. *)
Variable Atoi : string -> Z.

(** One iteration of the second [for _, p := range p.Filters] of
    [Process], on the variables [quality] and [format]. *)
Definition scanExport (acc : Z * ImageType) (f : Filter) : Z * ImageType :=
  if String.eqb (Name f) "quality" then (Atoi (Args f), snd acc)
  else if String.eqb (Name f) "autojpg" then (fst acc, ImageTypeJPEG)
  else acc.

(** The [quality] and the [format] with which [Process] calls [export]
    for an image of the format [imgFormat]: the format of the [format]
    filters, else [img.Format()]; then the second scan of the filters. *)
Definition exportArgs (v : VipsProcessor) (p : Params) (imgFormat : ImageType)
  : Z * ImageType :=
  let format := format (scanFilters v p) in
  let format := if ImageType_eqb format ImageTypeUnknown then imgFormat else format in
  fold_left scanExport (Filters p) (0, format).

(** The call [export(img, format, quality)] of [Process]. *)
Definition exportCall (v : VipsProcessor) (p : Params) (imgFormat : ImageType)
  : Encoding :=
  let '(quality, format) := exportArgs v p imgFormat in
  export format quality.

End SecondScan.

(** A [format] filter that names a type which cannot hold frames; a filter
    that makes the request special. *)
Definition stillFormat (f : Filter) : bool :=
  String.eqb (Name f) "format" &&
  match imageTypeMap !! Args f with
  | Some typ =>
      negb (ImageType_eqb typ ImageTypeGIF) && negb (ImageType_eqb typ ImageTypeWEBP)
  | None => false
  end.

Definition specialFilter (f : Filter) : bool :=
  String.eqb (Name f) "trim" ||
  ((String.eqb (Name f) "fill" || String.eqb (Name f) "background_color") &&
   String.eqb (firstField (Args f)) "auto").

(** Whether one of the four crop insets of the request is set. *)
Definition cropped (p : Params) : bool :=
  negb ((CropBottom p =? 0) && (CropTop p =? 0) && (CropLeft p =? 0) &&
        (CropRight p =? 0)).

End VipsLoad.

(** *** Cropping an animation: [animatedThumbnailWithCrop] *)

Module VipsCrop.
Import Vips.

(** The image as the function reads it: [img.Width()] and
    [img.PageHeight()]. *)
Record ImageRef := mkImageRef {
  ImgWidth : Z;
  ImgPageHeight : Z
}.

(** How the function ends: with the image untouched, with the error of
    the resize, or with [img.ExtractArea(left, top, w, h)] on the resized
    image. *)
Inductive Cropped :=
| Untouched
| ResizeFails (e : Imagor.error)
| ExtractArea (img : ImageRef) (left top width height : Z).

Section Library.
(** The image library: [img.ThumbnailWithSize(w, h, crop, size)], which
    resizes the image in place or fails; and the comparison
    [float64(w)/float64(h) > float64(img.Width())/float64(img.PageHeight())]
    of the two ratios as floating-point numbers. *)
Variable ThumbnailWithSize :
  Z -> Z -> Interesting -> Size -> ImageRef -> Imagor.error + ImageRef.
Variable wider : Z -> Z -> Z -> Z -> bool.

(** [animatedThumbnailWithCrop]; the division of Go integers truncates. *)
Definition animatedThumbnailWithCrop (v : VipsProcessor) (img : ImageRef)
    (w h : Z) (crop : Interesting) (size : Size) : Cropped :=
  if (match size with SizeDown => true | _ => false end) &&
     (ImgWidth img <? w) && (ImgPageHeight img <? h)
  then Untouched
  else
    let resized :=
      if wider w h (ImgWidth img) (ImgPageHeight img)
      then ThumbnailWithSize w (MaxHeight v) InterestingNone size img
      else ThumbnailWithSize (MaxWidth v) h InterestingNone size img in
    match resized with
    | inl err => ResizeFails err
    | inr img =>
        let '(x, y) :=            (* [left] and [top] *)
          match crop with
          | InterestingHigh => (ImgWidth img - w, ImgPageHeight img - h)
          | InterestingCentre | InterestingAttention =>
              (Z.quot (ImgWidth img - w) 2, Z.quot (ImgPageHeight img - h) 2)
          | _ => (0, 0)
          end in
        ExtractArea img x y w h
    end.

End Library.
End VipsCrop.

(** *** The metadata of the result: [getMeta] *)

Module VipsMeta.
Import Vips.

(** [var imageMimeTypeMap = map[string]string{...}] *)
Definition imageMimeTypeMap : gmap string string :=
  list_to_map
    [ ("gif", "image/gif"); ("jpeg", "image/jpeg"); ("jpg", "image/jpeg");
      ("pdf", "application/pdf"); ("png", "image/png"); ("svg", "image/svg+xml");
      ("tiff", "image/tiff"); ("webp", "image/webp"); ("heif", "image/heif");
      ("bmp", "image/bmp"); ("avif", "image/avif"); ("jp2", "image/jp2") ].

(** The fields of [vips.ImageMetadata] that [getMeta] reads. *)
Record ImageMetadata := mkImageMetadata {
  MetaFormat : ImageType;
  MetaWidth : Z;
  MetaHeight : Z;
  MetaOrientation : Z
}.

Section Library.
(** [vips.ImageTypes], the map of the image library from a type to its
    name. *)
Variable ImageTypes : ImageType -> option string.

(** [getMeta]. A lookup that fails gives the zero value, the empty string,
    and [ok = false]. *)
Definition getMeta (meta : ImageMetadata) : Imagor.Meta :=
  let '(format, ok) :=
    match ImageTypes (MetaFormat meta) with
    | Some s => (s, true)
    | None => (EmptyString, false)
    end in
  let '(contentType, ok2) :=
    match imageMimeTypeMap !! format with
    | Some s => (s, true)
    | None => (EmptyString, false)
    end in
  let '(format, contentType) :=
    if negb ok || negb ok2 then ("jpeg", "image/jpeg") else (format, contentType) in
  {| Imagor.Format := format;
     Imagor.ContentType := contentType;
     Imagor.Width := MetaWidth meta;
     Imagor.Height := MetaHeight meta;
     Imagor.Orientation := MetaOrientation meta |}.

End Library.
End VipsMeta.

(** *** The configuration: [New] with its options *)

Module VipsOptions.

(** The filter functions of the package that [New] installs; their bodies
    are not among the sources. [custom] stands for a function that an
    option installs. *)
Inductive FilterFunc :=
| watermark | roundCorner | rotate | grayscale | brightness | backgroundColor
| contrast | modulate | hue | saturation | rgb | blur | sharpen | stripIcc
| stripExif | trimFilter
| custom (id : nat).

(** [VipsProcessor] with the fields that [New] sets. *)
Record VipsProcessor := mkVipsProcessor {
  Filters : gmap string FilterFunc;
  DisableBlur : bool;
  DisableFilters : list string;
  MaxFilterOps : Z;
  Concurrency : Z;
  MaxWidth : Z;
  MaxHeight : Z;
  MaxAnimationFrames : Z
}.

(** An [Option] is a function that updates the processor. *)
Definition Option := VipsProcessor -> VipsProcessor.

(** The processor before the options are applied. *)
Definition defaults : VipsProcessor :=
  {| Filters :=
       list_to_map
         [ ("watermark", watermark); ("round_corner", roundCorner);
           ("rotate", rotate); ("grayscale", grayscale);
           ("brightness", brightness); ("background_color", backgroundColor);
           ("contrast", contrast); ("modulate", modulate); ("hue", hue);
           ("saturation", saturation); ("rgb", rgb); ("blur", blur);
           ("sharpen", sharpen); ("strip_icc", stripIcc);
           ("strip_exif", stripExif); ("trim", trimFilter) ];
     DisableBlur := false;
     DisableFilters := [];
     MaxFilterOps := 10;
     Concurrency := 1;
     MaxWidth := 9999;
     MaxHeight := 9999;
     MaxAnimationFrames := -1 |}.

(** [New(options...)]; [NumCPU] is what [runtime.NumCPU()] answers. *)
Definition New (NumCPU : Z) (options : list Option) : VipsProcessor :=
  let v := fold_left (fun v option => option v) options defaults in
  let disabled :=
    if DisableBlur v then (DisableFilters v ++ ["blur"; "sharpen"])%list
    else DisableFilters v in
  {| Filters := fold_left (fun filters name => delete name filters) disabled (Filters v);
     DisableBlur := DisableBlur v;
     DisableFilters := disabled;
     MaxFilterOps := MaxFilterOps v;
     Concurrency := if Concurrency v =? -1 then NumCPU else Concurrency v;
     MaxWidth := MaxWidth v;
     MaxHeight := MaxHeight v;
     MaxAnimationFrames := MaxAnimationFrames v |}.

End VipsOptions.

(** * Properties *)

(** ** The pipeline decision engine *)

Module VipsProps.
Import imagorpath Vips.

(** The decision in the branch of a full target size without [fit_in] and
    [stretch]: the crop interest decides between the cropping thumbnail and
    the plain load. *)
Lemma loadDecision_crop (v : VipsProcessor) (p : Params) :
  0 < Width p -> 0 < Height p ->
  special (scanFilters v p) = false ->
  CropLeft p = 0 -> CropTop p = 0 -> CropRight p = 0 -> CropBottom p = 0 ->
  FitIn p = false ->
  stretch (scanFilters v p) = false ->
  loadDecision v p =
    match cropInterest p with
    | Some interest =>
        (NewThumbnail (Width p) (Height p) interest SizeBoth (maxN (scanFilters v p)),
         true)
    | None =>
        (NewThumbnail (MaxWidth v) (MaxHeight v) InterestingNone SizeDown
           (maxN (scanFilters v p)), false)
    end.
Proof.
  intros Hw Hh Hsp Hl Ht Hr Hb Hfit Hst.
  unfold loadDecision, shrinkOnLoad.
  rewrite Hsp, Hl, Ht, Hr, Hb, Hfit, Hst. cbn [negb andb Z.eqb].
  assert ((Width p >? 0) = true) as -> by lia.
  assert ((Height p >? 0) = true) as -> by lia.
  cbn [andb]. destruct (cropInterest p); reflexivity.
Qed.

(** C10 (as the code has it). For a request with width > 0, height > 0, not
    special, no crop inset, no fit-in and no stretch: [smart] selects the
    thumbnail with interest Attention and size Both; else top with no
    horizontal alignment, or left with no vertical one, selects Low; bottom
    with no horizontal alignment, or right with no vertical one, selects
    High; a vertical alignment that is unset or middle together with a
    horizontal one that is unset or center selects Centre; and every other
    pair of alignments selects no cropping thumbnail: the image is loaded at
    MaxWidth x MaxHeight with interest None and size Down. *)
Theorem crop_thumbnail_decision (v : VipsProcessor) (p : Params) :
  0 < Width p -> 0 < Height p ->
  special (scanFilters v p) = false ->
  CropLeft p = 0 -> CropTop p = 0 -> CropRight p = 0 -> CropBottom p = 0 ->
  FitIn p = false ->
  stretch (scanFilters v p) = false ->
  let n := maxN (scanFilters v p) in
  let crop interest := (NewThumbnail (Width p) (Height p) interest SizeBoth n, true) in
  (Smart p = true -> loadDecision v p = crop InterestingAttention) /\
  (Smart p = false ->
   (VAlign p = "top" /\ HAlign p = EmptyString) \/
   (HAlign p = "left" /\ VAlign p = EmptyString) ->
   loadDecision v p = crop InterestingLow) /\
  (Smart p = false ->
   (VAlign p = "bottom" /\ HAlign p = EmptyString) \/
   (HAlign p = "right" /\ VAlign p = EmptyString) ->
   loadDecision v p = crop InterestingHigh) /\
  (Smart p = false ->
   (VAlign p = EmptyString \/ VAlign p = "middle") ->
   (HAlign p = EmptyString \/ HAlign p = "center") ->
   loadDecision v p = crop InterestingCentre) /\
  (Smart p = false ->
   ~ ((VAlign p = "top" /\ HAlign p = EmptyString) \/
      (HAlign p = "left" /\ VAlign p = EmptyString)) ->
   ~ ((VAlign p = "bottom" /\ HAlign p = EmptyString) \/
      (HAlign p = "right" /\ VAlign p = EmptyString)) ->
   ~ ((VAlign p = EmptyString \/ VAlign p = "middle") /\
      (HAlign p = EmptyString \/ HAlign p = "center")) ->
   loadDecision v p =
     (NewThumbnail (MaxWidth v) (MaxHeight v) InterestingNone SizeDown n, false)).
Proof.
  intros Hw Hh Hsp Hl Ht Hr Hb Hfit Hst n crop.
  rewrite (loadDecision_crop v p Hw Hh Hsp Hl Ht Hr Hb Hfit Hst).
  unfold cropInterest, VAlignTop, VAlignBottom, HAlignLeft, HAlignRight.
  repeat split.
  - intros ->. reflexivity.
  - intros -> [[-> ->] | [-> ->]]; reflexivity.
  - intros -> [[-> ->] | [-> ->]]; reflexivity.
  - intros -> [-> | ->] [-> | ->]; reflexivity.
  - intros -> HnL HnH HnC.
    destruct (String.eqb_spec (VAlign p) "top"),
             (String.eqb_spec (HAlign p) EmptyString),
             (String.eqb_spec (HAlign p) "left"),
             (String.eqb_spec (VAlign p) EmptyString),
             (String.eqb_spec (VAlign p) "bottom"),
             (String.eqb_spec (HAlign p) "right"),
             (String.eqb_spec (VAlign p) "middle"),
             (String.eqb_spec (HAlign p) "center");
      cbn [andb orb]; try reflexivity; exfalso; tauto.
Qed.

(** The decision at a request aligned to the left only. *)
Lemma crop_thumbnail_decision_witness :
  let p := Scenario.crop100 "left" EmptyString false [] in
  0 < Width p /\ 0 < Height p /\ special (scanFilters New p) = false /\
  FitIn p = false /\ stretch (scanFilters New p) = false /\
  loadDecision New p = (NewThumbnail 100 100 InterestingLow SizeBoth (-1), true).
Proof.
  intros p.
  destruct (crop_thumbnail_decision New p) as (_ & HLow & _);
    try reflexivity.
  do 5 (split; [reflexivity |]).
  exact (HLow eq_refl (or_intror (conj eq_refl eq_refl))).
Defined.

(** C10 as the spec words it fails for a request aligned both to the top
    and to the left: every premise of the claim holds, and the load is not
    a thumbnail of the target size with size Both (it is the plain load at
    9999 x 9999 with interest None and size Down). *)
Lemma crop_thumbnail_topleft_counterexample :
  let p := Scenario.crop100 "left" "top" false [] in
  0 < Width p /\ 0 < Height p /\ special (scanFilters New p) = false /\
  CropLeft p = 0 /\ CropTop p = 0 /\ CropRight p = 0 /\ CropBottom p = 0 /\
  FitIn p = false /\ stretch (scanFilters New p) = false /\
  Smart p = false /\ VAlign p = "top" /\ HAlign p = "left" /\
  loadDecision New p =
    (NewThumbnail 9999 9999 InterestingNone SizeDown (-1), false) /\
  ~ (exists interest n,
       fst (loadDecision New p) = NewThumbnail (Width p) (Height p) interest SizeBoth n).
Proof.
  intros p. repeat split; try reflexivity.
  intros (interest & n & H). vm_compute in H. discriminate H.
Qed.

End VipsProps.

(** ** Storage fan-out *)

Module SaveProps.
Import Imagor.

(** Unfolding one bind of the run monad. *)
Lemma bind_run {A B} (m : M A) (f : A -> M B) (st : St) :
  (m ≫= f) st =
    match m st with
    | (Returned a, st') => f a st'
    | (Panicked, st') => (Panicked, st')
    | (Blocked, st') => (Blocked, st')
    end.
Proof. reflexivity. Qed.

Lemma when_calls (b : bool) (l : level) (msg : string) (st : St) :
  exists st', when b (log l msg) st = (Returned tt, st') /\
              calls st' = calls st /\ flights st' = flights st.
Proof. destruct b; cbn; eauto. Qed.

(** One goroutine body returns, and adds its [Save] call. *)
Lemma saveOne_returns (app : Imagor) (storage : Storage) (key : string)
    (file : option File) (st : St) :
  exists st', saveOne app storage key file st = (Returned tt, st') /\
              calls st' = (calls st ++ [Fanout.saveEvent key file storage])%list /\
              flights st' = flights st.
Proof.
  unfold saveOne. rewrite bind_run. cbn. rewrite bind_run. cbn.
  destruct (Save storage (calls st) key file); [cbn; eauto |].
  destruct (Debug app); cbn; eauto.
Qed.

(** The loop of [save] with its wait returns, and the calls it adds are the
    [Save] calls on the storages that are not the origin, in order. *)
Lemma saveAll_returns (app : Imagor) (origin : option nat) (key : string)
    (file : option File) (storages : list Storage) :
  forall st, exists st',
    saveAll app origin storages key file st = (Returned tt, st') /\
    calls st' =
      (calls st ++ map (Fanout.saveEvent key file) (Fanout.targets origin storages))%list /\
    flights st' = flights st.
Proof.
  induction storages as [| storage rest IH]; intros st; cbn [saveAll].
  - exists st. cbn. rewrite app_nil_r. auto.
  - rewrite bind_run. unfold Fanout.targets. cbn [List.filter].
    destruct (sameObject storage origin); cbn [negb].
    + destruct (when_calls (Debug app) LDebug "skip-save" st) as (st1 & -> & Hc & Hf).
      destruct (IH st1) as (st' & -> & Hc' & Hf').
      exists st'. rewrite Hc', Hc, Hf', Hf. auto.
    + destruct (saveOne_returns app storage key file st) as (st1 & -> & Hc & Hf).
      destruct (IH st1) as (st' & -> & Hc' & Hf').
      exists st'. rewrite Hc', Hc, Hf', Hf. cbn [map]. rewrite <- app_assoc. auto.
Qed.

(** What [save] does: the calls of the loop, then a return when
    [SaveTimeout] is positive and a panic otherwise. *)
Lemma save_run (app : Imagor) (ctx : Context) (origin : option nat)
    (storages : list Storage) (key : string) (file : option File) (st : St) :
  exists st',
    save app ctx origin storages key file st =
      (if SaveTimeout app >? 0 then Returned tt else Panicked, st') /\
    calls st' =
      (calls st ++ map (Fanout.saveEvent key file) (Fanout.targets origin storages))%list /\
    flights st' = flights st.
Proof.
  unfold save. rewrite bind_run.
  destruct (saveAll_returns app origin key file storages st) as (st' & -> & Hc & Hf).
  exists st'. destruct (SaveTimeout app >? 0); auto.
Qed.

(** C3. When [app.SaveTimeout] is zero or negative, every call of [save]
    panics, and it does so after the storage writes: the state it panics in
    has the [Save] call of every storage that is not the origin. *)
Theorem save_panics_without_timeout (app : Imagor) (ctx : Context)
    (origin : option nat) (storages : list Storage) (key : string)
    (file : option File) (st : St) :
  SaveTimeout app <= 0 ->
  exists st',
    save app ctx origin storages key file st = (Panicked, st') /\
    calls st' =
      (calls st ++ map (Fanout.saveEvent key file) (Fanout.targets origin storages))%list.
Proof.
  intros Hto.
  destruct (save_run app ctx origin storages key file st) as (st' & Hrun & Hc & _).
  exists st'. split; [| exact Hc].
  rewrite Hrun. assert ((SaveTimeout app >? 0) = false) as -> by lia. reflexivity.
Qed.

(** [save] with a zero timeout on the two stores, origin [S3]: it panics
    after the write to [FS]. *)
Lemma save_panics_without_timeout_witness :
  let app := Scenario.withoutSaveTimeout (Scenario.newApp [] [] [] [] []) in
  SaveTimeout app <= 0 /\
  exists st',
    save app Scenario.ctx0 (Some 1%nat) [Scenario.S3; Scenario.FS] "foo.jpg"
      (Some Scenario.blob) Scenario.st0 = (Panicked, st') /\
    calls st' = [EvSave 2 "foo.jpg" (Some Scenario.blob)].
Proof.
  intros app. split; [vm_compute; discriminate |].
  apply (save_panics_without_timeout app Scenario.ctx0 (Some 1%nat)
           [Scenario.S3; Scenario.FS] "foo.jpg" (Some Scenario.blob) Scenario.st0).
  vm_compute; discriminate.
Defined.

End SaveProps.

(** ** The goroutines of the fan-out *)

Module FanoutProps.
Import Imagor Fanout.

(** The [Save] calls in a list of events that go to the object [id]. *)
Lemma savesTo_map (id : nat) (key : string) (file : option File)
    (storages : list Storage) :
  savesTo id (map (saveEvent key file) storages) = entries id storages.
Proof.
  unfold savesTo, entries.
  induction storages as [| storage rest IH]; cbn; [reflexivity |].
  destruct (Nat.eqb (storage_id storage) id); cbn; rewrite IH; reflexivity.
Qed.

Section Machine.
Variables (app : Imagor) (h0 : list event) (origin : option nat)
          (key : string) (file : option File) (storages : list Storage).

Abbreviation step := (step app h0 origin key file).
Abbreviation run := (run app h0 origin key file).
Abbreviation ev := (saveEvent key file).
Abbreviation inv := (inv origin key file storages).

Lemma fanout_inv_init : inv (init storages).
Proof.
  split; [reflexivity | split; [cbn; reflexivity | cbn; discriminate]].
Qed.

Lemma fanout_inv_step (a : action) (s s' : state) :
  inv s -> step a s = Some s' -> inv s'.
Proof.
  intros (Hwg & Hperm & Hterm) Hstep. unfold Fanout.inv, remaining in *.
  destruct a as [| i | i |]; cbn in Hstep.
  - destruct (at_pc s) as [[| storage rest] | | |] eqn:Hpc; try discriminate.
    + injection Hstep as <-. cbn.
      split; [exact Hwg | split; [exact Hperm | discriminate]].
    + unfold targets in Hperm. cbn [List.filter] in Hperm.
      destruct (sameObject storage origin); injection Hstep as <-; cbn;
        cbn [negb] in Hperm.
      * split; [exact Hwg | split; [exact Hperm | discriminate]].
      * split; [rewrite Hwg, length_app; cbn; lia | split; [| discriminate]].
        rewrite map_app. cbn [map]. rewrite <- Hperm.
        rewrite <- !app_assoc. reflexivity.
  - destruct (started s !! i) as [storage |] eqn:Hi; [| discriminate].
    injection Hstep as <-. cbn.
    assert (Hlen : (i < length (started s))%nat) by (eapply lookup_lt_Some; eauto).
    split; [| split].
    + rewrite Hwg, length_delete, length_app by eauto. cbn. lia.
    + rewrite <- Hperm. rewrite (delete_Permutation (started s) i storage Hi) at 2.
      cbn [map]. rewrite <- !app_assoc. reflexivity.
    + exact Hterm.
  - destruct (finishing s !! i) as [storage |] eqn:Hi; [| discriminate].
    injection Hstep as <-. cbn.
    assert (Hlen : (i < length (finishing s))%nat) by (eapply lookup_lt_Some; eauto).
    split; [| split].
    + rewrite Hwg, length_delete by eauto. lia.
    + exact Hperm.
    + intros Ht. specialize (Hterm Ht). lia.
  - destruct (at_pc s) eqn:Hpc; try discriminate.
    destruct (Nat.eqb_spec (wg s) 0) as [Hz |]; [| discriminate].
    injection Hstep as <-. cbn.
    split; [exact Hwg | split; [| intros _; exact Hz]].
    destruct (SaveTimeout app >? 0); exact Hperm.
Qed.

Lemma fanout_inv_run (sched : list action) :
  forall s s', inv s -> run sched s = Some s' -> inv s'.
Proof.
  induction sched as [| a rest IH]; intros s s' Hinv Hrun; cbn in Hrun.
  - injection Hrun as <-. exact Hinv.
  - destruct (step a s) as [s1 |] eqn:Hstep; [| discriminate].
    eapply IH; [eapply fanout_inv_step; eauto | exact Hrun].
Qed.

(** The function leaves [wg.Wait()] in a way that the timeout alone
    decides, whatever the storages answered. *)
Lemma exit_step (a : action) (s s' : state) :
  (terminal s = true -> at_pc s = if SaveTimeout app >? 0 then Return else Panic) ->
  step a s = Some s' ->
  terminal s' = true -> at_pc s' = if SaveTimeout app >? 0 then Return else Panic.
Proof.
  intros Hs Hstep. unfold terminal in *.
  destruct a as [| i | i |]; cbn in Hstep.
  - destruct (at_pc s) as [[| storage rest] | | |]; try discriminate.
    + injection Hstep as <-. cbn. discriminate.
    + destruct (sameObject storage origin); injection Hstep as <-; cbn; discriminate.
  - destruct (started s !! i); [| discriminate]. injection Hstep as <-. exact Hs.
  - destruct (finishing s !! i); [| discriminate]. injection Hstep as <-. exact Hs.
  - destruct (at_pc s); try discriminate.
    destruct (Nat.eqb (wg s) 0); [| discriminate].
    injection Hstep as <-. cbn. reflexivity.
Qed.

Lemma exit_run (sched : list action) :
  forall s s',
    (terminal s = true -> at_pc s = if SaveTimeout app >? 0 then Return else Panic) ->
    run sched s = Some s' ->
    terminal s' = true -> at_pc s' = if SaveTimeout app >? 0 then Return else Panic.
Proof.
  induction sched as [| a rest IH]; intros s s' Hs Hrun; cbn in Hrun.
  - injection Hrun as <-. exact Hs.
  - destruct (step a s) as [s1 |] eqn:Hstep; [| discriminate].
    eapply IH; [eapply exit_step; eauto | exact Hrun].
Qed.

End Machine.
Lemma savesTo_Permutation (id : nat) (l1 l2 : list event) :
  l1 ≡ₚ l2 -> savesTo id l1 = savesTo id l2.
Proof.
  unfold savesTo. induction 1 as [| e l l' _ IH | e e' l | l l' l'' _ IH1 _ IH2]; cbn.
  - reflexivity.
  - destruct e; cbn; try exact IH. destruct (Nat.eqb storage id); cbn; lia.
  - destruct e, e'; cbn; try reflexivity;
      repeat match goal with |- context [Nat.eqb ?a ?b] => destruct (Nat.eqb a b) end;
      reflexivity.
  - lia.
Qed.

(** The entries of an object among the targets: none when the object is
    the origin, all its entries otherwise. *)
Lemma entries_targets (origin : option nat) (storage : Storage)
    (storages : list Storage) :
  entries (storage_id storage) (targets origin storages) =
    if sameObject storage origin then 0%nat
    else entries (storage_id storage) storages.
Proof.
  unfold entries, targets.
  induction storages as [| x rest IH]; cbn.
  - destruct (sameObject storage origin); reflexivity.
  - destruct (Nat.eqb_spec (storage_id x) (storage_id storage)) as [Heq | Hne].
    + assert (sameObject x origin = sameObject storage origin) as ->
        by (unfold sameObject; rewrite Heq; reflexivity).
      destruct (sameObject storage origin) eqn:Hso; cbn.
      * exact IH.
      * rewrite Heq, Nat.eqb_refl. cbn. rewrite IH. reflexivity.
    + destruct (sameObject x origin); cbn; [exact IH |].
      destruct (Nat.eqb_spec (storage_id x) (storage_id storage)); [contradiction |].
      exact IH.
Qed.

(** A state past [wg.Wait()] has no goroutine left, and the writes made
    are those of the targets, in some order. *)
Lemma terminal_saved (app : Imagor) (h0 : list event) (origin : option nat)
    (key : string) (file : option File) (storages : list Storage)
    (sched : list action) (s : state) :
  run app h0 origin key file sched (init storages) = Some s ->
  terminal s = true ->
  started s = [] /\ finishing s = [] /\
  saved s ≡ₚ map (saveEvent key file) (targets origin storages).
Proof.
  intros Hrun Hterm.
  destruct (fanout_inv_run app h0 origin key file storages sched _ _
              (fanout_inv_init origin key file storages) Hrun) as (Hwg & Hperm & Hzero).
  specialize (Hzero Hterm). rewrite Hzero in Hwg.
  assert (Hst : started s = []) by (destruct (started s); [reflexivity | cbn in Hwg; lia]).
  assert (Hfi : finishing s = [])
    by (destruct (finishing s); [reflexivity | rewrite Hst in Hwg; cbn in Hwg; lia]).
  assert (Hrem : remaining s = []).
  { unfold remaining, terminal in *. destruct (at_pc s); try reflexivity. discriminate. }
  rewrite Hst, Hrem in Hperm. cbn in Hperm. rewrite app_nil_r in Hperm.
  auto.
Qed.

(** The schedule [inOrder] is a run of the machine that leaves
    [wg.Wait()]: [save] does not wait for ever. *)
Lemma inOrder_run (app : Imagor) (h0 : list event) (origin : option nat)
    (key : string) (file : option File) (storages : list Storage) :
  forall s,
    at_pc s = Looping storages -> started s = [] -> finishing s = [] ->
    wg s = 0%nat ->
    exists s',
      run app h0 origin key file (inOrder origin storages) s = Some s' /\
      terminal s' = true /\
      saved s' = (saved s ++ map (saveEvent key file) (targets origin storages))%list.
Proof.
  induction storages as [| storage rest IH]; intros s Hpc Hst Hfi Hwg.
  - cbn. rewrite Hpc. cbn. rewrite Hwg. cbn.
    eexists. split; [reflexivity |]. cbn. rewrite app_nil_r.
    split; [destruct (SaveTimeout app >? 0); reflexivity | reflexivity].
  - cbn [inOrder]. unfold targets. cbn [List.filter].
    destruct (sameObject storage origin) eqn:Hso; cbn [negb].
    + cbn [run step]. rewrite Hpc, Hso.
      match goal with |- context [run _ _ _ _ _ _ ?s1] =>
        destruct (IH s1) as (s' & Hrun & Hterm & Hsaved); [reflexivity | auto ..] end.
      exists s'. auto.
    + cbn [run step]. rewrite Hpc, Hso. cbn [started]. rewrite Hst. cbn.
      rewrite Hfi. cbn.
      match goal with |- context [run _ _ _ _ _ _ ?s1] =>
        destruct (IH s1) as (s' & Hrun & Hterm & Hsaved);
          [reflexivity | reflexivity | reflexivity | cbn; lia |] end.
      exists s'. split; [exact Hrun | split; [exact Hterm |]].
      rewrite Hsaved. cbn. rewrite <- app_assoc. reflexivity.
Qed.

(** Every schedule makes the calls that the in-order run [Imagor.save]
    makes, up to their order. *)
Lemma save_calls_any_schedule (app : Imagor) (ctx : Context) (origin : option nat)
    (key : string) (file : option File) (storages : list Storage)
    (sched : list action) (s : state) (st : St) :
  run app (calls st) origin key file sched (init storages) = Some s ->
  terminal s = true ->
  (calls st ++ saved s)%list ≡ₚ calls (snd (save app ctx origin storages key file st)).
Proof.
  intros Hrun Hterm.
  destruct (terminal_saved _ _ _ _ _ _ _ _ Hrun Hterm) as (_ & _ & Hperm).
  destruct (SaveProps.save_run app ctx origin storages key file st)
    as (st' & Hsave & Hcalls & _).
  rewrite Hsave. cbn [snd]. rewrite Hcalls, Hperm. reflexivity.
Qed.

(** C9. In every run of [save] under every schedule of its goroutines, a
    state in which the function has left [wg.Wait()] has no goroutine left
    that has still to write or to finish, so [save] ends only after all
    writes; the [Save] calls made are, in some order, one call with the key
    and the blob per entry of [storages] that is not the origin; an object
    that is the origin gets no call, any other object one call per entry it
    has in the list (one call when it is listed once); and how [save] ends
    does not depend on what the storages answered. *)
Theorem fanout_writes_all (app : Imagor) (h0 : list event) (origin : option nat)
    (key : string) (file : option File) (storages : list Storage)
    (sched : list action) (s : state) :
  run app h0 origin key file sched (init storages) = Some s ->
  terminal s = true ->
  started s = [] /\ finishing s = [] /\
  saved s ≡ₚ map (saveEvent key file) (targets origin storages) /\
  (forall storage, In storage storages ->
     savesTo (storage_id storage) (saved s) =
       if sameObject storage origin then 0%nat
       else entries (storage_id storage) storages) /\
  at_pc s = if SaveTimeout app >? 0 then Return else Panic.
Proof.
  intros Hrun Hterm.
  destruct (terminal_saved _ _ _ _ _ _ _ _ Hrun Hterm) as (Hst & Hfi & Hperm).
  split; [exact Hst | split; [exact Hfi | split; [exact Hperm | split]]].
  - intros storage _.
    rewrite (savesTo_Permutation _ _ _ Hperm), savesTo_map.
    apply entries_targets.
  - eapply exit_run; [| exact Hrun | exact Hterm]. cbn. discriminate.
Qed.

(** A run of the fan-out on the two stores and the result store, with
    origin [S3], in which the goroutines overlap. *)
Lemma fanout_writes_all_witness :
  let app := Scenario.newApp [] [] [] [] [] in
  let storages := [Scenario.S3; Scenario.FS; Scenario.ResultStore] in
  let sched := [Iterate; Iterate; Iterate; CallSave 1; Iterate; CallSave 0;
                Done 0; Done 0; Wait] in
  exists s,
    run app [] (Some 1%nat) "foo.jpg" (Some Scenario.blob) sched (init storages) = Some s /\
    terminal s = true /\
    saved s = [EvSave 7 "foo.jpg" (Some Scenario.blob);
               EvSave 2 "foo.jpg" (Some Scenario.blob)] /\
    savesTo 1 (saved s) = 0%nat /\ savesTo 2 (saved s) = 1%nat /\
    at_pc s = Return.
Proof.
  intros app storages sched.
  destruct (run app [] (Some 1%nat) "foo.jpg" (Some Scenario.blob) sched (init storages))
    as [s |] eqn:Hrun; [| vm_compute in Hrun; discriminate Hrun].
  assert (Hterm : terminal s = true)
    by (vm_compute in Hrun; injection Hrun as <-; reflexivity).
  destruct (fanout_writes_all app [] (Some 1%nat) "foo.jpg" (Some Scenario.blob)
              storages sched s Hrun Hterm) as (_ & _ & _ & Hcount & Hpc).
  exists s. split; [reflexivity | split; [exact Hterm | split]].
  - vm_compute in Hrun. injection Hrun as <-. reflexivity.
  - split; [exact (Hcount Scenario.S3 (or_introl eq_refl)) | split].
    + exact (Hcount Scenario.FS (or_intror (or_introl eq_refl))).
    + exact Hpc.
Defined.

End FanoutProps.

(** ** Loader chain *)

Module LoadProps.
Import Imagor.
Import SaveProps.

Section Chain.
Variables (W : World) (app : Imagor) (key : string).

(** One iteration of the loop on a loader that answers with an error. *)
Lemma loadLoop_error (loader : Loader) (rest : list Loader)
    (file : option File) (origin : option nat) (err : option error) (st : St)
    (f : option File) (e : error) :
  Load loader (calls st) key = (f, Some e) ->
  exists st1,
    calls st1 = (calls st ++ [loadEvent key loader])%list /\
    flights st1 = flights st /\
    loadLoop W app key (loader :: rest) file origin err st =
      loadLoop W app key rest (if negb (IsFileEmpty f) then f else file) origin
        (Some e) st1.
Proof.
  intros HL. cbn [loadLoop]. rewrite bind_run. cbn. rewrite bind_run. cbn.
  rewrite HL. rewrite bind_run.
  match goal with |- context [when ?b (log ?l ?m) ?s] =>
    destruct (when_calls b l m s) as (st1 & -> & Hc & Hf) end.
  exists st1. cbn in Hc, Hf. auto.
Qed.

(** One iteration of the loop on a loader that answers without error: the
    loop ends. *)
Lemma loadLoop_success (loader : Loader) (rest : list Loader)
    (file : option File) (origin : option nat) (err : option error) (st : St)
    (f : option File) :
  Load loader (calls st) key = (f, None) ->
  exists st1,
    calls st1 = (calls st ++ [loadEvent key loader])%list /\
    flights st1 = flights st /\
    loadLoop W app key (loader :: rest) file origin err st =
      (Returned (if negb (IsFileEmpty f) then f else file,
                 if loader_store loader then Some (loader_id loader) else None,
                 None), st1).
Proof.
  intros HL. cbn [loadLoop]. rewrite bind_run. cbn. rewrite bind_run. cbn.
  rewrite HL.
  exists {| calls := (calls st ++ [loadEvent key loader])%list; logs := logs st;
            flights := flights st |}.
  split; [| split]; reflexivity.
Qed.

(** The loop on a list in which the loaders of a prefix answer with errors
    and the next one answers without. *)
Lemma loadLoop_first_success (pre : list Loader) (l : Loader) (post : list Loader)
    (f : option File) :
  forall (st : St) (file : option File) (origin : option nat) (err : option error),
    (forall i l', pre !! i = Some l' ->
       exists e, snd (Load l' (calls st ++ map (loadEvent key) (take i pre)) key)
                 = Some e) ->
    Load l (calls st ++ map (loadEvent key) pre) key = (f, None) ->
    exists file' st',
      loadLoop W app key (pre ++ l :: post) file origin err st =
        (Returned (file', if loader_store l then Some (loader_id l) else None, None),
         st') /\
      calls st' = (calls st ++ map (loadEvent key) (pre ++ [l]))%list /\
      flights st' = flights st /\
      (IsFileEmpty f = false -> file' = f).
Proof.
  induction pre as [| x pre IH]; intros st file origin err Hpre Hl.
  - cbn in Hl. rewrite app_nil_r in Hl. cbn [List.app].
    destruct (loadLoop_success l post file origin err st f Hl) as (st1 & Hc & Hf & ->).
    eexists _, st1. split; [reflexivity | split; [exact Hc | split; [exact Hf |]]].
    intros ->. reflexivity.
  - destruct (Hpre 0%nat x eq_refl) as (e & He). cbn in He. rewrite app_nil_r in He.
    destruct (Load x (calls st) key) as (fx, ex) eqn:HLx. cbn in He. subst ex.
    cbn [List.app].
    destruct (loadLoop_error x (pre ++ l :: post) file origin err st fx e HLx)
      as (st1 & Hc & Hf & ->).
    destruct (IH st1 (if negb (IsFileEmpty fx) then fx else file) origin (Some e))
      as (file' & st' & Hrun & Hc' & Hf' & Hfile).
    + intros i l' Hi. rewrite Hc, <- app_assoc. exact (Hpre (S i) l' Hi).
    + rewrite Hc, <- app_assoc. exact Hl.
    + exists file', st'. split; [exact Hrun | split; [| split; [congruence | exact Hfile]]].
      rewrite Hc', Hc, <- app_assoc. reflexivity.
Qed.

End Chain.

(** C7 (as the code has it). The loaders are tried in order, and the first
    loader that answers without error ends the iteration: the loaders
    before it, which answered with errors, and it are the ones called, in
    that order, and none after it; [load] returns without error, with that
    loader as the origin when it is also a storage, and with its blob when
    the blob is not empty. *)
Theorem load_first_without_error (W : World) (app : Imagor) (r : Context)
    (key : string) (pre : list Loader) (l : Loader) (post : list Loader)
    (f : option File) (st : St) :
  (forall i l', pre !! i = Some l' ->
     exists e, snd (Load l' (calls st ++ map (loadEvent key) (take i pre)) key)
               = Some e) ->
  Load l (calls st ++ map (loadEvent key) pre) key = (f, None) ->
  exists file st',
    load W app r (pre ++ l :: post) key st =
      (Returned (file, if loader_store l then Some (loader_id l) else None, None),
       st') /\
    calls st' = (calls st ++ map (loadEvent key) (pre ++ [l]))%list /\
    (IsFileEmpty f = false -> file = f).
Proof.
  intros Hpre Hl. unfold load. rewrite bind_run.
  destruct (loadLoop_first_success W app key pre l post f st None None None Hpre Hl)
    as (file & st1 & -> & Hc & _ & Hfile).
  rewrite bind_run.
  destruct (when_calls (Debug app) LDebug "loaded" st1) as (st' & -> & Hc' & _).
  exists file, st'. cbn. split; [reflexivity | split; [congruence | exact Hfile]].
Qed.

(** The chain of a passing loader, a loader that has not the image, and
    the two stores: [S3] is the first to answer without error. *)
Lemma load_first_without_error_witness :
  exists st',
    load Scenario.world (Scenario.newApp [] [] [] [] []) Scenario.ctx0
      [Scenario.PassLoader; Scenario.GoneLoader; Scenario.S3Loader; Scenario.FSLoader]
      "foo.jpg" Scenario.st0 =
      (Returned (Some Scenario.blob, Some 1%nat, None), st') /\
    calls st' = [EvLoad 4 "foo.jpg"; EvLoad 5 "foo.jpg"; EvLoad 1 "foo.jpg"].
Proof.
  destruct (load_first_without_error Scenario.world (Scenario.newApp [] [] [] [] [])
              Scenario.ctx0 "foo.jpg" [Scenario.PassLoader; Scenario.GoneLoader]
              Scenario.S3Loader [Scenario.FSLoader] (Some Scenario.blob) Scenario.st0)
    as (file & st' & Hrun & Hcalls & Hfile).
  - intros i l' Hi. destruct i as [| [| i]]; cbn in Hi; try discriminate Hi;
      injection Hi as <-; eexists; reflexivity.
  - reflexivity.
  - exists st'. rewrite (Hfile eq_refl) in Hrun. split; [exact Hrun | exact Hcalls].
Defined.

(** C7 as the spec words it fails when a loader answers with an empty blob
    and no error before a loader that has the image: the first loader that
    returns a non-empty blob with no error is [S3], yet the iteration ends
    at the loader before it, [S3] is never called, and [load] returns no
    blob and no origin. *)
Lemma load_empty_without_error_counterexample :
  let loaders := [Scenario.EmptyLoader; Scenario.S3Loader] in
  let app := Scenario.newApp loaders [] [] [] [] in
  Load Scenario.EmptyLoader [] "foo.jpg" = (None, None) /\
  IsFileEmpty None = true /\
  Load Scenario.S3Loader [EvLoad 3 "foo.jpg"] "foo.jpg" = (Some Scenario.blob, None) /\
  IsFileEmpty (Some Scenario.blob) = false /\
  exists st',
    load Scenario.world app Scenario.ctx0 loaders "foo.jpg" Scenario.st0 =
      (Returned (None, None, None), st') /\
    calls st' = [EvLoad 3 "foo.jpg"].
Proof.
  intros loaders app. do 4 (split; [reflexivity |]).
  eexists. split; reflexivity.
Qed.

End LoadProps.

(** ** [Pass] at the HTTP boundary *)

Module PassProps.
Import Imagor.
Import SaveProps.

Lemma errorsIs_Pass_Canceled (c : Z) : errorsIs (EImagor (ErrPass c)) ECanceled = false.
Proof. reflexivity. Qed.

Lemma isErr_true (err : error) (e : Error) : isErr err e = true <-> err = EImagor e.
Proof. unfold isErr. destruct (decide (err = EImagor e)); split; congruence. Qed.

(** The result of [load] in terms of the result of its loop. *)
Lemma load_of_loop (W : World) (app : Imagor) (r : Context) (loaders : list Loader)
    (key : string) (st st1 : St) (f : option File) (o : option nat)
    (err : option error) :
  loadLoop W app key loaders None None None st = (Returned (f, o, err), st1) ->
  exists st',
    calls st' = calls st1 /\ flights st' = flights st1 /\
    load W app r loaders key st =
      (Returned (f, o,
         match err with
         | None => None
         | Some e =>
             if negb (errorsIs e ECanceled)
             then Some (if isErr e (ErrPass (passCode W))
                        then EImagor ErrNotFound else e)
             else Some e
         end), st').
Proof.
  intros Hloop. unfold load. rewrite bind_run, Hloop.
  destruct err as [e |].
  - destruct (errorsIs e ECanceled); cbn [negb].
    + exists st1. auto.
    + rewrite bind_run. cbn. eexists. split; [| split]; [| | reflexivity]; reflexivity.
  - rewrite bind_run.
    destruct (when_calls (Debug app) LDebug "loaded" st1) as (st' & -> & Hc & Hf).
    exists st'. auto.
Qed.

(** [load] returns, panics or blocks as its loop does. *)
Lemma load_inv (W : World) (app : Imagor) (r : Context) (loaders : list Loader)
    (key : string) (st st' : St) (f : option File) (o : option nat)
    (e : option error) :
  load W app r loaders key st = (Returned (f, o, e), st') ->
  exists err st1,
    loadLoop W app key loaders None None None st = (Returned (f, o, err), st1) /\
    e = match err with
        | None => None
        | Some e =>
            if negb (errorsIs e ECanceled)
            then Some (if isErr e (ErrPass (passCode W))
                       then EImagor ErrNotFound else e)
            else Some e
        end.
Proof.
  intros Hload.
  destruct (loadLoop W app key loaders None None None st) as ([[[f' o'] err] | |], st1)
    eqn:Hloop.
  - destruct (load_of_loop W app r loaders key st st1 f' o' err Hloop)
      as (st2 & _ & _ & Hrun).
    rewrite Hrun in Hload. injection Hload as <- <- <- <-.
    exists err, st1. auto.
  - unfold load in Hload. rewrite bind_run, Hloop in Hload. discriminate.
  - unfold load in Hload. rewrite bind_run, Hloop in Hload. discriminate.
Qed.

(** The response to an error that [WrapError] turns into the [Error] [e],
    when no [Meta] is asked for. *)
Lemma respond_error (W : World) (app : Imagor) (p : imagorpath.Params)
    (file : option File) (err : error) (e : Error) (w : ResponseWriter) :
  WrapError W err = Some e -> wroteHeader w = None -> metaReply p file = None ->
  status (respond W app p file (Some err) w) = Some (Code (shown W e)) /\
  (readBuf file = [] ->
   body (respond W app p file (Some err) w) =
     (body w ++ Marshal W (JError (shown W e)))%list) /\
  (readBuf file <> [] ->
   body (respond W app p file (Some err) w) = (body w ++ readBuf file)%list).
Proof.
  intros Hwrap Hw Hmeta. unfold respond.
  set (first := match file with Some f => _ | None => _ end).
  assert (Hfirst : exists w1, first = inr w1 /\ wroteHeader w1 = None /\ body w1 = body w).
  { unfold first, metaReply in *. destruct file as [f |]; [| eauto].
    destruct (negb (IsFileEmpty (Some f))); [| eauto].
    destruct (FileMeta f) as [m |].
    - destruct (imagorpath.Meta p); [discriminate | eauto].
    - destruct (Z.of_nat (length (readBuf (Some f))) >? 0); eauto. }
  destruct Hfirst as (w1 & -> & Hw1 & Hb1). rewrite Hwrap.
  destruct (readBuf file) as [| b bs] eqn:Hbuf.
  - cbn [length Z.of_nat Z.gtb Z.compare].
    unfold resJSON, status, Write, WriteHeader, HeaderSet. cbn. rewrite Hw1. cbn.
    rewrite Hb1. split; [reflexivity | split; [reflexivity | congruence]].
  - assert ((Z.of_nat (length (b :: bs)) >? 0) = true) as ->
      by (apply Z.gtb_lt; cbn [length]; lia).
    unfold status, Write, WriteHeader, HeaderSet. cbn. rewrite Hw1. cbn.
    rewrite Hb1. split; [reflexivity | split; [discriminate | reflexivity]].
Qed.

(** C8. [Pass] does not appear at the HTTP boundary. [load] never returns
    [ErrPass]: when its loop ends with [ErrPass] as the last error it
    returns [ErrNotFound]. And when an error that is [ErrPass] reaches
    [ServeHTTP], the response is written for [ErrNotFound]: its status is
    404 and, when it has no image body, its body is the JSON of
    [ErrNotFound]; for every error the [Error] the response is written for
    is not [ErrPass]; and the one response that is not written for the
    error, the [Meta] of a file asked for as JSON, shows no error at all. *)
Theorem pass_never_at_http_boundary (W : World) (app : Imagor) :
  (forall r loaders key st f o e st',
     load W app r loaders key st = (Returned (f, o, Some e), st') ->
     e <> EImagor (ErrPass (passCode W))) /\
  (forall r loaders key st f o st1,
     loadLoop W app key loaders None None None st =
       (Returned (f, o, Some (EImagor (ErrPass (passCode W)))), st1) ->
     exists st',
       load W app r loaders key st = (Returned (f, o, Some (EImagor ErrNotFound)), st') /\
       calls st' = calls st1) /\
  (forall p file err e w,
     WrapError W err = Some e -> wroteHeader w = None -> metaReply p file = None ->
     let w' := respond W app p file (Some err) w in
     shown W e <> ErrPass (passCode W) /\
     status w' = Some (Code (shown W e)) /\
     (readBuf file = [] -> body w' = (body w ++ Marshal W (JError (shown W e)))%list) /\
     (readBuf file <> [] -> body w' = (body w ++ readBuf file)%list)) /\
  (forall p file err m w,
     metaReply p file = Some m ->
     respond W app p file err w = resJSON W (JMeta m) w) /\
  shown W (ErrPass (passCode W)) = ErrNotFound /\
  Code ErrNotFound = 404.
Proof.
  split; [| split; [| split; [| split; [| split]]]].
  - intros r loaders key st f o e st' Hload.
    destruct (load_inv W app r loaders key st st' f o (Some e) Hload)
      as (err & st1 & _ & He).
    destruct err as [e0 |]; [| discriminate].
    destruct (errorsIs e0 ECanceled) eqn:Hc; cbn [negb] in He.
    + injection He as ->. intros ->. rewrite errorsIs_Pass_Canceled in Hc. discriminate.
    + destruct (isErr e0 (ErrPass (passCode W))) eqn:Hp; injection He as ->.
      * discriminate.
      * intros Heq. apply isErr_true in Heq. congruence.
  - intros r loaders key st f o st1 Hloop.
    destruct (load_of_loop W app r loaders key st st1 f o _ Hloop)
      as (st' & Hc & _ & Hrun).
    exists st'. split; [| exact Hc]. rewrite Hrun.
    rewrite errorsIs_Pass_Canceled. cbn [negb].
    assert (isErr (EImagor (ErrPass (passCode W))) (ErrPass (passCode W)) = true) as ->
      by (apply isErr_true; reflexivity).
    reflexivity.
  - intros p file err e w Hwrap Hw Hmeta w'.
    split; [| exact (respond_error W app p file err e w Hwrap Hw Hmeta)].
    unfold shown. destruct (decide (e = ErrPass (passCode W))); [discriminate | assumption].
  - intros p file err m w. unfold metaReply, respond.
    destruct file as [f |]; [| discriminate].
    destruct (negb (IsFileEmpty (Some f))); [| discriminate].
    destruct (FileMeta f) as [m' |]; [| discriminate].
    destruct (imagorpath.Meta p); [| discriminate].
    intros [= ->]. reflexivity.
  - unfold shown. destruct (decide (ErrPass (passCode W) = ErrPass (passCode W)));
      [reflexivity | contradiction].
  - reflexivity.
Qed.

End PassProps.

(** ** Request orchestrator *)

Module DoProps.
Import Imagor Observe.
Import SaveProps.

Section Quiet.
Variables (W : World) (app : Imagor).

Lemma resultSaves_app (l1 l2 : list event) :
  resultSaves app (l1 ++ l2) = (resultSaves app l1 ++ resultSaves app l2)%list.
Proof. apply List.filter_app. Qed.

Lemma quiet_ret {A} (a : A) : quiet app (mret a : M A).
Proof. intros st. exists []. cbn. rewrite app_nil_r. auto. Qed.

Lemma quiet_still {A} (m : M A) :
  (forall st, calls (snd (m st)) = calls st) -> quiet app m.
Proof. intros H st. exists []. rewrite H, app_nil_r. auto. Qed.

Lemma quiet_bind {A B} (m : M A) (f : A -> M B) :
  quiet app m -> (forall a, quiet app (f a)) -> quiet app (m ≫= f).
Proof.
  intros Hm Hf st. rewrite bind_run.
  destruct (Hm st) as (l1 & Hc1 & Hq1).
  destruct (m st) as ([a | |], st1); cbn [snd] in *; try solve [exists l1; auto].
  destruct (Hf a st1) as (l2 & Hc2 & Hq2).
  exists (l1 ++ l2)%list. rewrite Hc2, Hc1, <- app_assoc, resultSaves_app, Hq1, Hq2. auto.
Qed.

Lemma quiet_when_log (b : bool) (l : level) (msg : string) :
  quiet app (when b (log l msg)).
Proof. apply quiet_still. intros st. destruct b; reflexivity. Qed.

Lemma quiet_emit (e : event) : isResultSave app e = false -> quiet app (emit e).
Proof. intros He st. exists [e]. cbn. rewrite He. auto. Qed.

(** A fan-out on storages that are not result storages is quiet. *)
Lemma quiet_save (ctx : Context) (origin : option nat) (storages : list Storage)
    (key : string) (file : option File) :
  (forall s, In s storages -> isResultSave app (Fanout.saveEvent key file s) = false) ->
  quiet app (save app ctx origin storages key file).
Proof.
  intros Hs st.
  destruct (save_run app ctx origin storages key file st) as (st' & -> & Hc & _).
  cbn [snd]. eexists. split; [exact Hc |].
  unfold Fanout.targets. clear Hc. induction storages as [| s rest IH]; [reflexivity |].
  cbn [List.filter]. destruct (sameObject s origin); cbn [negb map].
  - apply IH. intros s' Hin. apply Hs. right. exact Hin.
  - unfold resultSaves. cbn [List.filter]. rewrite (Hs s (or_introl eq_refl)).
    apply IH. intros s' Hin. apply Hs. right. exact Hin.
Qed.

Lemma separate_storages (key : string) (file : option File) :
  separate app ->
  forall s, In s (Storages app) -> isResultSave app (Fanout.saveEvent key file s) = false.
Proof.
  intros Hsep s Hin. cbn. apply not_true_is_false. intros Hex.
  apply existsb_exists in Hex. destruct Hex as (s' & Hin' & Heq).
  apply Nat.eqb_eq in Heq. exact (Hsep s' s Hin' Hin Heq).
Qed.

Lemma quiet_loadLoop (key : string) (loaders : list Loader) :
  forall file origin err, quiet app (loadLoop W app key loaders file origin err).
Proof.
  induction loaders as [| loader rest IH]; intros file origin err; cbn [loadLoop].
  - apply quiet_ret.
  - apply quiet_bind; [apply quiet_still; reflexivity | intros h].
    apply quiet_bind; [apply quiet_emit; reflexivity | intros _].
    destruct (Load loader h key) as (f, [e |]).
    + apply quiet_bind; [apply quiet_when_log | intros _; apply IH].
    + apply quiet_ret.
Qed.

Lemma quiet_load (r : Context) (loaders : list Loader) (key : string) :
  quiet app (load W app r loaders key).
Proof.
  unfold load. apply quiet_bind; [apply quiet_loadLoop | intros [[file origin] [e |]]].
  - destruct (negb (errorsIs e ECanceled)); [| apply quiet_ret].
    apply quiet_bind; [apply quiet_still; reflexivity | intros _; apply quiet_ret].
  - apply quiet_bind; [apply quiet_when_log | intros _; apply quiet_ret].
Qed.

Lemma quiet_acquire (ctx : Context) (key : string)
    (fn : Context -> M (option File * option error)) :
  (forall ctx', quiet app (fn ctx')) -> quiet app (acquire W app ctx key fn).
Proof.
  intros Hfn. unfold acquire.
  apply quiet_bind; [apply quiet_when_log | intros _].
  destruct (decide (key ∈ acquired ctx)); [apply Hfn |].
  apply quiet_bind; [apply quiet_still; reflexivity | intros g].
  destruct (decide (key ∈ g)).
  - apply quiet_bind; [apply quiet_still; reflexivity | intros h].
    destruct (ctxDone W h key); [apply quiet_ret | apply quiet_still; reflexivity].
  - apply quiet_bind; [apply quiet_still; reflexivity | intros _].
    apply quiet_bind; [apply Hfn | intros res].
    apply quiet_bind; [apply quiet_still; reflexivity | intros g'].
    apply quiet_bind; [apply quiet_still; reflexivity | intros _].
    apply quiet_bind; [apply quiet_still; reflexivity | intros h].
    destruct (ctxDone W h key); apply quiet_ret.
Qed.

Hypothesis Hsep : separate app.

Lemma quiet_loadStore (r : Context) (key : string) :
  quiet app (loadStore W app r key).
Proof.
  unfold loadStore. apply quiet_acquire. intros ctx.
  apply quiet_bind; [apply quiet_load | intros [[file origin] err]].
  destruct (IsFileEmpty file); [apply quiet_ret |].
  apply quiet_bind; [| intros _; apply quiet_ret].
  unfold when. destruct (0 <? Z.of_nat (length (Storages app))); [| apply quiet_ret].
  apply quiet_save. apply separate_storages. exact Hsep.
Qed.

Lemma quiet_loadResult (r : Context) (key : string) :
  quiet app (loadResult W app r key).
Proof.
  unfold loadResult. destruct (Nat.eqb (length (ResultLoaders app)) 0); [apply quiet_ret |].
  apply quiet_bind; [apply quiet_load | intros [[file origin] err]; apply quiet_ret].
Qed.

Lemma quiet_runProcess (r : Context) (run : ProcRun) :
  quiet app (runProcess (loadStore W app r) run).
Proof.
  induction run as [f e | image k IH]; cbn [runProcess].
  - apply quiet_ret.
  - apply quiet_bind; [apply quiet_loadStore | intros res; apply IH].
Qed.

Lemma quiet_callProcess (r : Context) (processor : Processor)
    (file : option File) (p : imagorpath.Params) :
  quiet app (callProcess W app r processor file p).
Proof.
  unfold callProcess.
  apply quiet_bind; [apply quiet_still; reflexivity | intros h].
  apply quiet_bind; [apply quiet_emit; reflexivity | intros _].
  apply quiet_runProcess.
Qed.

Lemma quiet_processLoop (r : Context) (p : imagorpath.Params)
    (processors : list Processor) :
  forall file err, quiet app (processLoop W app r p processors file err).
Proof.
  induction processors as [| processor rest IH]; intros file err; cbn [processLoop].
  - apply quiet_ret.
  - apply quiet_bind; [apply quiet_callProcess | intros [f [e |]]].
    + destruct (isErr e (ErrPass (passCode W))).
      * apply quiet_bind; [apply quiet_when_log | intros _; apply IH].
      * apply quiet_bind; [apply quiet_still; reflexivity | intros _].
        destruct (errorsIs e EDeadlineExceeded); [apply quiet_ret | apply IH].
    + apply quiet_bind; [| intros _; apply quiet_ret].
      unfold when. destruct (Debug app); [| apply quiet_ret].
      destruct f; apply quiet_still; reflexivity.
Qed.

End Quiet.
Section Orchestrator.
Variables (W : World) (app : Imagor).

Lemma calls_fnState (ctx : Context) (key : string) (st : St) :
  calls (fnState app ctx key st) = calls st.
Proof.
  unfold fnState, when. destruct (Debug app), (decide (key ∈ acquired ctx)); reflexivity.
Qed.

(** The calls of [acquire] are those of the function it runs, if it runs
    it. *)
Lemma acquire_calls (ctx : Context) (key : string)
    (fn : Context -> M (option File * option error)) (st : St) :
  calls (snd (acquire W app ctx key fn st)) =
    if runsFn ctx key st
    then calls (snd (fn (fnContext ctx key) (fnState app ctx key st)))
    else calls st.
Proof.
  unfold acquire, runsFn, fnContext, fnState. rewrite bind_run.
  destruct (when_calls (Debug app) LDebug "acquire" st) as (st1 & Hw & Hc & Hf).
  rewrite Hw. cbn [snd].
  destruct (decide (key ∈ acquired ctx)); [reflexivity |].
  cbn [orb]. rewrite bind_run. cbn. rewrite Hf.
  destruct (decide (key ∈ flights st)).
  - rewrite bind_run. cbn. destruct (ctxDone W (calls st1) key); cbn; exact Hc.
  - rewrite bind_run. cbn. rewrite bind_run.
    match goal with |- context [fn ?c ?s] => destruct (fn c s) as ([res | |], st2) end;
      try reflexivity.
    rewrite bind_run. cbn. rewrite bind_run. cbn. rewrite bind_run. cbn.
    destruct (ctxDone W (calls st2) key); reflexivity.
Qed.

(** [acquire] returns what the function returns when it runs it and the
    wait is not ended by the context. *)
Lemma acquire_returns (ctx : Context) (key : string)
    (fn : Context -> M (option File * option error)) (st st2 : St)
    (res : option File * option error) :
  runsFn ctx key st = true ->
  fn (fnContext ctx key) (fnState app ctx key st) = (Returned res, st2) ->
  (forall h, ctxDone W h key = None) ->
  exists st', acquire W app ctx key fn st = (Returned res, st') /\
              calls st' = calls st2.
Proof.
  unfold acquire, runsFn, fnContext, fnState. intros Hruns Hfn Hdone.
  rewrite bind_run.
  destruct (when_calls (Debug app) LDebug "acquire" st) as (st1 & Hw & Hc & Hf).
  rewrite Hw in *. cbn [snd] in *.
  destruct (decide (key ∈ acquired ctx)); [rewrite Hfn; eauto |].
  rewrite bind_run. cbn. rewrite Hf.
  destruct (decide (key ∈ flights st)); [discriminate |].
  rewrite bind_run. cbn. rewrite bind_run. rewrite Hf in Hfn. rewrite Hfn.
  rewrite bind_run. cbn. rewrite bind_run. cbn. rewrite bind_run. cbn.
  rewrite Hdone. cbn. eauto.
Qed.

(** The fan-out on the result storages makes one call per result storage,
    and all of them are calls on result storages. *)
Lemma resultSaves_fanout (key : string) (file : option File) (l : list Storage) :
  (forall s, In s l -> In s (ResultStorages app)) ->
  resultSaves app (map (Fanout.saveEvent key file) (Fanout.targets None l)) =
    map (Fanout.saveEvent key file) l.
Proof.
  intros Hl. induction l as [| s rest IH]; [reflexivity |].
  unfold Fanout.targets. cbn [List.filter sameObject negb map].
  unfold resultSaves. cbn [List.filter].
  assert (isResultSave app (Fanout.saveEvent key file s) = true) as ->.
  { cbn. apply existsb_exists. exists s. split; [apply Hl; left; reflexivity |].
    apply Nat.eqb_refl. }
  f_equal. apply IH. intros s' Hin. apply Hl. right. exact Hin.
Qed.

Hypothesis Hsep : separate app.

(** The result saves of the function of [Do], by its way out. *)
Lemma doResult_resultSaves (r : Context) (p : imagorpath.Params) (ctx : Context)
    (st : St) :
  resultSaves app (calls (snd (doResult W app r p (resultKey p) ctx st))) =
    (resultSaves app (calls st) ++
     match doExit W app r p st with
     | ExitProcessed f None =>
         map (Fanout.saveEvent (resultKey p) f) (ResultStorages app)
     | _ => []
     end)%list.
Proof.
  unfold doResult, doExit. rewrite bind_run.
  destruct (quiet_loadResult W app r (resultKey p) st) as (l1 & Hc1 & Hq1).
  destruct (loadResult W app r (resultKey p) st) as ([[f1 e1] | |], st1);
    cbn [snd] in Hc1;
    try (cbn [snd]; rewrite Hc1, resultSaves_app, Hq1; rewrite ?app_nil_r; reflexivity).
  destruct ((if e1 is None then true else false) && negb (IsFileEmpty f1)).
  { cbn [snd mret M_ret]. rewrite Hc1, resultSaves_app, Hq1. rewrite ?app_nil_r. reflexivity. }
  rewrite bind_run.
  destruct (quiet_loadStore W app Hsep r (imagorpath.Image p) st1) as (l2 & Hc2 & Hq2).
  destruct (loadStore W app r (imagorpath.Image p) st1) as ([[f2 e2] | |], st2);
    cbn [snd] in Hc2;
    try (cbn [snd]; rewrite Hc2, Hc1, !resultSaves_app, Hq1, Hq2; rewrite ?app_nil_r; reflexivity).
  destruct e2 as [e2 |].
  { rewrite bind_run. unfold mret, M_ret; cbn -[resultSaves]. rewrite Hc2, Hc1, !resultSaves_app, Hq1, Hq2. rewrite ?app_nil_r. reflexivity. }
  destruct (IsFileEmpty f2).
  { cbn [snd mret M_ret]. rewrite Hc2, Hc1, !resultSaves_app, Hq1, Hq2. rewrite ?app_nil_r. reflexivity. }
  rewrite bind_run.
  destruct (quiet_processLoop W app Hsep r p (Processors app) f2 None st2)
    as (l3 & Hc3 & Hq3).
  destruct (processLoop W app r p (Processors app) f2 None st2) as ([[f3 e3] | |], st3);
    cbn [snd] in Hc3;
    try (cbn [snd]; rewrite Hc3, Hc2, Hc1, !resultSaves_app, Hq1, Hq2, Hq3; rewrite ?app_nil_r; reflexivity).
  rewrite bind_run. destruct e3 as [e3 |]; cbn [andb when].
  { unfold mret, M_ret; cbn -[resultSaves]. rewrite Hc3, Hc2, Hc1, !resultSaves_app, Hq1, Hq2, Hq3. rewrite ?app_nil_r. reflexivity. }
  destruct (ResultStorages app) as [| s rest] eqn:HRS.
  { change (0 <? Z.of_nat (length (@nil Storage))) with false.
    unfold when, mret, M_ret; cbn -[resultSaves]. rewrite Hc3, Hc2, Hc1, !resultSaves_app, Hq1, Hq2, Hq3. rewrite ?app_nil_r. reflexivity. }
  assert ((0 <? Z.of_nat (length (s :: rest))) = true) as ->
    by (apply Z.ltb_lt; cbn [length]; lia).
  unfold when.
  destruct (save_run app ctx None (s :: rest) (resultKey p) f3 st3)
    as (st4 & Hsave & Hc4 & _).
  rewrite Hsave.
  assert (HRSin : forall s', In s' (s :: rest) -> In s' (ResultStorages app))
    by (rewrite HRS; auto).
  destruct (SaveTimeout app >? 0); unfold mret, M_ret; cbn [snd];
    rewrite Hc4, Hc3, Hc2, Hc1, !resultSaves_app, Hq1, Hq2, Hq3,
      (resultSaves_fanout _ _ _ HRSin), ?app_nil_r; reflexivity.
Qed.

End Orchestrator.

(** The [Save] calls that a request handled by [Do] makes on the result
    storages, by the way out of its function. *)
Lemma Do_resultSaves (W : World) (app : Imagor) (r : Context)
    (p : imagorpath.Params) (st : St) :
  separate app ->
  resultSaves app (calls (snd (Do W app r p st))) =
    (resultSaves app (calls st) ++
     if signatureOk W app p && runsFn r ("res:" +:+ resultKey p) st
     then match doExit W app r p (fnState app r ("res:" +:+ resultKey p) st) with
          | ExitProcessed f None =>
              map (Fanout.saveEvent (resultKey p) f) (ResultStorages app)
          | _ => []
          end
     else [])%list.
Proof.
  intros Hsep. unfold Do, signatureOk.
  rewrite <- negb_orb.
  destruct ((Unsafe app && imagorpath.Unsafe p) ||
            String.eqb (Sign W (imagorpath.Path p) (Secret app)) (imagorpath.Hash p));
    cbn [negb andb].
  - fold (resultKey p). rewrite acquire_calls.
    destruct (runsFn r ("res:" +:+ resultKey p) st).
    + rewrite (doResult_resultSaves W app Hsep), calls_fnState. reflexivity.
    + rewrite app_nil_r. reflexivity.
  - rewrite bind_run.
    destruct (when_calls (Debug app) LDebug "sign-mismatch" st) as (st1 & -> & Hc & _).
    cbn. rewrite Hc, app_nil_r. reflexivity.
Qed.

(** The way out of the function when the loop is reached. *)
Lemma doExit_loop (W : World) (app : Imagor) (r : Context)
    (p : imagorpath.Params) (st st2 : St) (file : option File) :
  loopEntry W app r p st = Some (file, st2) ->
  doExit W app r p st =
    match processLoop W app r p (Processors app) file None st2 with
    | (Returned (f', e'), _) => ExitProcessed f' e'
    | _ => ExitAborted
    end.
Proof.
  unfold loopEntry, doExit.
  destruct (loadResult W app r (resultKey p) st) as ([[f1 e1] | |], st1);
    try discriminate.
  destruct ((if e1 is None then true else false) && negb (IsFileEmpty f1));
    [discriminate |].
  destruct (loadStore W app r (imagorpath.Image p) st1) as ([[f2 [e2 |]] | |], st3);
    try discriminate.
  destruct (IsFileEmpty f2); [discriminate |].
  intros [= <- <-]. reflexivity.
Qed.

(** Processors that all pass leave the error pending as it was. *)
Lemma processLoop_everyPass (W : World) (app : Imagor) (r : Context)
    (p : imagorpath.Params) (processors : list Processor) :
  forall file err st file' st',
    everyPass W app r p processors file st = Some (file', st') ->
    processLoop W app r p processors file err st = (Returned (file', err), st').
Proof.
  induction processors as [| processor rest IH]; intros file err st file' st';
    cbn [everyPass processLoop].
  - intros [= <- <-]. reflexivity.
  - rewrite bind_run.
    destruct (callProcess W app r processor file p st) as ([[f [e |]] | |], st1);
      try discriminate.
    destruct (isErr e (ErrPass (passCode W))); [| discriminate].
    intros Hrest. rewrite bind_run.
    destruct (when_calls (Debug app) LDebug "process" st1) as (st2 & Hwhen & _).
    rewrite Hwhen in *. cbn [snd] in Hrest. apply IH. exact Hrest.
Qed.

(** The loop past the processors after which it goes on. *)
Lemma processLoop_goesOn (W : World) (app : Imagor) (r : Context)
    (p : imagorpath.Params) (pre rest : list Processor) :
  forall file err st file1 err1 st1,
    goesOn W app r p pre file err st = Some (file1, err1, st1) ->
    processLoop W app r p (pre ++ rest) file err st =
      processLoop W app r p rest file1 err1 st1.
Proof.
  induction pre as [| processor pre IH]; intros file err st file1 err1 st1;
    cbn [goesOn processLoop List.app].
  - intros [= <- <- <-]. reflexivity.
  - rewrite bind_run.
    destruct (callProcess W app r processor file p st) as ([[f [e |]] | |], st2);
      try discriminate.
    destruct (isErr e (ErrPass (passCode W))).
    + intros Hrest. rewrite bind_run.
      destruct (when_calls (Debug app) LDebug "process" st2) as (st3 & Hwhen & _).
      rewrite Hwhen in *. cbn [snd] in Hrest. apply IH. exact Hrest.
    + destruct (errorsIs e EDeadlineExceeded); [discriminate |].
      intros Hrest. rewrite bind_run. cbn [log snd] in *. apply IH. exact Hrest.
Qed.

(** A processor that succeeds ends the loop with its blob and no error,
    whatever error was pending. *)
Lemma processLoop_success (W : World) (app : Imagor) (r : Context)
    (p : imagorpath.Params) (processor : Processor) (rest : list Processor)
    (file f : option File) (err : option error) (st st1 : St) :
  callProcess W app r processor file p st = (Returned (f, None), st1) ->
  Debug app = false \/ f <> None ->
  exists st',
    processLoop W app r p (processor :: rest) file err st = (Returned (f, None), st').
Proof.
  intros Hcall Hlog. cbn [processLoop]. rewrite bind_run, Hcall, bind_run.
  destruct (Debug app); cbn [when].
  - destruct f as [f |]; [cbn; eauto |].
    destruct Hlog as [Hd | Hf]; [discriminate | contradiction].
  - cbn. eauto.
Qed.

(** C1 (as the code has it). With no object both a result storage and a
    source storage, a request handled by [Do] makes [Save] calls on the
    result storages only when the processor loop is reached and ends with no
    error pending: on every other way out (the signature is refused, the
    result loaders had the derivative, the source load failed or gave an
    empty blob, the loop ended with an error) no result storage receives a
    [Save] call. When the loop ends with no error pending and a blob that
    is not empty, every result storage receives one [Save] call with the
    result key and that blob. And a loop that is reached ends with no error
    pending when no processor is configured, when every processor passed
    (with the blob as the passes left it), and when a processor succeeded
    after processors that let the loop go on, whatever error these left
    pending (with the blob of that processor; with [app.Debug] its blob has
    to be there for the log line). *)
Theorem result_storage_written (W : World) (app : Imagor) (r : Context)
    (p : imagorpath.Params) (st : St) :
  separate app ->
  let key := "res:" +:+ resultKey p in
  let exit := doExit W app r p (fnState app r key st) in
  let saves := resultSaves app (calls (snd (Do W app r p st))) in
  (signatureOk W app p && runsFn r key st = false \/
   (forall f, exit <> ExitProcessed f None) ->
   saves = resultSaves app (calls st)) /\
  (forall f,
     signatureOk W app p && runsFn r key st = true ->
     exit = ExitProcessed f None -> IsFileEmpty f = false ->
     saves = (resultSaves app (calls st) ++
              map (Fanout.saveEvent (resultKey p) f) (ResultStorages app))%list) /\
  (forall file st2,
     loopEntry W app r p (fnState app r key st) = Some (file, st2) ->
     (Processors app = [] -> exit = ExitProcessed file None) /\
     (forall file' st',
        everyPass W app r p (Processors app) file st2 = Some (file', st') ->
        exit = ExitProcessed file' None) /\
     (forall pre processor post file1 err1 st1 f st3,
        Processors app = (pre ++ processor :: post)%list ->
        goesOn W app r p pre file None st2 = Some (file1, err1, st1) ->
        callProcess W app r processor file1 p st1 = (Returned (f, None), st3) ->
        Debug app = false \/ f <> None ->
        exit = ExitProcessed f None)).
Proof.
  intros Hsep key exit saves. unfold saves, exit, key.
  rewrite (Do_resultSaves W app r p st Hsep). split; [| split].
  - intros [-> | Hexit]; [apply app_nil_r |].
    destruct (signatureOk W app p && runsFn r ("res:" +:+ resultKey p) st);
      [| apply app_nil_r].
    destruct (doExit W app r p (fnState app r ("res:" +:+ resultKey p) st))
      as [| | | f [e |] |]; try apply app_nil_r.
    destruct (Hexit f eq_refl).
  - intros f -> -> _. reflexivity.
  - intros file st2 Hentry. rewrite (doExit_loop W app r p _ st2 file Hentry).
    split; [| split].
    + intros ->. reflexivity.
    + intros file' st' Hpass.
      rewrite (processLoop_everyPass W app r p _ _ None _ _ _ Hpass). reflexivity.
    + intros pre processor post file1 err1 st1 f st3 -> Hpre Hcall Hlog.
      rewrite (processLoop_goesOn W app r p pre (processor :: post) _ _ _ _ _ _ Hpre).
      destruct (processLoop_success W app r p processor post file1 f err1 st1 st3
                  Hcall Hlog) as (st' & ->).
      reflexivity.
Qed.

(** A request that is loaded from [S3], written back to [FS] and
    thumbnailed by the second processor after the first one failed: the
    loop ends with no error pending, and the thumbnail goes to the result
    store. *)
Lemma result_storage_written_witness :
  let app := Scenario.newApp [Scenario.S3Loader] [Scenario.S3; Scenario.FS] []
               [Scenario.ResultStore] [Scenario.FailProcessor; Scenario.Thumbnailer] in
  let p := Parse Scenario.world "foo.jpg" in
  separate app /\
  doExit Scenario.world app Scenario.ctx0 p
    (fnState app Scenario.ctx0 ("res:" +:+ resultKey p) Scenario.st0) =
    ExitProcessed (Some Scenario.thumb) None /\
  resultSaves app (calls (snd (Do Scenario.world app Scenario.ctx0 p Scenario.st0))) =
    [EvSave 7 "foo.jpg" (Some Scenario.thumb)].
Proof.
  intros app p.
  assert (Hsep : separate app).
  { intros s s' [<- | []] [<- | [<- | []]]; cbn; discriminate. }
  split; [exact Hsep |].
  destruct (result_storage_written Scenario.world app Scenario.ctx0 p Scenario.st0 Hsep)
    as (_ & Hsaved & Hloop).
  cbv zeta in Hloop.
  destruct (loopEntry Scenario.world app Scenario.ctx0 p
              (fnState app Scenario.ctx0 ("res:" +:+ resultKey p) Scenario.st0))
    as [[file st2] |] eqn:Hentry; [| vm_compute in Hentry; discriminate Hentry].
  destruct (Hloop file st2 eq_refl) as (_ & _ & Hsuccess).
  destruct (goesOn Scenario.world app Scenario.ctx0 p [Scenario.FailProcessor]
              file None st2) as [[[file1 err1] st1] |] eqn:Hgo;
    [| vm_compute in Hentry; injection Hentry as <- <-;
       vm_compute in Hgo; discriminate Hgo].
  destruct (callProcess Scenario.world app Scenario.ctx0 Scenario.Thumbnailer file1 p st1)
    as (o, st3) eqn:Hcall.
  assert (Ho : o = Returned (Some Scenario.thumb, None)).
  { cbv [callProcess Scenario.Thumbnailer Process] in Hcall. cbn in Hcall.
    injection Hcall as <- _. reflexivity. }
  subst o.
  assert (Hexit : doExit Scenario.world app Scenario.ctx0 p
                    (fnState app Scenario.ctx0 ("res:" +:+ resultKey p) Scenario.st0) =
                  ExitProcessed (Some Scenario.thumb) None).
  { apply (Hsuccess [Scenario.FailProcessor] Scenario.Thumbnailer [] file1 err1 st1
             (Some Scenario.thumb) st3 eq_refl Hgo Hcall).
    right. discriminate. }
  split; [exact Hexit |].
  apply (Hsaved (Some Scenario.thumb)); [vm_compute; reflexivity | exact Hexit |
                                         reflexivity].
Defined.

(** C1 as the spec words it fails when no processor succeeds: with no
    processor configured, and with a single processor that passes, the
    result storage still receives a [Save] call, with the source blob. *)
Lemma result_storage_unprocessed_counterexample :
  let p := Parse Scenario.world "foo.jpg" in
  let bare := Scenario.newApp [Scenario.S3Loader] [] [] [Scenario.ResultStore] [] in
  let pass := Scenario.newApp [Scenario.S3Loader] [] [] [Scenario.ResultStore]
                [Scenario.PassProcessor] in
  (Processors bare = [] /\
   fst (Do Scenario.world bare Scenario.ctx0 p Scenario.st0) =
     Returned (Some Scenario.blob, None) /\
   calls (snd (Do Scenario.world bare Scenario.ctx0 p Scenario.st0)) =
     [EvLoad 1 "foo.jpg"; EvSave 7 "foo.jpg" (Some Scenario.blob)]) /\
  (Process Scenario.PassProcessor [EvLoad 1 "foo.jpg"] (Some Scenario.blob) p =
     ProcReturn None (Some (EImagor (ErrPass (passCode Scenario.world)))) /\
   fst (Do Scenario.world pass Scenario.ctx0 p Scenario.st0) =
     Returned (Some Scenario.blob, None) /\
   calls (snd (Do Scenario.world pass Scenario.ctx0 p Scenario.st0)) =
     [EvLoad 1 "foo.jpg"; EvProcess 11 (Some Scenario.blob) p;
      EvSave 7 "foo.jpg" (Some Scenario.blob)]).
Proof.
  intros p bare pass.
  split; (split; [reflexivity | split; vm_compute; reflexivity]).
Qed.

(** C4. [Do] goes past authentication exactly when unsafe mode is enabled
    and the request is unsafe, or the signature of the path is the hash of
    the request: then it is the single-flight call on the result key.
    Otherwise it returns [ErrSignatureMismatch], whose code is 403, and no
    loader, storage or processor is called, nor is the single-flight group
    touched. *)
Theorem do_authenticates (W : World) (app : Imagor) (r : Context)
    (p : imagorpath.Params) (st : St) :
  (signatureOk W app p = true <->
   (Unsafe app && imagorpath.Unsafe p = true \/
    Sign W (imagorpath.Path p) (Secret app) = imagorpath.Hash p)) /\
  (signatureOk W app p = true ->
   Do W app r p st =
     acquire W app r ("res:" +:+ resultKey p) (doResult W app r p (resultKey p)) st) /\
  (signatureOk W app p = false ->
   exists st',
     Do W app r p st = (Returned (None, Some (EImagor ErrSignatureMismatch)), st') /\
     calls st' = calls st /\ flights st' = flights st) /\
  Code ErrSignatureMismatch = 403.
Proof.
  unfold signatureOk, Do. rewrite <- negb_orb.
  split; [| split; [| split]].
  - rewrite orb_true_iff, String.eqb_eq. reflexivity.
  - intros ->. reflexivity.
  - intros ->. cbn [negb]. rewrite bind_run.
    destruct (when_calls (Debug app) LDebug "sign-mismatch" st) as (st1 & -> & Hc & Hf).
    exists st1. auto.
  - reflexivity.
Qed.

(** What the function of [Do] returns on the way out of an empty source. *)
Lemma doResult_empty (W : World) (app : Imagor) (r : Context)
    (p : imagorpath.Params) (ctx : Context) (st : St) (f : option File) :
  doExit W app r p st = ExitEmpty f ->
  IsFileEmpty f = true /\
  exists st', doResult W app r p (resultKey p) ctx st = (Returned (f, None), st').
Proof.
  unfold doExit, doResult. rewrite bind_run.
  destruct (loadResult W app r (resultKey p) st) as ([[f1 e1] | |], st1);
    try discriminate.
  destruct ((if e1 is None then true else false) && negb (IsFileEmpty f1));
    [discriminate |].
  rewrite bind_run.
  destruct (loadStore W app r (imagorpath.Image p) st1) as ([[f2 [e2 |]] | |], st2);
    try discriminate.
  destruct (IsFileEmpty f2) eqn:Hempty.
  - intros [= <-]. split; [exact Hempty | eauto].
  - destruct (processLoop W app r p (Processors app) f2 None st2) as ([[f3 e3] | |], st3);
      discriminate.
Qed.

(** The response to an empty file without error. *)
Lemma respond_empty (W : World) (app : Imagor) (p : imagorpath.Params)
    (f : option File) (w : ResponseWriter) :
  IsFileEmpty f = true -> wroteHeader w = None ->
  status (respond W app p f None w) = Some 200 /\
  body (respond W app p f None w) = body w.
Proof.
  intros Hempty Hw. unfold respond.
  assert (readBuf f = []) as ->
    by (unfold readBuf; destruct f; [rewrite Hempty |]; reflexivity).
  destruct f as [f |]; [rewrite Hempty |]; cbn [negb];
    unfold status, Write, WriteHeader, setCacheHeaders, HeaderSet, HeaderAdd; cbn;
    rewrite Hw; cbn; rewrite app_nil_r; auto.
Qed.

(** The headers sent with the response to an empty file without error. *)
Lemma respond_empty_headers (W : World) (app : Imagor) (p : imagorpath.Params)
    (f : option File) (w : ResponseWriter) :
  IsFileEmpty f = true -> wroteHeader w = None ->
  let w' := respond W app p f None w in
  Extra.sent w' !! "Content-Length" = Some ["0"] /\
  Extra.sent w' !! "Cache-Control" =
    Some (default [] (header w !! "Cache-Control") ++
          [getCacheControl W (CacheHeaderTTL app)])%list /\
  Extra.sent w' !! "Expires" =
    Some (default [] (header w !! "Expires") ++ [expiresIn W (CacheHeaderTTL app)])%list.
Proof.
  intros Hempty Hw. unfold respond.
  assert (readBuf f = []) as ->
    by (unfold readBuf; destruct f; [rewrite Hempty |]; reflexivity).
  destruct f as [f |]; [rewrite Hempty |]; cbn [negb];
    unfold Extra.sent, Write, WriteHeader, setCacheHeaders, HeaderSet, HeaderAdd; cbn;
    rewrite Hw; cbn;
    (split; [rewrite lookup_insert_eq; reflexivity | split]);
    [ rewrite lookup_insert_ne by discriminate; rewrite lookup_insert_eq;
      rewrite lookup_insert_ne by discriminate; reflexivity
    | rewrite !lookup_insert_ne by discriminate; rewrite lookup_insert_eq; reflexivity
    | rewrite lookup_insert_ne by discriminate; rewrite lookup_insert_eq;
      rewrite lookup_insert_ne by discriminate; reflexivity
    | rewrite !lookup_insert_ne by discriminate; rewrite lookup_insert_eq; reflexivity ].
Qed.

(** C2 (as the code has it). When the signature is accepted, the result
    loaders have no derivative and the source load ends without error with
    an empty blob, and the wait for the result is not ended by the context,
    [Do] returns that empty result with no error, and [ServeHTTP] answers
    with status 200, the cache headers [Cache-Control] and [Expires] of the
    configured TTL, [Content-Length] 0 and an empty body. *)
Theorem empty_source_served_ok (W : World) (app : Imagor) (path : string)
    (r : Context) (w : ResponseWriter) (st : St) (f : option File) :
  let p := Parse W path in
  let key := "res:" +:+ resultKey p in
  path <> "/" -> path <> EmptyString -> imagorpath.ParamsEcho p = false ->
  signatureOk W app p = true ->
  runsFn r key st = true ->
  doExit W app r p (fnState app r key st) = ExitEmpty f ->
  (forall h, ctxDone W h key = None) ->
  wroteHeader w = None ->
  IsFileEmpty f = true /\
  exists st' w',
    Do W app r p st = (Returned (f, None), st') /\
    ServeHTTP W app path r w st = (Returned w', st') /\
    status w' = Some 200 /\ body w' = body w /\
    Extra.sent w' !! "Content-Length" = Some ["0"] /\
    Extra.sent w' !! "Cache-Control" =
      Some (default [] (header w !! "Cache-Control") ++
            [getCacheControl W (CacheHeaderTTL app)])%list /\
    Extra.sent w' !! "Expires" =
      Some (default [] (header w !! "Expires") ++
            [expiresIn W (CacheHeaderTTL app)])%list.
Proof.
  intros p key Hslash Hblank Hecho Hsig Hruns Hexit Hdone Hw.
  destruct (doResult_empty W app r p (fnContext r key) _ f Hexit)
    as (Hempty & st2 & Hfn).
  destruct (acquire_returns W app r key (doResult W app r p (resultKey p)) st st2
              (f, None) Hruns Hfn Hdone) as (st' & Hacq & _).
  assert (HDo : Do W app r p st = (Returned (f, None), st')).
  { unfold Do. unfold signatureOk in Hsig. rewrite <- negb_orb, Hsig. exact Hacq. }
  split; [exact Hempty |].
  exists st', (respond W app p f None w).
  split; [exact HDo | split].
  - unfold ServeHTTP.
    destruct (String.eqb_spec path "/"); [contradiction |].
    destruct (String.eqb_spec path EmptyString); [contradiction |].
    cbn [orb]. fold p. rewrite Hecho, bind_run, HDo. reflexivity.
  - destruct (respond_empty W app p f w Hempty Hw) as (Hstatus & Hbody).
    split; [exact Hstatus | split; [exact Hbody |]].
    apply respond_empty_headers; assumption.
Qed.

(** The request for an image that the only loader answers with no blob and
    no error. *)
Lemma empty_source_served_ok_witness :
  let app := Scenario.newApp [Scenario.EmptyLoader] [] [] [] [] in
  exists st' w',
    ServeHTTP Scenario.world app "foo.jpg" Scenario.ctx0 newResponseWriter Scenario.st0
      = (Returned w', st') /\
    status w' = Some 200 /\ body w' = [] /\
    Extra.sent w' !! "Content-Length" = Some ["0"].
Proof.
  intros app.
  destruct (empty_source_served_ok Scenario.world app "foo.jpg" Scenario.ctx0
              newResponseWriter Scenario.st0 None)
    as (_ & st' & w' & _ & Hserve & Hstatus & Hbody & Hlen & _);
    try reflexivity; try discriminate.
  exists st', w'. auto.
Defined.

(** C2 as the spec words it fails: the only loader answers the request with
    no blob and no error, the source load so ends without error with an
    empty blob, and the response has status 200, not 404. *)
Lemma empty_source_not_404_counterexample :
  let app := Scenario.newApp [Scenario.EmptyLoader] [] [] [] [] in
  let p := Parse Scenario.world "foo.jpg" in
  let run := ServeHTTP Scenario.world app "foo.jpg" Scenario.ctx0 newResponseWriter
               Scenario.st0 in
  fst (load Scenario.world app Scenario.ctx0 (Loaders app) "foo.jpg" Scenario.st0) =
    Returned (None, None, None) /\
  fst (Do Scenario.world app Scenario.ctx0 p Scenario.st0) = Returned (None, None) /\
  (exists w', fst run = Returned w' /\ status w' = Some 200 /\ body w' = []) /\
  ~ (exists w', fst run = Returned w' /\ status w' = Some 404).
Proof.
  intros app p run.
  split; [vm_compute; reflexivity |].
  split; [vm_compute; reflexivity |].
  assert (Hrun : exists w', fst run = Returned w' /\ status w' = Some 200 /\ body w' = []).
  { unfold run, ServeHTTP. cbn [String.eqb Ascii.eqb Bool.eqb orb].
    eexists. split; [vm_compute; reflexivity | split; vm_compute; reflexivity]. }
  split; [exact Hrun |].
  destruct Hrun as (w1 & H1 & Hs1 & _). intros (w2 & H2 & Hs2).
  rewrite H1 in H2. injection H2 as <-. rewrite Hs1 in Hs2. discriminate.
Qed.

End DoProps.

(** ** Re-entrant [acquire] *)

Module AcquireProps.
Import Imagor Observe.
Import SaveProps.

(** Without the flag in the context, a nested [acquire] of a key that the
    same run has in flight joins the waiters of its own call: it blocks
    unless the context ends the wait. *)
Lemma acquire_in_flight_blocks (W : World) (app : Imagor) (ctx : Context)
    (key : string) (fn : Context -> M (option File * option error)) (st : St) :
  key ∉ acquired ctx -> key ∈ flights st ->
  ctxDone W (calls st) key = None ->
  fst (acquire W app ctx key fn st) = Blocked.
Proof.
  intros Hctx Hflight Hdone. unfold acquire. rewrite bind_run.
  destruct (when_calls (Debug app) LDebug "acquire" st) as (st1 & -> & Hc & Hf).
  destruct (decide (key ∈ acquired ctx)); [contradiction |].
  rewrite bind_run. cbn. rewrite Hf.
  destruct (decide (key ∈ flights st)); [| contradiction].
  rewrite bind_run. cbn. rewrite Hc, Hdone. reflexivity.
Qed.

(** C6. With a context that holds the key, [acquire] does not go through
    the single-flight group: it is the call [fn(ctx)] (after the debug
    line), whether or not the key is in flight. So an [acquire] of the key
    nested in the function of an [acquire] of the same key, with the
    context that function was given, runs its function directly and does
    not wait for the call it is part of. *)
Theorem acquire_reentrant (W : World) (app : Imagor) (key : string)
    (fn : Context -> M (option File * option error)) :
  (forall ctx st,
     key ∈ acquired ctx ->
     acquire W app ctx key fn st =
       (when (Debug app) (log LDebug "acquire") ≫= fun _ => fn ctx) st) /\
  (forall ctx st,
     acquire W app ctx key (fun ctx' => acquire W app ctx' key fn) st =
     acquire W app ctx key
       (fun ctx' => when (Debug app) (log LDebug "acquire") ≫= fun _ => fn ctx') st).
Proof.
  assert (Hheld : forall ctx st,
            key ∈ acquired ctx ->
            acquire W app ctx key fn st =
              (when (Debug app) (log LDebug "acquire") ≫= fun _ => fn ctx) st).
  { intros ctx st Hin. unfold acquire. rewrite !bind_run.
    destruct (when (Debug app) (log LDebug "acquire") st) as ([[] | |], st1);
      try reflexivity.
    destruct (decide (key ∈ acquired ctx)); [reflexivity | contradiction]. }
  split; [exact Hheld |].
  intros ctx st. unfold acquire at 1 3. rewrite !bind_run.
  destruct (when (Debug app) (log LDebug "acquire") st) as ([[] | |], st1);
    try reflexivity.
  destruct (decide (key ∈ acquired ctx)) as [Hin | Hout].
  - apply Hheld. exact Hin.
  - rewrite !bind_run. destruct (getFlights st1) as ([g | |], st2); try reflexivity.
    destruct (decide (key ∈ g)); [reflexivity |].
    rewrite !bind_run. destruct (setFlights ({[ key ]} ∪ g) st2) as ([[] | |], st3);
      try reflexivity.
    rewrite !bind_run.
    rewrite (Hheld (WithValue ctx key) st3)
      by (unfold WithValue; cbn; set_solver).
    reflexivity.
Qed.

End AcquireProps.

(** ** Concurrent callers of [acquire] *)

Module SingleFlightProps.
Import Imagor SingleFlight.

(** What is in the channel of a caller after a result is sent to a list
    of channels. *)
Lemma lookup_sends (res : Result) (cs : list nat) :
  forall (callers : gmap nat caller) (c : nat),
    fold_left (send res) cs callers !! c =
      match callers !! c with
      | Some (Selecting key flight None) =>
          if decide (c ∈ cs) then Some (Selecting key flight (Some res))
          else Some (Selecting key flight None)
      | x => x
      end.
Proof.
  induction cs as [| a cs IH]; intros callers c; cbn [fold_left].
  - destruct (callers !! c) as [[key flight [r |] | key | key flight b r] |];
      reflexivity.
  - rewrite IH. unfold send at 1.
    destruct (decide (a = c)) as [-> | Hne].
    + destruct (callers !! c) as [[key flight [r |] | key | key flight b r] |] eqn:Hc;
        rewrite ?lookup_insert_eq, ?Hc; try reflexivity.
      destruct (decide (c ∈ c :: cs)) as [_ | Hn]; [reflexivity |].
      exfalso. apply Hn. left.
    + assert (Hlook : (match callers !! a with
                         | Some (Selecting key flight None) =>
                             <[a:=Selecting key flight (Some res)]> callers
                         | _ => callers end) !! c = callers !! c).
      { destruct (callers !! a) as [[key flight [r |] | key | key flight b r] |];
          rewrite ?lookup_insert_ne by exact Hne; reflexivity. }
      rewrite Hlook.
      destruct (callers !! c) as [[key flight [r |] | key | key flight b r] |];
        try reflexivity.
      destruct (decide (c ∈ cs)) as [Hin | Hnin], (decide (c ∈ a :: cs)) as [Hin' | Hnin'];
        try reflexivity.
      * exfalso. apply Hnin'. right. exact Hin.
      * exfalso. apply elem_of_cons in Hin' as [-> | Hin']; [congruence | contradiction].
Qed.

(** With distinct keys, at most one goroutine runs for a key. *)
Lemma one_per_key (key : string) (l : list (string * nat)) :
  NoDup (map fst l) ->
  (length (List.filter (fun g => String.eqb (fst g) key) l) <= 1)%nat.
Proof.
  induction l as [| [k fl] l IH]; intros Hnd; cbn; [lia |].
  apply NoDup_cons in Hnd as [Hnotin Hnd]. specialize (IH Hnd).
  destruct (String.eqb_spec k key) as [-> | Hne]; [| exact IH].
  cbn [length].
  assert (List.filter (fun g => String.eqb (fst g) key) l = []) as ->; [| cbn; lia].
  clear - Hnotin. induction l as [| [k' fl'] l IH]; [reflexivity |].
  cbn in *. destruct (String.eqb_spec k' key) as [-> | Hne].
  - exfalso. apply Hnotin. left.
  - apply IH. intros Hin. apply Hnotin. right. exact Hin.
Qed.


Lemma got_insert_ne (cs : gmap nat caller) (c c0 : nat) (v : caller) (flight : nat)
    (r : Result) :
  c0 <> c -> got (<[ c := v ]> cs) c0 flight r <-> got cs c0 flight r.
Proof. intros Hne. unfold got. rewrite lookup_insert_ne by congruence. reflexivity. Qed.

Lemma got_insert_eq (cs : gmap nat caller) (c : nat) (v : caller) (flight : nat)
    (r : Result) :
  got (<[ c := v ]> cs) c flight r <->
  (exists key, v = Selecting key flight (Some r)) \/
  (exists key, v = Finished key (Some flight) true r).
Proof.
  unfold got. rewrite lookup_insert_eq.
  split; intros [[k H] | [k H]]; [left | right | left | right]; exists k; congruence.
Qed.

(** An update of one caller to a state that holds no result from a channel
    gives no caller a result. *)
Lemma got_insert_inv (cs : gmap nat caller) (c c0 : nat) (v : caller) (flight : nat)
    (r : Result) :
  (forall key fl r', v <> Selecting key fl (Some r')) ->
  (forall key fl r', v <> Finished key (Some fl) true r') ->
  got (<[ c := v ]> cs) c0 flight r -> got cs c0 flight r.
Proof.
  intros Hs Hf Hgot. destruct (decide (c0 = c)) as [-> | Hne].
  - apply got_insert_eq in Hgot as [[k ->] | [k ->]]; [destruct (Hs _ _ _ eq_refl) |
      destruct (Hf _ _ _ eq_refl)].
  - apply got_insert_ne in Hgot; assumption.
Qed.

(** The callers after a send, in terms of the callers before it. *)
Lemma sends_Selecting (res : Result) (l : list nat) (cs : gmap nat caller)
    (c : nat) (key : string) (flight : nat) (ch : option Result) :
  fold_left (send res) l cs !! c = Some (Selecting key flight ch) ->
  exists ch0, cs !! c = Some (Selecting key flight ch0) /\
              (ch = ch0 \/ (ch0 = None /\ ch = Some res /\ c ∈ l)).
Proof.
  rewrite lookup_sends.
  destruct (cs !! c) as [[k fl [r |] | k | k fl b r] |]; try discriminate.
  - intros [= -> -> <-]. eauto.
  - destruct (decide (c ∈ l)); intros [= -> -> <-]; eauto 6.
Qed.

Lemma sends_Finished (res : Result) (l : list nat) (cs : gmap nat caller)
    (c : nat) (key : string) (flight : option nat) (b : bool) (r : Result) :
  fold_left (send res) l cs !! c = Some (Finished key flight b r) <->
  cs !! c = Some (Finished key flight b r).
Proof.
  rewrite lookup_sends.
  destruct (cs !! c) as [[k fl [r' |] | k | k fl b' r'] |]; try (split; congruence).
  destruct (decide (c ∈ l)); split; congruence.
Qed.

Lemma sends_Direct (res : Result) (l : list nat) (cs : gmap nat caller)
    (c : nat) (key : string) :
  fold_left (send res) l cs !! c = Some (Direct key) <-> cs !! c = Some (Direct key).
Proof.
  rewrite lookup_sends.
  destruct (cs !! c) as [[k fl [r' |] | k | k fl b' r'] |]; try (split; congruence).
  destruct (decide (c ∈ l)); split; congruence.
Qed.

Lemma sends_is_Some (res : Result) (l : list nat) (cs : gmap nat caller) (c : nat) :
  is_Some (cs !! c) -> is_Some (fold_left (send res) l cs !! c).
Proof.
  rewrite lookup_sends. intros [v ->].
  destruct v as [k fl [r' |] | k | k fl b' r']; eauto.
  destruct (decide (c ∈ l)); eauto.
Qed.

Lemma flight_inv_init : inv init.
Proof.
  constructor; cbn.
  - intros key flight. rewrite lookup_empty. split; [discriminate | intros H; inversion H].
  - constructor.
  - constructor.
  - intros * H. inversion H.
  - intros * H. rewrite lookup_empty in H. discriminate.
  - intros * H. rewrite lookup_empty in H. discriminate.
  - intros * H. rewrite lookup_empty in H. discriminate.
  - intros * H. rewrite lookup_empty in H. discriminate.
  - intros * H. rewrite lookup_empty in H. discriminate.
  - intros * H. inversion H.
  - intros * [[k H] | [k H]]; rewrite lookup_empty in H; discriminate.
  - intros * H. rewrite lookup_empty in H. discriminate.
Qed.

(** The invariant under the update of one caller that leaves the group and
    the goroutines as they are. *)
Lemma inv_update (s : state) (c : nat) (v : caller) :
  inv s ->
  (forall key flight ch, v = Selecting key flight ch ->
     exists ch0, callers s !! c = Some (Selecting key flight ch0)) ->
  (forall key flight, v = Selecting key flight None -> (key, flight) ∈ goroutines s) ->
  (forall key flight b r, v = Finished key (Some flight) b r -> (flight < next s)%nat) ->
  (forall flight r, got (<[ c := v ]> (callers s)) c flight r ->
                    got (callers s) c flight r) ->
  (forall key flight r, v = Finished key (Some flight) false r ->
                        exists e, r = (None, Some e)) ->
  inv {| m := m s; chans := chans s; goroutines := goroutines s;
         callers := <[ c := v ]> (callers s); next := next s |}.
Proof.
  intros Hinv Hsel Hwait Hfin Hgot Hdone.
  assert (Hgot' : forall c0 flight r,
            got (<[ c := v ]> (callers s)) c0 flight r -> got (callers s) c0 flight r).
  { intros c0 flight r H. destruct (decide (c0 = c)) as [-> | Hne]; [auto |].
    apply got_insert_ne in H; assumption. }
  destruct Hinv. constructor; cbn; auto.
  - intros c0 key flight ch. destruct (decide (c0 = c)) as [-> | Hne].
    + rewrite lookup_insert_eq. intros [= ->].
      destruct (Hsel _ _ _ eq_refl) as (ch0 & H0). eauto.
    + rewrite lookup_insert_ne by congruence. eauto.
  - intros c0 key flight b r. destruct (decide (c0 = c)) as [-> | Hne].
    + rewrite lookup_insert_eq. intros [= ->]. eauto.
    + rewrite lookup_insert_ne by congruence. eauto.
  - intros flight cs c0 Hch Hin. destruct (inv_chans0 flight cs c0 Hch Hin) as [Hsome Hfl].
    destruct (decide (c0 = c)) as [-> | Hne].
    + rewrite lookup_insert_eq. split; [eauto |].
      intros key flight' ch [= ->]. destruct (Hsel _ _ _ eq_refl) as (ch0 & H0). eauto.
    + rewrite lookup_insert_ne by congruence. auto.
  - intros c0 key flight ch. destruct (decide (c0 = c)) as [-> | Hne].
    + rewrite lookup_insert_eq. intros [= ->].
      destruct (Hsel _ _ _ eq_refl) as (ch0 & H0). eauto.
    + rewrite lookup_insert_ne by congruence. eauto.
  - intros c0 key flight. destruct (decide (c0 = c)) as [-> | Hne].
    + rewrite lookup_insert_eq. intros [= ->]. eauto.
    + rewrite lookup_insert_ne by congruence. eauto.
  - intros key flight c0 r Hin H. exact (inv_fresh0 key flight c0 r Hin (Hgot' _ _ _ H)).
  - intros c1 c2 flight r1 r2 H1 H2. eauto.
  - intros c0 key flight r. destruct (decide (c0 = c)) as [-> | Hne].
    + rewrite lookup_insert_eq. intros [= ->]. eauto.
    + rewrite lookup_insert_ne by congruence. eauto.
Qed.

Lemma inv_direct_return (s s' : state) (c : nat) (res : Result) :
  inv s -> step (DirectReturn c res) s = Some s' -> inv s'.
Proof.
  intros Hinv Hstep. cbn in Hstep.
  destruct (callers s !! c) as [[| key |] |] eqn:Hc; try discriminate.
  injection Hstep as <-. apply inv_update; try (intros; discriminate); [exact Hinv |].
  intros flight r H. apply got_insert_eq in H as [[k H] | [k H]]; discriminate.
Qed.

Lemma inv_receive (s s' : state) (c : nat) :
  inv s -> step (Receive c) s = Some s' -> inv s'.
Proof.
  intros Hinv Hstep. cbn in Hstep.
  destruct (callers s !! c) as [[key flight [res |] | |] |] eqn:Hc; try discriminate.
  injection Hstep as <-.
  assert (match res.1 with
          | Some f => (Some f, res.2)
          | None => (None, res.2)
          end = res) as -> by (destruct res as [[f |] e]; reflexivity).
  apply inv_update; try (intros; discriminate); [exact Hinv | |].
  - intros key' flight' b r [= <- <- <- <-]. eapply inv_sel; eauto.
  - intros flight' r H. apply got_insert_eq in H as [[k H] | [k H]]; [discriminate |].
    injection H as -> -> ->. left. eauto.
Qed.

Lemma inv_ctx_done (s s' : state) (c : nat) (e : error) :
  inv s -> step (CtxDone c e) s = Some s' -> inv s'.
Proof.
  intros Hinv Hstep. cbn in Hstep.
  destruct (callers s !! c) as [[key flight ch | |] |] eqn:Hc; try discriminate.
  injection Hstep as <-.
  apply inv_update; try (intros; discriminate); [exact Hinv | | |].
  - intros key' flight' b r [= <- <- <- <-]. eapply inv_sel; eauto.
  - intros flight' r H. apply got_insert_eq in H as [[k H] | [k H]]; discriminate.
  - intros key' flight' r [= <- <- <-]. eauto.
Qed.

(** A caller that has not entered [acquire] has no channel in any call. *)
Lemma fresh_not_in_chans (s : state) (c : nat) (flight : nat) (cs : list nat) :
  inv s -> callers s !! c = None -> chans s !! flight = Some cs -> c ∉ cs.
Proof.
  intros Hinv Hc Hch Hin.
  destruct (inv_chans s Hinv flight cs c Hch Hin) as [[v Hv] _]. congruence.
Qed.

Lemma inv_acquire (s s' : state) (c : nat) (ctx : Context) (key : string) :
  inv s -> step (Acquire c ctx key) s = Some s' -> inv s'.
Proof.
  intros Hinv Hstep. cbn in Hstep.
  destruct (callers s !! c) eqn:Hc; [discriminate |].
  destruct (decide (key ∈ acquired ctx)).
  { injection Hstep as <-. apply inv_update; try (intros; discriminate); [exact Hinv |].
    intros flight r H. apply got_insert_eq in H as [[k H] | [k H]]; discriminate. }
  assert (Hgot : forall flight c0 fl r,
            got (<[ c := Selecting key flight None ]> (callers s)) c0 fl r ->
            got (callers s) c0 fl r).
  { intros flight c0 fl r. apply got_insert_inv; intros; discriminate. }
  destruct (m s !! key) as [flight |] eqn:Hm; injection Hstep as <-.
  - (* the caller joins the call in flight *)
    assert (Hrun : (key, flight) ∈ goroutines s) by (apply (inv_m s Hinv); exact Hm).
    constructor; cbn.
    + apply (inv_m s Hinv).
    + apply (inv_keys s Hinv).
    + apply (inv_ids s Hinv).
    + apply (inv_next s Hinv).
    + intros c0 key0 fl ch. destruct (decide (c0 = c)) as [-> | Hne].
      * rewrite lookup_insert_eq. intros [= <- <- <-]. eapply inv_next; eauto.
      * rewrite lookup_insert_ne by congruence. apply (inv_sel s Hinv).
    + intros c0 key0 fl b r. destruct (decide (c0 = c)) as [-> | Hne].
      * rewrite lookup_insert_eq. discriminate.
      * rewrite lookup_insert_ne by congruence. apply (inv_fin s Hinv).
    + intros fl cs c0 Hch Hin.
      destruct (decide (c0 = c)) as [-> | Hne].
      * rewrite lookup_insert_eq. split; [eauto |]. intros key0 fl' ch [= <- <- <-].
        destruct (decide (fl = flight)) as [-> | Hfl]; [reflexivity |].
        rewrite lookup_insert_ne in Hch by congruence.
        destruct (fresh_not_in_chans s c fl cs Hinv Hc Hch Hin).
      * rewrite lookup_insert_ne by congruence.
        destruct (decide (fl = flight)) as [-> | Hfl].
        -- rewrite lookup_insert_eq in Hch. injection Hch as <-.
           apply elem_of_app in Hin as [Hold | Hnew];
             [| apply list_elem_of_singleton in Hnew; contradiction].
           destruct (chans s !! flight) as [cs0 |] eqn:Hch0; [| inversion Hold].
           apply (inv_chans s Hinv flight cs0 c0 Hch0 Hold).
        -- rewrite lookup_insert_ne in Hch by congruence.
           apply (inv_chans s Hinv fl cs c0 Hch Hin).
    + intros c0 key0 fl ch. destruct (decide (c0 = c)) as [-> | Hne].
      * rewrite lookup_insert_eq. intros [= <- <- <-]. rewrite lookup_insert_eq.
        eexists. split; [reflexivity |]. apply elem_of_app. right. left.
      * rewrite lookup_insert_ne by congruence. intros H.
        destruct (inv_member s Hinv c0 key0 fl ch H) as (cs0 & Hch0 & Hin0).
        destruct (decide (fl = flight)) as [-> | Hfl].
        -- rewrite lookup_insert_eq, Hch0. eexists. split; [reflexivity |].
           apply elem_of_app. left. exact Hin0.
        -- rewrite lookup_insert_ne by congruence. eauto.
    + intros c0 key0 fl. destruct (decide (c0 = c)) as [-> | Hne].
      * rewrite lookup_insert_eq. intros [= <- <-]. exact Hrun.
      * rewrite lookup_insert_ne by congruence. apply (inv_wait s Hinv).
    + intros key0 fl c0 r Hin H. exact (inv_fresh s Hinv key0 fl c0 r Hin (Hgot _ _ _ _ H)).
    + intros c1 c2 fl r1 r2 H1 H2.
      exact (inv_same s Hinv c1 c2 fl r1 r2 (Hgot _ _ _ _ H1) (Hgot _ _ _ _ H2)).
    + intros c0 key0 fl r. destruct (decide (c0 = c)) as [-> | Hne].
      * rewrite lookup_insert_eq. discriminate.
      * rewrite lookup_insert_ne by congruence. apply (inv_done s Hinv).
  - (* the caller starts a call *)
    assert (Hkey : forall fl, (key, fl) ∉ goroutines s).
    { intros fl Hin. apply (inv_m s Hinv) in Hin. congruence. }
    constructor; cbn.
    + intros key0 fl. rewrite elem_of_app, list_elem_of_singleton.
      destruct (decide (key0 = key)) as [-> | Hne].
      * rewrite lookup_insert_eq. split.
        -- intros [= <-]. right. reflexivity.
        -- intros [Hin | [= <-]]; [destruct (Hkey fl Hin) | reflexivity].
      * rewrite lookup_insert_ne by congruence. rewrite (inv_m s Hinv). split; [auto |].
        intros [Hin | [= -> _]]; [exact Hin | contradiction].
    + rewrite map_app. cbn. apply NoDup_app. split; [apply (inv_keys s Hinv) | split].
      * intros k Hin Hk. apply list_elem_of_singleton in Hk as ->.
        apply list_elem_of_In, in_map_iff in Hin as ([k fl] & Heq & Hin). cbn in Heq. subst k.
        apply (Hkey fl). apply list_elem_of_In. exact Hin.
      * apply NoDup_singleton.
    + rewrite map_app. cbn. apply NoDup_app. split; [apply (inv_ids s Hinv) | split].
      * intros fl Hin Hfl. apply list_elem_of_singleton in Hfl as ->.
        apply list_elem_of_In, in_map_iff in Hin as ([k fl] & Heq & Hin). cbn in Heq. subst fl.
        apply list_elem_of_In in Hin. apply (inv_next s Hinv) in Hin. lia.
      * apply NoDup_singleton.
    + intros key0 fl. rewrite elem_of_app, list_elem_of_singleton.
      intros [Hin | [= -> ->]]; [apply (inv_next s Hinv) in Hin |]; lia.
    + intros c0 key0 fl ch. destruct (decide (c0 = c)) as [-> | Hne].
      * rewrite lookup_insert_eq. intros [= <- <- <-]. lia.
      * rewrite lookup_insert_ne by congruence. intros H.
        apply (inv_sel s Hinv) in H. lia.
    + intros c0 key0 fl b r. destruct (decide (c0 = c)) as [-> | Hne].
      * rewrite lookup_insert_eq. discriminate.
      * rewrite lookup_insert_ne by congruence. intros H.
        apply (inv_fin s Hinv) in H. lia.
    + intros fl cs c0 Hch Hin.
      destruct (decide (fl = next s)) as [-> | Hfl].
      * rewrite lookup_insert_eq in Hch. injection Hch as <-.
        apply list_elem_of_singleton in Hin as ->. rewrite lookup_insert_eq.
        split; [eauto |]. intros key0 fl' ch [= <- <- <-]. reflexivity.
      * rewrite lookup_insert_ne in Hch by congruence.
        assert (c0 <> c)
          by (intros ->; exact (fresh_not_in_chans s c fl cs Hinv Hc Hch Hin)).
        rewrite lookup_insert_ne by congruence.
        apply (inv_chans s Hinv fl cs c0 Hch Hin).
    + intros c0 key0 fl ch. destruct (decide (c0 = c)) as [-> | Hne].
      * rewrite lookup_insert_eq. intros [= <- <- <-]. rewrite lookup_insert_eq.
        eexists. split; [reflexivity | left].
      * rewrite lookup_insert_ne by congruence. intros H.
        pose proof (inv_sel s Hinv c0 key0 fl ch H) as Hlt.
        rewrite lookup_insert_ne by lia. exact (inv_member s Hinv c0 key0 fl ch H).
    + intros c0 key0 fl. rewrite elem_of_app. destruct (decide (c0 = c)) as [-> | Hne].
      * rewrite lookup_insert_eq. intros [= <- <-]. right. left.
      * rewrite lookup_insert_ne by congruence. intros H. left.
        exact (inv_wait s Hinv c0 key0 fl H).
    + intros key0 fl c0 r Hin H. apply Hgot in H.
      apply elem_of_app in Hin as [Hin | Hin].
      * exact (inv_fresh s Hinv key0 fl c0 r Hin H).
      * apply list_elem_of_singleton in Hin. injection Hin as -> ->.
        destruct H as [[k H] | [k H]];
          [apply (inv_sel s Hinv) in H | apply (inv_fin s Hinv) in H]; lia.
    + intros c1 c2 fl r1 r2 H1 H2.
      exact (inv_same s Hinv c1 c2 fl r1 r2 (Hgot _ _ _ _ H1) (Hgot _ _ _ _ H2)).
    + intros c0 key0 fl r. destruct (decide (c0 = c)) as [-> | Hne].
      * rewrite lookup_insert_eq. discriminate.
      * rewrite lookup_insert_ne by congruence. apply (inv_done s Hinv).
Qed.

Lemma inv_fn_return (s s' : state) (i : nat) (res : Result) :
  inv s -> step (FnReturn i res) s = Some s' -> inv s'.
Proof.
  intros Hinv Hstep. cbn in Hstep.
  destruct (goroutines s !! i) as [[key flight] |] eqn:Hi; [| discriminate].
  injection Hstep as <-.
  pose proof (delete_Permutation (goroutines s) i (key, flight) Hi) as Hperm.
  assert (Hnd1 : NoDup (key :: map fst (delete i (goroutines s)))).
  { change (NoDup (map fst ((key, flight) :: delete i (goroutines s)))).
    rewrite <- (Permutation_map fst Hperm). apply (inv_keys s Hinv). }
  assert (Hnd2 : NoDup (flight :: map snd (delete i (goroutines s)))).
  { change (NoDup (map snd ((key, flight) :: delete i (goroutines s)))).
    rewrite <- (Permutation_map snd Hperm). apply (inv_ids s Hinv). }
  apply NoDup_cons in Hnd1 as [Hk1 Hnd1]. apply NoDup_cons in Hnd2 as [Hk2 Hnd2].
  assert (Hsub : forall g, g ∈ delete i (goroutines s) -> g ∈ goroutines s).
  { intros g Hg. rewrite Hperm. right. exact Hg. }
  assert (Hrun : (key, flight) ∈ goroutines s) by (rewrite Hperm; left).
  assert (Hrest : forall k fl, (k, fl) ∈ delete i (goroutines s) ->
                               k <> key /\ fl <> flight).
  { intros k fl Hin. split; intros ->.
    - apply Hk1. apply list_elem_of_In, in_map_iff. exists (key, fl).
      split; [reflexivity | apply list_elem_of_In; exact Hin].
    - apply Hk2. apply list_elem_of_In, in_map_iff. exists (k, flight).
      split; [reflexivity | apply list_elem_of_In; exact Hin]. }
  set (cs := default [] (chans s !! flight)).
  assert (Hcs : forall c, c ∈ cs ->
            forall k fl ch, callers s !! c = Some (Selecting k fl ch) -> fl = flight).
  { intros c Hin. unfold cs in Hin.
    destruct (chans s !! flight) as [cs0 |] eqn:Hch; [| inversion Hin].
    apply (inv_chans s Hinv flight cs0 c Hch Hin). }
  assert (Hgot : forall c fl r,
            got (fold_left (send res) cs (callers s)) c fl r ->
            got (callers s) c fl r \/ (fl = flight /\ r = res)).
  { intros c fl r [[k H] | [k H]].
    - apply sends_Selecting in H as (ch0 & H0 & [<- | (-> & [= <-] & Hin)]).
      + left. left. eauto.
      + right. split; [exact (Hcs c Hin _ _ _ H0) | reflexivity].
    - apply sends_Finished in H. left. right. eauto. }
  constructor; cbn.
  - intros k fl. destruct (decide (k = key)) as [-> | Hne].
    + rewrite lookup_delete_eq. split; [discriminate |].
      intros Hin. destruct (Hrest key fl Hin) as [Hk _]. contradiction.
    + rewrite lookup_delete_ne by congruence. rewrite (inv_m s Hinv). split.
      * intros Hin. rewrite Hperm in Hin. apply elem_of_cons in Hin as [[= -> _] | Hin];
          [contradiction | exact Hin].
      * apply Hsub.
  - exact Hnd1.
  - exact Hnd2.
  - intros k fl Hin. apply (inv_next s Hinv k). apply Hsub. exact Hin.
  - intros c k fl ch H. apply sends_Selecting in H as (ch0 & H0 & _).
    exact (inv_sel s Hinv c k fl ch0 H0).
  - intros c k fl b r H. apply sends_Finished in H. exact (inv_fin s Hinv c k fl b r H).
  - intros fl cs0 c Hch Hin.
    destruct (inv_chans s Hinv fl cs0 c Hch Hin) as [Hsome Hfl].
    split; [apply sends_is_Some; exact Hsome |].
    intros k fl' ch H. apply sends_Selecting in H as (ch0 & H0 & _). eauto.
  - intros c k fl ch H. apply sends_Selecting in H as (ch0 & H0 & _).
    exact (inv_member s Hinv c k fl ch0 H0).
  - intros c k fl H. rewrite lookup_sends in H.
    destruct (callers s !! c) as [[k0 fl0 [r0 |] | k0 | k0 fl0 b0 r0] |] eqn:Hc;
      try discriminate.
    destruct (decide (c ∈ cs)) as [Hin | Hnin]; [discriminate |].
    injection H as -> ->.
    pose proof (inv_wait s Hinv c k fl Hc) as Hg. rewrite Hperm in Hg.
    apply elem_of_cons in Hg as [[= -> ->] | Hg]; [| exact Hg].
    exfalso. apply Hnin. unfold cs.
    destruct (inv_member s Hinv c key flight None Hc) as (cs0 & -> & Hin0). exact Hin0.
  - intros k fl c r Hin H. destruct (Hrest k fl Hin) as [_ Hfl].
    apply Hgot in H as [H | [-> _]]; [| contradiction].
    exact (inv_fresh s Hinv k fl c r (Hsub _ Hin) H).
  - intros c1 c2 fl r1 r2 H1 H2.
    apply Hgot in H1 as [H1 | [-> ->]], H2 as [H2 | [Hfl ->]].
    + exact (inv_same s Hinv c1 c2 fl r1 r2 H1 H2).
    + subst fl. destruct (inv_fresh s Hinv key flight c1 r1 Hrun H1).
    + destruct (inv_fresh s Hinv key flight c2 r2 Hrun H2).
    + reflexivity.
  - intros c k fl r H. apply sends_Finished in H. exact (inv_done s Hinv c k fl r H).
Qed.

Lemma flight_inv_step (a : action) (s s' : state) :
  inv s -> step a s = Some s' -> inv s'.
Proof.
  destruct a.
  - apply inv_acquire.
  - apply inv_fn_return.
  - apply inv_direct_return.
  - apply inv_receive.
  - apply inv_ctx_done.
Qed.

Lemma flight_inv_run (sched : list action) :
  forall s s', inv s -> run sched s = Some s' -> inv s'.
Proof.
  induction sched as [| a rest IH]; intros s s' Hinv Hrun; cbn in Hrun.
  - injection Hrun as <-. exact Hinv.
  - destruct (step a s) as [s1 |] eqn:Hstep; [| discriminate].
    eapply IH; [eapply flight_inv_step; eauto | exact Hrun].
Qed.

(** No caller runs the function for a key directly as long as no caller
    enters [acquire] for the key with a context that holds it. *)
Lemma noDirect_step (key : string) (a : action) (s s' : state) :
  noDirect key s ->
  match a with
  | Acquire _ ctx k => k = key -> key ∉ acquired ctx
  | _ => True
  end ->
  step a s = Some s' -> noDirect key s'.
Proof.
  intros Hno Ha Hstep c. destruct a as [c0 ctx k | i res | c0 res | c0 | c0 e];
    cbn in Hstep.
  - destruct (callers s !! c0) eqn:Hc0; [discriminate |].
    destruct (decide (k ∈ acquired ctx)) as [Hheld | Hunheld].
    + injection Hstep as <-. cbn. destruct (decide (c = c0)) as [-> | Hne].
      * rewrite lookup_insert_eq. intros [= ->]. exact (Ha eq_refl Hheld).
      * rewrite lookup_insert_ne by congruence. apply Hno.
    + destruct (m s !! k); injection Hstep as <-; cbn;
        (destruct (decide (c = c0)) as [-> | Hne];
         [rewrite lookup_insert_eq; discriminate
         | rewrite lookup_insert_ne by congruence; apply Hno]).
  - destruct (goroutines s !! i) as [[k fl] |]; [| discriminate].
    injection Hstep as <-. cbn. rewrite sends_Direct. apply Hno.
  - destruct (callers s !! c0) as [[| k |] |]; try discriminate.
    injection Hstep as <-. cbn. destruct (decide (c = c0)) as [-> | Hne].
    + rewrite lookup_insert_eq. discriminate.
    + rewrite lookup_insert_ne by congruence. apply Hno.
  - destruct (callers s !! c0) as [[k fl [r |] | |] |]; try discriminate.
    injection Hstep as <-. cbn. destruct (decide (c = c0)) as [-> | Hne].
    + rewrite lookup_insert_eq. discriminate.
    + rewrite lookup_insert_ne by congruence. apply Hno.
  - destruct (callers s !! c0) as [[k fl ch | |] |]; try discriminate.
    injection Hstep as <-. cbn. destruct (decide (c = c0)) as [-> | Hne].
    + rewrite lookup_insert_eq. discriminate.
    + rewrite lookup_insert_ne by congruence. apply Hno.
Qed.

Lemma noDirect_run (key : string) (sched : list action) :
  forall s s', noDirect key s -> unheld key sched -> run sched s = Some s' ->
               noDirect key s'.
Proof.
  induction sched as [| a rest IH]; intros s s' Hno Hun Hrun; cbn in Hrun.
  - injection Hrun as <-. exact Hno.
  - destruct (step a s) as [s1 |] eqn:Hstep; [| discriminate].
    apply Forall_cons in Hun as [Ha Hun].
    eapply IH; [eapply noDirect_step; eauto | exact Hun | exact Hrun].
Qed.

Lemma filter_none {A} (f : A -> bool) (l : list A) :
  (forall x, In x l -> f x = false) -> List.filter f l = [].
Proof.
  induction l as [| x l IH]; intros H; [reflexivity |].
  cbn. rewrite (H x (or_introl eq_refl)). apply IH. intros y Hy. apply H. right. exact Hy.
Qed.

(** With the invariant and no direct run, at most one invocation of the
    function for the key is executing. *)
Lemma executing_bound (key : string) (s : state) :
  inv s -> noDirect key s -> (executing s key <= 1)%nat.
Proof.
  intros Hinv Hno. unfold executing.
  rewrite (filter_none _ (map_to_list (callers s))).
  - pose proof (one_per_key key (goroutines s) (inv_keys s Hinv)). cbn. lia.
  - intros [c v] Hin. apply list_elem_of_In, elem_of_map_to_list in Hin. cbn.
    destruct v as [| k |]; try reflexivity.
    destruct (String.eqb_spec k key) as [-> | Hne]; [| reflexivity].
    destruct (Hno c Hin).
Qed.

(** C5 (as the code has it). In every state that concurrent callers of
    [acquire] can reach: for a key that no caller enters with a context
    already holding it, at most one invocation of the function is
    executing; the callers that wait for a key on an empty channel all wait
    for the same call, the one running for the key; the callers that joined
    the same call and took their result from its channel have the same
    result; and a caller that joined a call and returned otherwise returned
    because its context ended the wait, with no blob and the error of the
    context, not with the result of the call. *)
Theorem single_flight (sched : list action) (s : state) :
  run sched init = Some s ->
  (forall key, unheld key sched -> (executing s key <= 1)%nat) /\
  (forall c1 c2 key flight1 flight2,
     callers s !! c1 = Some (Selecting key flight1 None) ->
     callers s !! c2 = Some (Selecting key flight2 None) ->
     flight1 = flight2 /\ m s !! key = Some flight1) /\
  (forall c1 c2 key1 key2 flight r1 r2,
     callers s !! c1 = Some (Finished key1 (Some flight) true r1) ->
     callers s !! c2 = Some (Finished key2 (Some flight) true r2) ->
     r1 = r2) /\
  (forall c key flight r,
     callers s !! c = Some (Finished key (Some flight) false r) ->
     exists e, r = (None, Some e)).
Proof.
  intros Hrun. pose proof (flight_inv_run sched init s flight_inv_init Hrun) as Hinv.
  split; [| split; [| split]].
  - intros key Hun. apply executing_bound; [exact Hinv |].
    eapply noDirect_run; [| exact Hun | exact Hrun].
    intros c. cbn. rewrite lookup_empty. discriminate.
  - intros c1 c2 key flight1 flight2 H1 H2.
    apply (inv_wait s Hinv), (inv_m s Hinv) in H1, H2.
    split; [congruence | exact H1].
  - intros c1 c2 key1 key2 flight r1 r2 H1 H2.
    apply (inv_same s Hinv c1 c2 flight); right; eauto.
  - apply (inv_done s Hinv).
Qed.

(** Three callers for one key; the third gives up before the result. *)
Lemma single_flight_witness :
  let K := "res:100x100/foo.jpg" in
  let sched := [Acquire 1 Scenario.ctx0 K; Acquire 2 Scenario.ctx0 K;
                Acquire 3 Scenario.ctx0 K; CtxDone 3 ECanceled;
                FnReturn 0 (Some Scenario.thumb, None); Receive 1; Receive 2] in
  exists s,
    run sched init = Some s /\
    (executing s K <= 1)%nat /\
    callers s !! 1%nat = Some (Finished K (Some 0%nat) true (Some Scenario.thumb, None)) /\
    callers s !! 2%nat = Some (Finished K (Some 0%nat) true (Some Scenario.thumb, None)) /\
    callers s !! 3%nat = Some (Finished K (Some 0%nat) false (None, Some ECanceled)).
Proof.
  intros K sched.
  destruct (run sched init) as [s |] eqn:Hrun; [| vm_compute in Hrun; discriminate Hrun].
  destruct (single_flight sched s Hrun) as (Hexec & _).
  exists s. split; [reflexivity | split].
  - apply Hexec. repeat constructor; intros _ Hin; vm_compute in Hin;
      exact (not_elem_of_empty (C := gset string) K Hin).
  - vm_compute in Hrun. injection Hrun as <-.
    split; [| split]; vm_compute; reflexivity.
Defined.

(** C5 as the spec words it fails: of two callers that enter [acquire] for
    the same key while one call is in flight, with contexts that do not
    hold the key, the one whose context is cancelled returns the
    cancellation error, the other the blob; so not all callers receive the
    same result. *)
Lemma single_flight_cancelled_counterexample :
  let K := "res:100x100/foo.jpg" in
  let sched := [Acquire 1 Scenario.ctx0 K; Acquire 2 Scenario.ctx0 K;
                CtxDone 2 ECanceled; FnReturn 0 (Some Scenario.thumb, None);
                Receive 1] in
  unheld K sched /\
  exists s r1 r2,
    run sched init = Some s /\
    callers s !! 1%nat = Some (Finished K (Some 0%nat) true r1) /\
    callers s !! 2%nat = Some (Finished K (Some 0%nat) false r2) /\
    r1 = (Some Scenario.thumb, None) /\ r2 = (None, Some ECanceled) /\ r1 <> r2.
Proof.
  intros K sched. split.
  - repeat constructor; intros _ Hin; vm_compute in Hin;
      exact (not_elem_of_empty (C := gset string) K Hin).
  - destruct (run sched init) as [s |] eqn:Hrun; [| vm_compute in Hrun; discriminate Hrun].
    exists s, (Some Scenario.thumb, None), (None, Some ECanceled).
    vm_compute in Hrun. injection Hrun as <-.
    split; [reflexivity |]. split; [vm_compute; reflexivity |].
    split; [vm_compute; reflexivity |]. split; [reflexivity |].
    split; [reflexivity | discriminate].
Qed.

End SingleFlightProps.

(** ** Lifecycle *)

Module LifecycleProps.
Import Imagor Lifecycle.

Lemma runHooks_spec (hook : Hooked -> list nat -> option error)
    (processors : list Hooked) :
  forall (ran0 ran : list nat) (err : option error),
    runHooks hook processors ran0 = (ran, err) ->
    (err = None /\ ran = (ran0 ++ map hooked_id processors)%list /\
     forall i l, processors !! i = Some l ->
       hook l (ran0 ++ map hooked_id (take i processors))%list = None) \/
    (exists pre l post e,
       processors = (pre ++ l :: post)%list /\ err = Some e /\
       ran = (ran0 ++ map hooked_id (pre ++ [l]))%list /\
       hook l (ran0 ++ map hooked_id pre)%list = Some e /\
       forall i l', pre !! i = Some l' ->
         hook l' (ran0 ++ map hooked_id (take i pre))%list = None).
Proof.
  induction processors as [| x rest IH]; intros ran0 ran err Hrun; cbn in Hrun.
  - injection Hrun as <- <-. left. rewrite app_nil_r.
    split; [reflexivity | split; [reflexivity |]]. intros i l Hi. destruct i; discriminate.
  - destruct (hook x ran0) as [e |] eqn:Hx.
    + injection Hrun as <- <-. right. exists [], x, rest, e. cbn. rewrite app_nil_r.
      split; [reflexivity | split; [reflexivity | split; [reflexivity | split; [exact Hx |]]]].
      intros i l' Hi. destruct i; discriminate.
    + destruct (IH _ _ _ Hrun) as [(-> & -> & Hall) | (pre & l & post & e & -> & -> & -> & Hl & Hpre)].
      * left. split; [reflexivity | split].
        -- cbn. rewrite <- app_assoc. reflexivity.
        -- intros [| i] l Hi; cbn in Hi.
           ++ injection Hi as <-. cbn. rewrite app_nil_r. exact Hx.
           ++ cbn. specialize (Hall i l Hi). rewrite <- app_assoc in Hall. exact Hall.
      * right. exists (x :: pre), l, post, e. cbn.
        split; [reflexivity | split; [reflexivity | split; [| split]]].
        -- rewrite <- app_assoc. reflexivity.
        -- rewrite <- app_assoc in Hl. exact Hl.
        -- intros [| i] l' Hi; cbn in Hi.
           ++ injection Hi as <-. cbn. rewrite app_nil_r. exact Hx.
           ++ cbn. specialize (Hpre i l' Hi). rewrite <- app_assoc in Hpre. exact Hpre.
Qed.

(** X1. [Startup] and [Shutdown] run the hooks of the processors in order
    and stop at the first one that fails: every hook before it ran without
    error, they return its error, and the hooks of the processors after it
    are not run (so a processor whose shutdown fails leaves the ones after
    it running). They return no error exactly when every hook ran without
    error. *)
Theorem lifecycle_stops_at_first_failure (processors : list Hooked) :
  (forall ran err,
     Startup processors = (ran, err) ->
     (err = None /\ ran = map hooked_id processors /\
      forall i l, processors !! i = Some l ->
        StartupHook l (map hooked_id (take i processors)) = None) \/
     (exists pre l post e,
        processors = (pre ++ l :: post)%list /\ err = Some e /\
        ran = map hooked_id (pre ++ [l]) /\
        StartupHook l (map hooked_id pre) = Some e /\
        forall i l', pre !! i = Some l' ->
          StartupHook l' (map hooked_id (take i pre)) = None)) /\
  (forall ran err,
     Shutdown processors = (ran, err) ->
     (err = None /\ ran = map hooked_id processors /\
      forall i l, processors !! i = Some l ->
        ShutdownHook l (map hooked_id (take i processors)) = None) \/
     (exists pre l post e,
        processors = (pre ++ l :: post)%list /\ err = Some e /\
        ran = map hooked_id (pre ++ [l]) /\
        ShutdownHook l (map hooked_id pre) = Some e /\
        forall i l', pre !! i = Some l' ->
          ShutdownHook l' (map hooked_id (take i pre)) = None)).
Proof.
  split; intros ran err Hrun;
    (apply runHooks_spec in Hrun
       as [(He & Hr & Hall) | (pre & l & post & e & Hp & He & Hr & Hl & Hpre)];
     [left; split; [exact He | split; [exact Hr | exact Hall]]
     | right; exists pre, l, post, e;
       split; [exact Hp | split; [exact He | split; [exact Hr | split;
         [exact Hl | exact Hpre]]]]]).
Qed.

End LifecycleProps.

Module KeyProps.
Import Imagor Observe.










End KeyProps.

(** ** What a run adds to the calls *)

Module AddsProps.
Import Imagor Observe Extra.
Import SaveProps.

Section Adds.
Variables (W : World) (app : Imagor) (P : list event -> Prop).
Hypothesis P_nil : P [].
Hypothesis P_app : forall l1 l2, P l1 -> P l2 -> P (l1 ++ l2)%list.

Lemma adds_still {A} (m : M A) :
  (forall st, calls (snd (m st)) = calls st) -> adds P m.
Proof. intros H st. exists []. rewrite H, app_nil_r. auto. Qed.

Lemma adds_ret {A} (a : A) : adds P (mret a : M A).
Proof. apply adds_still. reflexivity. Qed.

Lemma adds_bind {A B} (m : M A) (f : A -> M B) :
  adds P m -> (forall a, adds P (f a)) -> adds P (m ≫= f).
Proof.
  intros Hm Hf st. rewrite bind_run.
  destruct (Hm st) as (l1 & Hc1 & Hq1).
  destruct (m st) as ([a | |], st1); cbn [snd] in *; try solve [exists l1; auto].
  destruct (Hf a st1) as (l2 & Hc2 & Hq2).
  exists (l1 ++ l2)%list. rewrite Hc2, Hc1, <- app_assoc. auto.
Qed.

Lemma adds_when_log (b : bool) (l : level) (msg : string) : adds P (when b (log l msg)).
Proof. apply adds_still. intros st. destruct b; reflexivity. Qed.

Lemma adds_emit (e : event) : P [e] -> adds P (emit e).
Proof. intros He st. exists [e]. auto. Qed.

Hypothesis P_load : forall loader key, P [loadEvent key loader].

Lemma adds_loadLoop (key : string) (loaders : list Loader) :
  forall file origin err, adds P (loadLoop W app key loaders file origin err).
Proof.
  induction loaders as [| loader rest IH]; intros file origin err; cbn [loadLoop].
  - apply adds_ret.
  - apply adds_bind; [apply adds_still; reflexivity | intros h].
    apply adds_bind; [apply adds_emit; apply P_load | intros _].
    destruct (Load loader h key) as (f, [e |]).
    + apply adds_bind; [apply adds_when_log | intros _; apply IH].
    + apply adds_ret.
Qed.

Lemma adds_load (r : Context) (loaders : list Loader) (key : string) :
  adds P (load W app r loaders key).
Proof.
  unfold load. apply adds_bind; [apply adds_loadLoop | intros [[file origin] [e |]]].
  - destruct (negb (errorsIs e ECanceled)); [| apply adds_ret].
    apply adds_bind; [apply adds_still; reflexivity | intros _; apply adds_ret].
  - apply adds_bind; [apply adds_when_log | intros _; apply adds_ret].
Qed.

Lemma adds_acquire (ctx : Context) (key : string)
    (fn : Context -> M (option File * option error)) :
  (forall ctx', adds P (fn ctx')) -> adds P (acquire W app ctx key fn).
Proof.
  intros Hfn. unfold acquire.
  apply adds_bind; [apply adds_when_log | intros _].
  destruct (decide (key ∈ acquired ctx)); [apply Hfn |].
  apply adds_bind; [apply adds_still; reflexivity | intros g].
  destruct (decide (key ∈ g)).
  - apply adds_bind; [apply adds_still; reflexivity | intros h].
    destruct (ctxDone W h key); [apply adds_ret | apply adds_still; reflexivity].
  - apply adds_bind; [apply adds_still; reflexivity | intros _].
    apply adds_bind; [apply Hfn | intros res].
    apply adds_bind; [apply adds_still; reflexivity | intros g'].
    apply adds_bind; [apply adds_still; reflexivity | intros _].
    apply adds_bind; [apply adds_still; reflexivity | intros h].
    destruct (ctxDone W h key); apply adds_ret.
Qed.

Lemma adds_save (ctx : Context) (origin : option nat) (storages : list Storage)
    (key : string) (file : option File) :
  P (map (Fanout.saveEvent key file) (Fanout.targets origin storages)) ->
  adds P (save app ctx origin storages key file).
Proof.
  intros HP st.
  destruct (save_run app ctx origin storages key file st) as (st' & -> & Hc & _).
  cbn [snd]. eauto.
Qed.

Lemma adds_loadResult (r : Context) (key : string) :
  adds P (loadResult W app r key).
Proof.
  unfold loadResult. destruct (Nat.eqb (length (ResultLoaders app)) 0); [apply adds_ret |].
  apply adds_bind; [apply adds_load | intros [[file origin] err]; apply adds_ret].
Qed.

(** [loadStore] when every fan-out of a blob that is not empty is in [P]. *)
Hypothesis P_save : forall origin key file,
  IsFileEmpty file = false ->
  P (map (Fanout.saveEvent key file) (Fanout.targets origin (Storages app))).

Lemma adds_loadStore (r : Context) (key : string) : adds P (loadStore W app r key).
Proof.
  unfold loadStore. apply adds_acquire. intros ctx.
  apply adds_bind; [apply adds_load | intros [[file origin] err]].
  destruct (IsFileEmpty file) eqn:Hempty; [apply adds_ret |].
  apply adds_bind; [| intros _; apply adds_ret].
  unfold when. destruct (0 <? Z.of_nat (length (Storages app))); [| apply adds_ret].
  apply adds_save. apply P_save. exact Hempty.
Qed.

Lemma adds_runProcess (r : Context) (run : ProcRun) :
  adds P (runProcess (loadStore W app r) run).
Proof.
  induction run as [f e | image k IH]; cbn [runProcess].
  - apply adds_ret.
  - apply adds_bind; [apply adds_loadStore | intros res; apply IH].
Qed.

End Adds.

Lemma savesNonEmpty_app (l1 l2 : list event) :
  savesNonEmpty l1 -> savesNonEmpty l2 -> savesNonEmpty (l1 ++ l2).
Proof. apply Forall_app_2. Qed.

Lemma savesNonEmpty_fanout (origin : option nat) (key : string) (file : option File)
    (storages : list Storage) :
  IsFileEmpty file = false ->
  savesNonEmpty (map (Fanout.saveEvent key file) (Fanout.targets origin storages)).
Proof.
  intros Hfile. apply Forall_forall. intros e He.
  apply list_elem_of_In, in_map_iff in He as (s & <- & _). exact Hfile.
Qed.

(** X3. Source write-back never stores an empty blob: in every run of
    [loadStore], whatever the loaders answer, every [Save] call made has a
    blob that is not empty. *)
Theorem loadStore_saves_no_empty_blob (W : World) (app : Imagor) (r : Context)
    (key : string) (st : St) :
  exists l,
    calls (snd (loadStore W app r key st)) = (calls st ++ l)%list /\
    savesNonEmpty l.
Proof.
  apply (adds_loadStore W app savesNonEmpty).
  - constructor.
  - apply savesNonEmpty_app.
  - intros loader k. repeat constructor.
  - intros origin k file. apply savesNonEmpty_fanout.
Qed.

End AddsProps.

(** ** Loads, cache hits and write-back *)

Module StoreProps.
Import Imagor Observe Extra.
Import SaveProps LoadProps PassProps DoProps.

(** The loop on a list of loaders that all answer with errors. *)
Lemma loadLoop_all_fail (W : World) (app : Imagor) (key : string)
    (pre : list Loader) (l : Loader) (fl : option File) (e : error) :
  forall (st : St) (file : option File) (origin : option nat) (err : option error),
    (forall i l', pre !! i = Some l' ->
       exists e', snd (Load l' (calls st ++ map (loadEvent key) (take i pre)) key)
                  = Some e') ->
    Load l (calls st ++ map (loadEvent key) pre) key = (fl, Some e) ->
    exists file' st',
      loadLoop W app key (pre ++ [l]) file origin err st =
        (Returned (file', origin, Some e), st') /\
      calls st' = (calls st ++ map (loadEvent key) (pre ++ [l]))%list /\
      flights st' = flights st.
Proof.
  induction pre as [| x pre IH]; intros st file origin err Hpre Hl.
  - cbn in Hl. rewrite app_nil_r in Hl. cbn [List.app].
    destruct (loadLoop_error W app key l [] file origin err st fl e Hl)
      as (st1 & Hc & Hf & ->).
    cbn [loadLoop]. eexists _, st1. split; [reflexivity | split; assumption].
  - destruct (Hpre 0%nat x eq_refl) as (ex & He). cbn in He. rewrite app_nil_r in He.
    destruct (Load x (calls st) key) as (fx, ex') eqn:HLx. cbn in He. subst ex'.
    cbn [List.app].
    destruct (loadLoop_error W app key x (pre ++ [l]) file origin err st fx ex HLx)
      as (st1 & Hc & Hf & ->).
    destruct (IH st1 (if negb (IsFileEmpty fx) then fx else file) origin (Some ex))
      as (file' & st' & Hrun & Hc' & Hf').
    + intros i l' Hi. rewrite Hc, <- app_assoc. exact (Hpre (S i) l' Hi).
    + rewrite Hc, <- app_assoc. exact Hl.
    + exists file', st'. split; [exact Hrun | split; [| congruence]].
      rewrite Hc', Hc, <- app_assoc. reflexivity.
Qed.

(** X4. When every loader answers with an error, [load] calls each loader
    once, in order, and returns the error of the last one and no origin: as
    it is when it is a cancellation, as [ErrNotFound] when it is [ErrPass],
    and as it is otherwise. The errors of the loaders before the last are
    dropped. *)
Theorem load_returns_last_error (W : World) (app : Imagor) (r : Context)
    (key : string) (pre : list Loader) (l : Loader) (fl : option File)
    (e : error) (st : St) :
  (forall i l', pre !! i = Some l' ->
     exists e', snd (Load l' (calls st ++ map (loadEvent key) (take i pre)) key)
                = Some e') ->
  Load l (calls st ++ map (loadEvent key) pre) key = (fl, Some e) ->
  exists file st',
    load W app r (pre ++ [l]) key st =
      (Returned (file, None,
                 Some (if errorsIs e ECanceled then e
                       else if isErr e (ErrPass (passCode W))
                            then EImagor ErrNotFound else e)), st') /\
    calls st' = (calls st ++ map (loadEvent key) (pre ++ [l]))%list.
Proof.
  intros Hpre Hl.
  destruct (loadLoop_all_fail W app key pre l fl e st None None None Hpre Hl)
    as (file & st1 & Hloop & Hc & _).
  destruct (load_of_loop W app r (pre ++ [l]) key st st1 file None (Some e) Hloop)
    as (st' & Hc' & _ & Hrun).
  exists file, st'. split; [| congruence].
  rewrite Hrun. destruct (errorsIs e ECanceled); reflexivity.
Qed.

Lemma load_returns_last_error_witness :
  exists file st',
    load Scenario.world (Scenario.newApp [] [] [] [] []) Scenario.ctx0
      [Scenario.GoneLoader; Scenario.PassLoader] "foo.jpg" Scenario.st0 =
      (Returned (file, None, Some (EImagor ErrNotFound)), st') /\
    calls st' = [EvLoad 5 "foo.jpg"; EvLoad 4 "foo.jpg"].
Proof.
  destruct (load_returns_last_error Scenario.world (Scenario.newApp [] [] [] [] [])
              Scenario.ctx0 "foo.jpg" [Scenario.GoneLoader] Scenario.PassLoader
              None (EImagor (ErrPass 400)) Scenario.st0)
    as (file & st' & Hrun & Hcalls).
  - intros i l' Hi. destruct i as [| i]; cbn in Hi; try discriminate Hi.
    injection Hi as <-. eexists. reflexivity.
  - reflexivity.
  - exists file, st'. split; [exact Hrun | exact Hcalls].
Defined.

Lemma savesTo_app (id : nat) (l1 l2 : list event) :
  Fanout.savesTo id (l1 ++ l2) = (Fanout.savesTo id l1 + Fanout.savesTo id l2)%nat.
Proof. unfold Fanout.savesTo. rewrite List.filter_app, length_app. reflexivity. Qed.

Lemma savesTo_loads (id : nat) (key : string) (loaders : list Loader) :
  Fanout.savesTo id (map (loadEvent key) loaders) = 0%nat.
Proof. induction loaders as [| x xs IH]; [reflexivity | exact IH]. Qed.

(** [load] on a chain whose first loader without error has a blob. *)
Lemma load_hit (W : World) (app : Imagor) (r : Context) (key : string)
    (pre : list Loader) (l : Loader) (post : list Loader) (f : option File) (st : St) :
  (forall i l', pre !! i = Some l' ->
     exists e, snd (Load l' (calls st ++ map (loadEvent key) (take i pre)) key)
               = Some e) ->
  Load l (calls st ++ map (loadEvent key) pre) key = (f, None) ->
  IsFileEmpty f = false ->
  exists st',
    load W app r (pre ++ l :: post) key st =
      (Returned (f, if loader_store l then Some (loader_id l) else None, None), st') /\
    calls st' = (calls st ++ map (loadEvent key) (pre ++ [l]))%list.
Proof.
  intros Hpre Hl Hf.
  destruct (loadLoop_first_success W app key pre l post f st None None None Hpre Hl)
    as (file & st1 & Hloop & Hc & _ & Hfile).
  rewrite (Hfile Hf) in Hloop.
  destruct (load_of_loop W app r (pre ++ l :: post) key st st1 f _ None Hloop)
    as (st' & Hc' & _ & Hrun).
  exists st'. split; [exact Hrun | congruence].
Qed.

(** X5. A hit in the result loaders ends the request: when the signature is
    accepted and the first result loader that answers without error has a
    blob that is not empty, [Do] returns that blob without error, and the
    calls made are the calls to the result loaders up to that one; no
    source loader, no storage and no processor is called. *)
Theorem result_hit_ends_request (W : World) (app : Imagor) (r : Context)
    (p : imagorpath.Params) (pre : list Loader) (l : Loader) (post : list Loader)
    (f : option File) (st : St) :
  let key := "res:" +:+ resultKey p in
  signatureOk W app p = true ->
  runsFn r key st = true ->
  (forall h, ctxDone W h key = None) ->
  ResultLoaders app = (pre ++ l :: post)%list ->
  (forall i l', pre !! i = Some l' ->
     exists e,
       snd (Load l' (calls st ++ map (loadEvent (resultKey p)) (take i pre))
              (resultKey p)) = Some e) ->
  Load l (calls st ++ map (loadEvent (resultKey p)) pre) (resultKey p) = (f, None) ->
  IsFileEmpty f = false ->
  exists st',
    Do W app r p st = (Returned (f, None), st') /\
    calls st' = (calls st ++ map (loadEvent (resultKey p)) (pre ++ [l]))%list.
Proof.
  intros key Hsig Hruns Hdone HRL Hpre Hl Hf.
  pose proof (calls_fnState app r key st) as Hcs.
  destruct (load_hit W app r (resultKey p) pre l post f (fnState app r key st))
    as (st1 & Hload & Hc1); [rewrite Hcs; exact Hpre | rewrite Hcs; exact Hl | exact Hf |].
  assert (Hfn : doResult W app r p (resultKey p) (fnContext r key) (fnState app r key st)
                = (Returned (f, None), st1)).
  { unfold doResult, loadResult. rewrite HRL, length_app. cbn [length].
    replace (Nat.eqb (length pre + S (length post)) 0) with false
      by (symmetry; apply Nat.eqb_neq; lia).
    rewrite !bind_run, Hload. cbn. rewrite Hf. reflexivity. }
  destruct (acquire_returns W app r key (doResult W app r p (resultKey p)) st st1
              (f, None) Hruns Hfn Hdone) as (st' & Hacq & Hc').
  exists st'. split.
  - unfold Do. unfold signatureOk in Hsig. rewrite <- negb_orb, Hsig. exact Hacq.
  - rewrite Hc', Hc1, Hcs. reflexivity.
Qed.

Lemma result_hit_ends_request_witness :
  let cache := mkLoader 9 false (fun _ _ => (Some Scenario.thumb, None)) in
  let app := Scenario.newApp [Scenario.S3Loader] [Scenario.S3] [cache]
               [Scenario.ResultStore] [Scenario.Thumbnailer] in
  let p := Parse Scenario.world "300x300/foo.jpg" in
  exists st',
    Do Scenario.world app Scenario.ctx0 p Scenario.st0 =
      (Returned (Some Scenario.thumb, None), st') /\
    calls st' = [EvLoad 9 "300x300/foo.jpg"].
Proof.
  intros cache app p.
  apply (result_hit_ends_request Scenario.world app Scenario.ctx0 p [] cache []
           (Some Scenario.thumb) Scenario.st0); try reflexivity.
  intros i l' Hi. destruct i; discriminate Hi.
Defined.

(** X6. Write-back after a source load: when the first source loader that
    answers without error has a blob that is not empty (and the save
    timeout is positive), [loadStore] returns that blob without error; the
    calls made are the calls to the loaders up to that one, then one [Save]
    call with the key and the blob on each source storage that is not that
    loader; the storages after the loader in the chain are not asked to
    load, and the loader itself, when it is also a storage, is not written
    to. *)
Theorem loadStore_writes_back (W : World) (app : Imagor) (r : Context)
    (image : string) (pre : list Loader) (l : Loader) (post : list Loader)
    (f : option File) (st : St) :
  let key := "img:" +:+ image in
  let origin := if loader_store l then Some (loader_id l) else None in
  runsFn r key st = true ->
  (forall h, ctxDone W h key = None) ->
  0 < SaveTimeout app ->
  Loaders app = (pre ++ l :: post)%list ->
  (forall i l', pre !! i = Some l' ->
     exists e,
       snd (Load l' (calls st ++ map (loadEvent image) (take i pre)) image) = Some e) ->
  Load l (calls st ++ map (loadEvent image) pre) image = (f, None) ->
  IsFileEmpty f = false ->
  exists st',
    loadStore W app r image st = (Returned (f, None), st') /\
    calls st' =
      (calls st ++ map (loadEvent image) (pre ++ [l]) ++
       map (Fanout.saveEvent image f) (Fanout.targets origin (Storages app)))%list /\
    (forall s, In s (Storages app) -> sameObject s origin = true ->
               Fanout.savesTo (storage_id s) (calls st') =
               Fanout.savesTo (storage_id s) (calls st)).
Proof.
  intros key origin Hruns Hdone Hto HL Hpre Hl Hf. subst origin.
  set (origin := if loader_store l then Some (loader_id l) else None) in *.
  pose proof (calls_fnState app r key st) as Hcs.
  destruct (load_hit W app (fnContext r key) image pre l post f (fnState app r key st))
    as (st1 & Hload & Hc1); [rewrite Hcs; exact Hpre | rewrite Hcs; exact Hl | exact Hf |].
  destruct (save_run app (fnContext r key) origin (Storages app) image f st1)
    as (st2 & Hsave & Hc2 & _).
  assert ((SaveTimeout app >? 0) = true) as Hgt by lia. rewrite Hgt in Hsave.
  unfold loadStore. fold key.
  match goal with |- context [acquire W app r key ?F st] => set (fn := F) end.
  assert (Hfn : exists st3,
            fn (fnContext r key) (fnState app r key st) = (Returned (f, None), st3) /\
            calls st3 = (calls st1 ++ map (Fanout.saveEvent image f)
                                        (Fanout.targets origin (Storages app)))%list).
  { unfold fn. rewrite HL, bind_run, Hload. cbn [fst snd]. rewrite Hf, bind_run.
    destruct (Storages app) as [| s rest] eqn:HS.
    - exists st1. cbn. rewrite app_nil_r. auto.
    - assert ((0 <? Z.of_nat (length (s :: rest))) = true) as ->
        by (apply Z.ltb_lt; cbn [length]; lia).
      unfold when. fold origin. rewrite Hsave. exists st2. auto. }
  destruct Hfn as (st3 & Hfn & Hc3).
  destruct (acquire_returns W app r key fn st st3 (f, None) Hruns Hfn Hdone)
    as (st' & Hacq & Hc').
  exists st'. split; [exact Hacq | split].
  - rewrite Hc', Hc3, Hc1, Hcs, <- app_assoc. reflexivity.
  - intros s Hin Hsame. rewrite Hc', Hc3, Hc1, Hcs.
    rewrite !savesTo_app, savesTo_loads, FanoutProps.savesTo_map,
      FanoutProps.entries_targets, Hsame. lia.
Qed.

(** Loaders and storages are the stores [S3] and [FS]; the request hits
    [S3]: [Save] is called on [FS] only. *)
Lemma loadStore_writes_back_witness :
  let app := Scenario.newApp [Scenario.S3Loader; Scenario.FSLoader]
               [Scenario.S3; Scenario.FS] [] [] [] in
  exists st',
    loadStore Scenario.world app Scenario.ctx0 "foo.jpg" Scenario.st0 =
      (Returned (Some Scenario.blob, None), st') /\
    calls st' = [EvLoad 1 "foo.jpg"; EvSave 2 "foo.jpg" (Some Scenario.blob)].
Proof.
  intros app.
  destruct (loadStore_writes_back Scenario.world app Scenario.ctx0 "foo.jpg" []
              Scenario.S3Loader [Scenario.FSLoader] (Some Scenario.blob) Scenario.st0)
    as (st' & Hrun & Hcalls & _); try reflexivity.
  - intros i l' Hi. destruct i; discriminate Hi.
  - exists st'. split; [exact Hrun | exact Hcalls].
Defined.

End StoreProps.

(** ** What [Do] returns *)

Module ReturnProps.
Import Imagor Observe Extra.
Import SaveProps PassProps.

Lemma yields_ret {A} (Q : A -> Prop) (a : A) : Q a -> yields Q (mret a : M A).
Proof. intros Ha st a' st' [= <- _]. exact Ha. Qed.

Lemma yields_bind {A B} (Q' : A -> Prop) (Q : B -> Prop) (m : M A) (f : A -> M B) :
  yields Q' m -> (forall a, Q' a -> yields Q (f a)) -> yields Q (m ≫= f).
Proof.
  intros Hm Hf st b st'. rewrite bind_run.
  destruct (m st) as ([a | |], st1) eqn:Hrun; try discriminate.
  intros Hfa. exact (Hf a (Hm st a st1 Hrun) st1 b st' Hfa).
Qed.

Lemma yields_any {A} (m : M A) : yields (fun _ => True) m.
Proof. intros st a st' _. exact I. Qed.

Section NoPass.
Variables (W : World) (app : Imagor).

Abbreviation notPass := (Extra.notPass W).

Hypothesis Hctx : forall h key e,
  ctxDone W h key = Some e -> e <> EImagor (ErrPass (passCode W)).

Lemma load_notPass (r : Context) (loaders : list Loader) (key : string) :
  yields (fun res => notPass (snd res)) (load W app r loaders key).
Proof.
  intros st [[f o] e] st' Hload. cbn [snd]. unfold Extra.notPass.
  destruct (load_inv W app r loaders key st st' f o e Hload) as (err & st1 & _ & ->).
  destruct err as [e0 |]; [| discriminate].
  destruct (errorsIs e0 ECanceled) eqn:Hc; cbn [negb].
  - intros [= He0]. subst e0. rewrite errorsIs_Pass_Canceled in Hc. discriminate.
  - destruct (isErr e0 (ErrPass (passCode W))) eqn:Hp.
    + discriminate.
    + intros [= He0]. subst e0.
      rewrite (proj2 (isErr_true _ _) eq_refl) in Hp. discriminate.
Qed.

Lemma acquire_notPass (ctx : Context) (key : string)
    (fn : Context -> M (option File * option error)) :
  (forall ctx', yields (fun res => notPass (snd res)) (fn ctx')) ->
  yields (fun res => notPass (snd res)) (acquire W app ctx key fn).
Proof.
  intros Hfn. unfold acquire.
  apply (yields_bind (fun _ => True)); [apply yields_any | intros _ _].
  destruct (decide (key ∈ acquired ctx)); [apply Hfn |].
  apply (yields_bind (fun _ => True)); [apply yields_any | intros g _].
  destruct (decide (key ∈ g)).
  - apply (yields_bind (fun _ => True)); [apply yields_any | intros h _].
    destruct (ctxDone W h key) as [e0 |] eqn:Hd.
    + apply yields_ret. cbn. intros [= He]. exact (Hctx h key _ Hd He).
    + intros st a st' H. discriminate H.
  - apply (yields_bind (fun _ => True)); [apply yields_any | intros _ _].
    apply (yields_bind (fun res => notPass (snd res))); [apply Hfn | intros res Hres].
    apply (yields_bind (fun _ => True)); [apply yields_any | intros g' _].
    apply (yields_bind (fun _ => True)); [apply yields_any | intros _ _].
    apply (yields_bind (fun _ => True)); [apply yields_any | intros h _].
    destruct (ctxDone W h key) as [e0 |] eqn:Hd.
    + apply yields_ret. cbn. intros [= He]. exact (Hctx h key _ Hd He).
    + apply yields_ret. exact Hres.
Qed.

Lemma loadStore_notPass (r : Context) (key : string) :
  yields (fun res => notPass (snd res)) (loadStore W app r key).
Proof.
  unfold loadStore. apply acquire_notPass. intros ctx.
  apply (yields_bind (fun res => notPass (snd res))); [apply load_notPass |].
  intros [[file origin] err] Herr. cbn [snd] in Herr.
  destruct (IsFileEmpty file); [apply yields_ret; exact Herr |].
  apply (yields_bind (fun _ => True)); [apply yields_any | intros _ _].
  apply yields_ret. exact Herr.
Qed.

Lemma loadResult_notPass (r : Context) (key : string) :
  yields (fun res => notPass (snd res)) (loadResult W app r key).
Proof.
  unfold loadResult. destruct (Nat.eqb (length (ResultLoaders app)) 0).
  - apply yields_ret. discriminate.
  - apply (yields_bind (fun res => notPass (snd res))); [apply load_notPass |].
    intros [[file origin] err] Herr. apply yields_ret. exact Herr.
Qed.

(** The loop over the processors keeps an error that is not [ErrPass]. *)
Lemma processLoop_notPass (r : Context) (p : imagorpath.Params)
    (processors : list Processor) :
  forall file err, notPass err ->
    yields (fun res => notPass (snd res)) (processLoop W app r p processors file err).
Proof.
  induction processors as [| processor rest IH]; intros file err Herr; cbn [processLoop].
  - apply yields_ret. exact Herr.
  - apply (yields_bind (fun _ => True)); [apply yields_any | intros [f [e |]] _].
    + destruct (isErr e (ErrPass (passCode W))) eqn:Hp.
      * apply (yields_bind (fun _ => True)); [apply yields_any | intros _ _].
        apply IH. exact Herr.
      * assert (He : notPass (Some e)).
        { intros [= He]. subst e.
          rewrite (proj2 (isErr_true _ _) eq_refl) in Hp. discriminate. }
        apply (yields_bind (fun _ => True)); [apply yields_any | intros _ _].
        destruct (errorsIs e EDeadlineExceeded); [apply yields_ret; exact He |].
        apply IH. exact He.
    + apply (yields_bind (fun _ => True)); [apply yields_any | intros _ _].
      apply yields_ret. discriminate.
Qed.

Lemma doResult_notPass (r : Context) (p : imagorpath.Params) (key : string)
    (ctx : Context) :
  yields (fun res => notPass (snd res)) (doResult W app r p key ctx).
Proof.
  unfold doResult.
  apply (yields_bind (fun res => notPass (snd res))); [apply loadResult_notPass |].
  intros [file err] Herr. cbn [snd] in Herr.
  destruct ((if err is None then true else false) && negb (IsFileEmpty file));
    [apply yields_ret; exact Herr |].
  apply (yields_bind (fun res => notPass (snd res))); [apply loadStore_notPass |].
  intros [file' [e |]] Herr'; cbn [snd] in Herr'.
  - apply (yields_bind (fun _ => True)); [apply yields_any | intros _ _].
    apply yields_ret. exact Herr'.
  - destruct (IsFileEmpty file'); [apply yields_ret; exact Herr' |].
    apply (yields_bind (fun res => notPass (snd res)));
      [apply processLoop_notPass; discriminate |].
    intros [f3 e3] H3.
    apply (yields_bind (fun _ => True)); [apply yields_any | intros _ _].
    apply yields_ret. exact H3.
Qed.

End NoPass.

(** X7. [Do] never returns [ErrPass]: as long as the error of a done
    context is not [ErrPass], the error of a request, whether it comes from
    the signature check, the loaders, the processors or the context, is an
    error other than [ErrPass]. A pass of a processor is never reported: it
    leaves the error as it was. *)
Theorem Do_never_returns_pass (W : World) (app : Imagor) (r : Context)
    (p : imagorpath.Params) (st st' : St) (f : option File) (e : error) :
  (forall h key e', ctxDone W h key = Some e' -> e' <> EImagor (ErrPass (passCode W))) ->
  Do W app r p st = (Returned (f, Some e), st') ->
  e <> EImagor (ErrPass (passCode W)).
Proof.
  intros Hctx HDo He. subst e. revert HDo. unfold Do.
  destruct (negb (Unsafe app && imagorpath.Unsafe p) &&
            negb (String.eqb (Sign W (imagorpath.Path p) (Secret app))
                    (imagorpath.Hash p))).
  - rewrite bind_run.
    destruct (when_calls (Debug app) LDebug "sign-mismatch" st) as (st1 & -> & _).
    discriminate.
  - intros HDo.
    pose proof (acquire_notPass W app Hctx r _ _
                  (doResult_notPass W app Hctx r p _) st _ st' HDo) as H.
    apply H. reflexivity.
Qed.

(** The only loader passes and the only processor passes too: the request
    ends with [ErrNotFound]. *)
Lemma Do_never_returns_pass_witness :
  let app := Scenario.newApp [Scenario.PassLoader] [] [] [] [Scenario.PassProcessor] in
  let p := Parse Scenario.world "foo.jpg" in
  fst (Do Scenario.world app Scenario.ctx0 p Scenario.st0) =
    Returned (None, Some (EImagor ErrNotFound)) /\
  EImagor ErrNotFound <> EImagor (ErrPass (passCode Scenario.world)).
Proof.
  intros app p. split; [vm_compute; reflexivity |].
  apply (Do_never_returns_pass Scenario.world app Scenario.ctx0 p Scenario.st0
           (snd (Do Scenario.world app Scenario.ctx0 p Scenario.st0)) None).
  - intros h key e' H. discriminate H.
  - vm_compute. reflexivity.
Defined.

End ReturnProps.

(** ** The order of the processors *)

Module OrderProps.
Import Imagor Observe Extra.
Import SaveProps.

Lemma processed_app (l1 l2 : list event) :
  processed (l1 ++ l2) = (processed l1 ++ processed l2)%list.
Proof.
  induction l1 as [| e l1 IH]; [reflexivity |].
  destruct e; cbn; rewrite IH; reflexivity.
Qed.

Lemma processed_saves (key : string) (file : option File) (storages : list Storage) :
  processed (map (Fanout.saveEvent key file) storages) = [].
Proof. induction storages as [| s rest IH]; [reflexivity | exact IH]. Qed.

(** A bind whose two parts add events of different kinds. *)
Lemma adds_bind2 {A B} (P Q R : list event -> Prop) (m : M A) (f : A -> M B) :
  adds P m -> (forall a, adds Q (f a)) ->
  (forall l1, P l1 -> R l1) ->
  (forall l1 l2, P l1 -> Q l2 -> R (l1 ++ l2)%list) ->
  adds R (m ≫= f).
Proof.
  intros Hm Hf HPR HPQR st. rewrite bind_run.
  destruct (Hm st) as (l1 & Hc1 & Hq1).
  destruct (m st) as ([a | |], st1); cbn [snd] in *; try solve [exists l1; auto].
  destruct (Hf a st1) as (l2 & Hc2 & Hq2).
  exists (l1 ++ l2)%list. rewrite Hc2, Hc1, <- app_assoc. auto.
Qed.

Lemma adds_silent {A} (m : M A) :
  (forall st, calls (snd (m st)) = calls st) -> adds (fun l => l = []) m.
Proof. intros H st. exists []. rewrite H, app_nil_r. auto. Qed.

(** Silent steps before a computation. *)
Lemma adds_after {A B} (Q : list event -> Prop) (m : M A) (f : A -> M B) :
  Q [] -> (forall st, calls (snd (m st)) = calls st) ->
  (forall a, adds Q (f a)) -> adds Q (m ≫= f).
Proof.
  intros HQ Hm Hf.
  apply (adds_bind2 (fun l => l = []) Q); [apply adds_silent, Hm | exact Hf | |].
  - intros l1 ->. exact HQ.
  - intros l1 l2 -> H2. exact H2.
Qed.

(** Silent steps after a computation. *)
Lemma adds_before {A B} (Q : list event -> Prop) (m : M A) (f : A -> M B) :
  adds Q m -> (forall a st, calls (snd (f a st)) = calls st) -> adds Q (m ≫= f).
Proof.
  intros Hm Hf.
  apply (adds_bind2 Q (fun l => l = [])); [exact Hm | intros a; apply adds_silent, Hf | auto |].
  intros l1 l2 H1 ->. rewrite app_nil_r. exact H1.
Qed.

Lemma silent_when_log (b : bool) (l : level) (msg : string) (st : St) :
  calls (snd (when b (log l msg) st)) = calls st.
Proof. destruct b; reflexivity. Qed.

(** [acquire] adds what its function adds, or nothing. *)
Lemma adds_acquire_once (W : World) (app : Imagor) (Q : list event -> Prop)
    (ctx : Context) (key : string) (fn : Context -> M (option File * option error)) :
  Q [] -> (forall ctx', adds Q (fn ctx')) -> adds Q (acquire W app ctx key fn).
Proof.
  intros HQ Hfn. unfold acquire.
  apply adds_after; [exact HQ | apply silent_when_log | intros _].
  destruct (decide (key ∈ acquired ctx)); [apply Hfn |].
  apply adds_after; [exact HQ | reflexivity | intros g].
  destruct (decide (key ∈ g)).
  - apply adds_after; [exact HQ | reflexivity | intros h].
    apply AddsProps.adds_still; [exact HQ | intros st].
    destruct (ctxDone W h key); reflexivity.
  - apply adds_after; [exact HQ | reflexivity | intros _].
    apply adds_before; [apply Hfn | intros res st].
    unfold mbind, M_bind, getFlights, setFlights, history. cbn.
    match goal with |- context [ctxDone W ?h key] => destruct (ctxDone W h key) end;
      reflexivity.
Qed.

Section Order.
Variables (W : World) (app : Imagor).

Abbreviation none := (fun l : list event => processed l = []).

Lemma none_app (l1 l2 : list event) : none l1 -> none l2 -> none (l1 ++ l2)%list.
Proof. cbv beta. intros H1 H2. rewrite processed_app, H1, H2. reflexivity. Qed.

Lemma none_loadStore (r : Context) (key : string) : adds none (loadStore W app r key).
Proof.
  apply AddsProps.adds_loadStore; [reflexivity | apply none_app | reflexivity |].
  intros origin k file _. apply processed_saves.
Qed.

Lemma none_loadResult (r : Context) (key : string) : adds none (loadResult W app r key).
Proof.
  apply AddsProps.adds_loadResult; [reflexivity | apply none_app | reflexivity].
Qed.

Lemma none_runProcess (r : Context) (run : ProcRun) :
  adds none (runProcess (loadStore W app r) run).
Proof.
  apply AddsProps.adds_runProcess; [reflexivity | apply none_app | reflexivity |].
  intros origin k file _. apply processed_saves.
Qed.

Lemma one_callProcess (r : Context) (processor : Processor) (file : option File)
    (p : imagorpath.Params) :
  adds (fun l => processed l = [processor_id processor])
    (callProcess W app r processor file p).
Proof.
  intros st.
  set (st1 := {| calls := (calls st ++ [EvProcess (processor_id processor) file p])%list;
                 logs := logs st; flights := flights st |}).
  change (callProcess W app r processor file p st)
    with (runProcess (loadStore W app r) (Process processor (calls st) file p) st1).
  destruct (none_runProcess r (Process processor (calls st) file p) st1)
    as (l & Hl & Hnone).
  exists (EvProcess (processor_id processor) file p :: l).
  split; [rewrite Hl; cbn [calls st1]; rewrite <- app_assoc; reflexivity |].
  cbn. rewrite Hnone. reflexivity.
Qed.

Abbreviation firsts processors :=
  (fun l : list event => exists n, processed l = take n (map processor_id processors)).

Lemma firsts_nil processors : firsts processors [].
Proof. exists 0%nat. reflexivity. Qed.

Lemma firsts_none processors (l1 l2 : list event) :
  none l1 -> firsts processors l2 -> firsts processors (l1 ++ l2)%list.
Proof. cbv beta. intros H1 [n H2]. exists n. rewrite processed_app, H1, H2. reflexivity. Qed.

Lemma firsts_then_none processors (l1 l2 : list event) :
  firsts processors l1 -> none l2 -> firsts processors (l1 ++ l2)%list.
Proof.
  cbv beta. intros [n H1] H2. exists n. rewrite processed_app, H1, H2, app_nil_r.
  reflexivity.
Qed.

Lemma firsts_processLoop (r : Context) (p : imagorpath.Params)
    (processors : list Processor) :
  forall file err,
    adds (firsts processors) (processLoop W app r p processors file err).
Proof.
  induction processors as [| processor rest IH]; intros file err; cbn [processLoop].
  - apply AddsProps.adds_still; [apply firsts_nil | reflexivity].
  - apply (adds_bind2 (fun l => processed l = [processor_id processor]) (firsts rest));
      [apply one_callProcess | | |].
    + intros [f [e |]].
      * destruct (isErr e (ErrPass (passCode W))).
        -- apply adds_after; [apply firsts_nil | apply silent_when_log | intros _; apply IH].
        -- apply adds_after; [apply firsts_nil | reflexivity | intros _].
           destruct (errorsIs e EDeadlineExceeded);
             [apply AddsProps.adds_still; [apply firsts_nil | reflexivity] | apply IH].
      * apply AddsProps.adds_still; [apply firsts_nil |].
        intros st. rewrite bind_run. unfold when.
        destruct (Debug app); [destruct f |]; reflexivity.
    + intros l1 H1. exists 1%nat. exact H1.
    + intros l1 l2 H1 [n H2]. exists (S n). rewrite processed_app, H1, H2. reflexivity.
Qed.

Lemma firsts_doResult (r : Context) (p : imagorpath.Params) (key : string)
    (ctx : Context) :
  adds (firsts (Processors app)) (doResult W app r p key ctx).
Proof.
  unfold doResult.
  apply (adds_bind2 none (firsts (Processors app)));
    [apply none_loadResult | | intros l1 H1; exists 0%nat; exact H1 | apply firsts_none].
  intros [file err].
  destruct ((if err is None then true else false) && negb (IsFileEmpty file));
    [apply AddsProps.adds_still; [apply firsts_nil | reflexivity] |].
  apply (adds_bind2 none (firsts (Processors app)));
    [apply none_loadStore | | intros l1 H1; exists 0%nat; exact H1 | apply firsts_none].
  intros [file' [e |]]; [apply AddsProps.adds_still; [apply firsts_nil | reflexivity] |].
  destruct (IsFileEmpty file');
    [apply AddsProps.adds_still; [apply firsts_nil | reflexivity] |].
  apply (adds_bind2 (firsts (Processors app)) none);
    [apply firsts_processLoop | | auto | apply firsts_then_none].
  intros [f e].
  apply AddsProps.adds_bind; [apply none_app | |
                              intros _; apply AddsProps.adds_ret; reflexivity].
  unfold when.
  destruct ((if e is None then true else false) &&
            (0 <? Z.of_nat (length (ResultStorages app))));
    [| apply AddsProps.adds_ret; reflexivity].
  apply AddsProps.adds_save. apply processed_saves.
Qed.

End Order.

(** X8. Processors run in the configured order: in every run of [Do] the
    processors called are, in the order of the calls, the first [n] of
    [app.Processors] for some [n]. Each is called at most once, none is
    skipped, and none is called again once the loop is over. *)
Theorem processors_called_in_order (W : World) (app : Imagor) (r : Context)
    (p : imagorpath.Params) (st : St) :
  exists n,
    processed (calls (snd (Do W app r p st))) =
      (processed (calls st) ++ take n (map processor_id (Processors app)))%list.
Proof.
  assert (Hdo : adds (fun l => exists n,
                        processed l = take n (map processor_id (Processors app)))
                  (Do W app r p)).
  { unfold Do.
    destruct (negb (Unsafe app && imagorpath.Unsafe p) &&
              negb (String.eqb (Sign W (imagorpath.Path p) (Secret app))
                      (imagorpath.Hash p))).
    - apply AddsProps.adds_still; [exists 0%nat; reflexivity |].
      intros st0. rewrite bind_run. unfold when. destruct (Debug app); reflexivity.
    - apply adds_acquire_once; [exists 0%nat; reflexivity |].
      intros ctx'. apply firsts_doResult. }
  destruct (Hdo st) as (l & Hl & n & Hn).
  exists n. rewrite Hl, processed_app, Hn. reflexivity.
Qed.

End OrderProps.

(** ** The keys in flight *)

Module FlightProps.
Import Imagor Observe Extra.
Import SaveProps.






Section Keeps.
Variables (W : World) (app : Imagor).









End Keeps.



End FlightProps.

(** ** The reply of [ServeHTTP] *)

Module ReplyProps.
Import Imagor Observe Extra.

Lemma header_WriteHeader (code : Z) (w : ResponseWriter) :
  header (WriteHeader code w) = header w.
Proof. unfold WriteHeader. destruct (wroteHeader w); reflexivity. Qed.

Lemma header_Write (buf : list Byte.byte) (w : ResponseWriter) :
  header (Write buf w) = header w.
Proof. unfold Write. cbn. apply header_WriteHeader. Qed.

Lemma header_resJSON (W : World) (v : JSONValue) (w : ResponseWriter) (k : string) :
  k <> "Content-Type" -> k <> "Content-Length" ->
  header (resJSON W v w) !! k = header w !! k.
Proof.
  intros H1 H2. unfold resJSON. cbv zeta. rewrite header_Write. cbn.
  rewrite !lookup_insert_ne by congruence. reflexivity.
Qed.

(** The first block of [respond] changes [Content-Type] only. *)
Lemma respond_uncached (W : World) (app : Imagor) (p : imagorpath.Params)
    (file : option File) (err : option error) (w : ResponseWriter) (k : string) :
  k <> "Content-Type" -> k <> "Content-Length" ->
  (err <> None \/ metaReply p file <> None) ->
  header (respond W app p file err w) !! k = header w !! k.
Proof.
  intros H1 H2 Hcase. unfold respond, metaReply in *. cbv zeta.
  set (buf := readBuf file).
  assert (Hfirst : forall w1, header w1 !! k = header w !! k ->
            header (match err with
                    | Some err0 =>
                        match WrapError W err0 with
                        | Some e =>
                            if Z.of_nat (length buf) >? 0
                            then Write buf
                                   (HeaderSet "Content-Length"
                                      (pretty (Z.of_nat (length buf)))
                                      (WriteHeader (Code (shown W e)) w1))
                            else resJSON W (JError (shown W e))
                                   (WriteHeader (Code (shown W e)) w1)
                        | None => resJSON W (JError ErrInternal) w1
                        end
                    | None =>
                        Write buf
                          (WriteHeader 200
                             (HeaderSet "Content-Length" (pretty (Z.of_nat (length buf)))
                                (setCacheHeaders W (CacheHeaderTTL app) w1)))
                    end) !! k = header w !! k \/ err = None).
  { intros w1 Hw1. destruct err as [e |]; [left | right; reflexivity].
    destruct (WrapError W e) as [e' |].
    - destruct (Z.of_nat (length buf) >? 0).
      + rewrite header_Write. cbn. rewrite lookup_insert_ne by congruence.
        rewrite header_WriteHeader. exact Hw1.
      + rewrite header_resJSON, header_WriteHeader by assumption. exact Hw1.
    - rewrite header_resJSON by assumption. exact Hw1. }
  destruct file as [f |].
  - destruct (negb (IsFileEmpty (Some f))).
    + destruct (FileMeta f) as [m |].
      * destruct (imagorpath.Meta p).
        -- apply header_resJSON; assumption.
        -- destruct (Hfirst (HeaderSet "Content-Type" (ContentType m) w)) as [H | ->];
             [cbn; rewrite lookup_insert_ne by congruence; reflexivity | exact H |].
           destruct Hcase as [Hc | Hc]; contradiction.
      * destruct (Z.of_nat (length buf) >? 0).
        -- destruct (Hfirst (HeaderSet "Content-Type" (DetectContentType W buf) w))
             as [H | ->];
             [cbn; rewrite lookup_insert_ne by congruence; reflexivity | exact H |].
           destruct Hcase as [Hc | Hc]; contradiction.
        -- destruct (Hfirst w eq_refl) as [H | ->]; [exact H |].
           destruct Hcase as [Hc | Hc]; contradiction.
    + destruct (Hfirst w eq_refl) as [H | ->]; [exact H |].
      destruct Hcase as [Hc | Hc]; contradiction.
  - destruct (Hfirst w eq_refl) as [H | ->]; [exact H |].
    destruct Hcase as [Hc | Hc]; contradiction.
Qed.

(** X10. Only a success is given cache headers: when [Do] returned an
    error, or the reply is the JSON of the blob's [Meta], [ServeHTTP]
    leaves the headers [Cache-Control] and [Expires] of the response as
    they were. *)
Theorem errors_are_not_cached (W : World) (app : Imagor) (p : imagorpath.Params)
    (file : option File) (err : option error) (w : ResponseWriter) :
  err <> None \/ metaReply p file <> None ->
  header (respond W app p file err w) !! "Cache-Control" = header w !! "Cache-Control" /\
  header (respond W app p file err w) !! "Expires" = header w !! "Expires".
Proof.
  intros Hcase. split; apply respond_uncached; try exact Hcase; discriminate.
Qed.

(** A processing failure that comes with the source blob. *)
Lemma errors_are_not_cached_witness :
  let app := Scenario.newApp [] [] [] [] [] in
  let p := Scenario.crop100 EmptyString EmptyString false [] in
  let w' := respond Scenario.world app p (Some Scenario.blob)
              (Some (EImagor ErrNotFound)) newResponseWriter in
  header w' !! "Cache-Control" = None /\ header w' !! "Expires" = None /\
  status w' = Some 404.
Proof.
  intros app p w'.
  destruct (errors_are_not_cached Scenario.world app p (Some Scenario.blob)
              (Some (EImagor ErrNotFound)) newResponseWriter) as (H1 & H2);
    [left; discriminate |].
  split; [exact H1 | split; [exact H2 | reflexivity]].
Defined.

(** X11. The reply of a success: when [Do] returned no error and the reply
    is not the JSON of the blob's [Meta], a response whose status line is
    not yet written gets status 200, the bytes of the blob (none for an
    empty one) as its body, a [Content-Length] that is their number, and
    the [Cache-Control] of the configured TTL, all sent with the status
    line. *)
Theorem success_reply (W : World) (app : Imagor) (p : imagorpath.Params)
    (file : option File) (w : ResponseWriter) :
  wroteHeader w = None ->
  metaReply p file = None ->
  let w' := respond W app p file None w in
  status w' = Some 200 /\
  body w' = (body w ++ readBuf file)%list /\
  sent w' !! "Content-Length" = Some [pretty (Z.of_nat (length (readBuf file)))] /\
  sent w' !! "Cache-Control" =
    Some (default [] (header w !! "Cache-Control") ++
          [getCacheControl W (CacheHeaderTTL app)])%list.
Proof.
  intros Hfresh Hmeta w'.
  assert (Hrest : forall w1,
            wroteHeader w1 = None -> body w1 = body w ->
            header w1 !! "Cache-Control" = header w !! "Cache-Control" ->
            let w2 := Write (readBuf file)
                        (WriteHeader 200
                           (HeaderSet "Content-Length"
                              (pretty (Z.of_nat (length (readBuf file))))
                              (setCacheHeaders W (CacheHeaderTTL app) w1))) in
            status w2 = Some 200 /\
            body w2 = (body w ++ readBuf file)%list /\
            sent w2 !! "Content-Length" =
              Some [pretty (Z.of_nat (length (readBuf file)))] /\
            sent w2 !! "Cache-Control" =
              Some (default [] (header w !! "Cache-Control") ++
                    [getCacheControl W (CacheHeaderTTL app)])%list).
  { intros w1 Hw1 Hb Hh w2. subst w2.
    unfold Write, WriteHeader, HeaderSet, setCacheHeaders, HeaderAdd, status, sent.
    cbn. rewrite Hw1. cbn. rewrite Hb.
    split; [reflexivity | split; [reflexivity | split]].
    - rewrite lookup_insert_eq. reflexivity.
    - rewrite lookup_insert_ne by discriminate. rewrite lookup_insert_eq.
      rewrite lookup_insert_ne by discriminate. rewrite Hh. reflexivity. }
  subst w'. unfold respond, metaReply in *. cbv zeta.
  destruct file as [f |]; [| apply Hrest; auto].
  destruct (negb (IsFileEmpty (Some f))) eqn:Hne; [| apply Hrest; auto].
  destruct (FileMeta f) as [m |].
  - destruct (imagorpath.Meta p); [discriminate |].
    apply Hrest; [exact Hfresh | reflexivity |].
    cbn. rewrite lookup_insert_ne by discriminate. reflexivity.
  - destruct (Z.of_nat (length (readBuf (Some f))) >? 0); [| apply Hrest; auto].
    apply Hrest; [exact Hfresh | reflexivity |].
    cbn. rewrite lookup_insert_ne by discriminate. reflexivity.
Qed.

(** The reply to a request whose processor made a thumbnail. *)
Lemma success_reply_witness :
  let app := Scenario.newApp [] [] [] [] [] in
  let p := Scenario.crop100 EmptyString EmptyString false [] in
  let w' := respond Scenario.world app p (Some Scenario.thumb) None newResponseWriter in
  status w' = Some 200 /\
  body w' = ReadAll Scenario.thumb /\
  sent w' !! "Content-Length" = Some ["2"].
Proof.
  intros app p w'.
  destruct (success_reply Scenario.world app p (Some Scenario.thumb) newResponseWriter)
    as (H1 & H2 & H3 & _); [reflexivity | reflexivity |].
  split; [exact H1 | split; [exact H2 | exact H3]].
Defined.

End ReplyProps.

(** ** The fan-out of [save] ends *)

Module WaitProps.
Import Imagor Fanout Extra.

Section Wait.
Variables (app : Imagor) (h0 : list event) (origin : option nat)
          (key : string) (file : option File).

(** Every step of the function or of one of its goroutines uses up one of
    the steps left, or more. *)
Lemma step_stepsLeft (a : action) (s s' : state) :
  step app h0 origin key file a s = Some s' ->
  (stepsLeft s' < stepsLeft s)%nat.
Proof.
  unfold stepsLeft. destruct a as [| i | i |]; cbn [step]; intros Hstep.
  - destruct (at_pc s) as [[| storage rest] | | |]; try discriminate.
    + injection Hstep as <-. cbn. lia.
    + destruct (sameObject storage origin); injection Hstep as <-; cbn;
        rewrite ?length_app; cbn; lia.
  - destruct (started s !! i) as [storage |] eqn:Hi; [| discriminate].
    injection Hstep as <-. cbn [started finishing at_pc].
    assert (i < length (started s))%nat by (eapply lookup_lt_Some; eauto).
    rewrite length_delete, length_app by eauto. cbn. lia.
  - destruct (finishing s !! i) as [storage |] eqn:Hi; [| discriminate].
    injection Hstep as <-. cbn [started finishing at_pc].
    assert (i < length (finishing s))%nat by (eapply lookup_lt_Some; eauto).
    rewrite length_delete by eauto. lia.
  - destruct (at_pc s); try discriminate.
    destruct (Nat.eqb (wg s) 0); [| discriminate].
    injection Hstep as <-. cbn. destruct (SaveTimeout app >? 0); lia.
Qed.

Lemma run_stepsLeft (sched : list action) :
  forall s s',
    run app h0 origin key file sched s = Some s' ->
    (length sched + stepsLeft s' <= stepsLeft s)%nat.
Proof.
  induction sched as [| a rest IH]; intros s s' Hrun; cbn in Hrun.
  - injection Hrun as <-. cbn. lia.
  - destruct (step app h0 origin key file a s) as [s1 |] eqn:Hstep; [| discriminate].
    pose proof (step_stepsLeft _ _ _ Hstep). pose proof (IH _ _ Hrun). cbn [length]. lia.
Qed.

(** A state that keeps the invariant and is not past [wg.Wait()] has a
    step to make: the loop goes on, a goroutine calls [Save] or finishes,
    or the wait ends. *)
Lemma inv_progress (storages : list Storage) (s : state) :
  inv origin key file storages s -> terminal s = false ->
  exists a s', step app h0 origin key file a s = Some s'.
Proof.
  intros (Hwg & _ & _) Hterm. unfold terminal in Hterm.
  destruct (at_pc s) as [[| storage rest] | | |] eqn:Hpc; try discriminate.
  - exists Iterate. cbn. rewrite Hpc. eauto.
  - exists Iterate. cbn. rewrite Hpc. destruct (sameObject storage origin); eauto.
  - destruct (started s) as [| storage rest] eqn:Hst.
    + destruct (finishing s) as [| storage rest] eqn:Hfi.
      * exists Wait. cbn. rewrite Hpc, Hwg. cbn. eauto.
      * exists (Done 0). cbn. rewrite Hfi. cbn. eauto.
    + exists (CallSave 0). cbn. rewrite Hst. cbn. eauto.
Qed.

End Wait.

(** X12. [save] neither waits for ever nor runs for ever: under every
    schedule of its goroutines a run on [n] storages makes at most
    [3 * n + 2] steps, and as long as the function is not past
    [wg.Wait()] some step is enabled; so every run can be continued, and
    every run that cannot be continued has left [wg.Wait()]. *)
Theorem fanout_terminates (app : Imagor) (h0 : list event) (origin : option nat)
    (key : string) (file : option File) (storages : list Storage)
    (sched : list action) (s : state) :
  run app h0 origin key file sched (init storages) = Some s ->
  (length sched <= 3 * length storages + 2)%nat /\
  (terminal s = false -> exists a s', step app h0 origin key file a s = Some s') /\
  ((forall a, step app h0 origin key file a s = None) -> terminal s = true).
Proof.
  intros Hrun.
  pose proof (run_stepsLeft app h0 origin key file sched _ _ Hrun) as Hlen.
  pose proof (FanoutProps.fanout_inv_run app h0 origin key file storages sched _ _
                (FanoutProps.fanout_inv_init origin key file storages) Hrun) as Hinv.
  split; [unfold stepsLeft at 2 in Hlen; cbn in Hlen; lia | split].
  - intros Hterm. eapply inv_progress; eauto.
  - intros Hstuck. destruct (terminal s) eqn:Hterm; [reflexivity |].
    destruct (inv_progress app h0 origin key file storages s Hinv Hterm)
      as (a & s' & Hstep).
    rewrite Hstuck in Hstep. discriminate.
Qed.

(** A run on three storages stopped while one goroutine has still to call
    [Save] and one to finish. *)
Lemma fanout_terminates_witness :
  let app := Scenario.newApp [] [] [] [] [] in
  let storages := [Scenario.S3; Scenario.FS; Scenario.ResultStore] in
  let sched := [Iterate; Iterate; Iterate; CallSave 1; Iterate] in
  exists s,
    run app [] (Some 1%nat) "foo.jpg" (Some Scenario.blob) sched (init storages) = Some s /\
    terminal s = false /\
    (length sched <= 11)%nat /\
    exists a s', step app [] (Some 1%nat) "foo.jpg" (Some Scenario.blob) a s = Some s'.
Proof.
  intros app storages sched.
  destruct (run app [] (Some 1%nat) "foo.jpg" (Some Scenario.blob) sched (init storages))
    as [s |] eqn:Hrun; [| vm_compute in Hrun; discriminate Hrun].
  assert (Hterm : terminal s = false)
    by (vm_compute in Hrun; injection Hrun as <-; reflexivity).
  destruct (fanout_terminates app [] (Some 1%nat) "foo.jpg" (Some Scenario.blob)
              storages sched s Hrun) as (Hlen & Hstep & _).
  exists s. split; [reflexivity | split; [exact Hterm | split; [exact Hlen |]]].
  exact (Hstep Hterm).
Defined.

End WaitProps.

(** ** The scan of the filters and the load of the image *)

Module ScanProps.
Import imagorpath Vips VipsLoad.

Ltac decide_name f :=
  unfold scanFilter, stillFormat, specialFilter;
  destruct (String.eqb (Name f) "format") eqn:Hformat;
  [apply String.eqb_eq in Hformat; rewrite ?Hformat; cbn -[imageTypeMap] |
   destruct (String.eqb (Name f) "stretch") eqn:Hstretch;
   [apply String.eqb_eq in Hstretch; rewrite ?Hstretch; cbn -[imageTypeMap] |
    destruct (String.eqb (Name f) "upscale") eqn:Hupscale;
    [apply String.eqb_eq in Hupscale; rewrite ?Hupscale; cbn -[imageTypeMap] |
     destruct (String.eqb (Name f) "no_upscale") eqn:Hno;
     [apply String.eqb_eq in Hno; rewrite ?Hno; cbn -[imageTypeMap] |
      destruct (String.eqb (Name f) "fill") eqn:Hfill;
      [apply String.eqb_eq in Hfill; rewrite ?Hfill; cbn -[imageTypeMap] |
       destruct (String.eqb (Name f) "background_color") eqn:Hbg;
       [apply String.eqb_eq in Hbg; rewrite ?Hbg; cbn -[imageTypeMap] |
        destruct (String.eqb (Name f) "trim") eqn:Htrim;
        [apply String.eqb_eq in Htrim; rewrite ?Htrim; cbn -[imageTypeMap] | cbn -[imageTypeMap]]]]]]]].

Lemma maxN_scanFilter (fl : Flags) (f : Filter) :
  maxN (scanFilter fl f) = if stillFormat f then 1 else maxN fl.
Proof.
  decide_name f; try reflexivity.
  - destruct (imageTypeMap !! Args f) as [typ |]; [| reflexivity].
    cbn. destruct (negb (ImageType_eqb typ ImageTypeGIF) &&
                   negb (ImageType_eqb typ ImageTypeWEBP)); reflexivity.
  - destruct (String.eqb (firstField (Args f)) "auto"); reflexivity.
  - destruct (String.eqb (firstField (Args f)) "auto"); reflexivity.
Qed.

Lemma special_scanFilter (fl : Flags) (f : Filter) :
  special (scanFilter fl f) = special fl || specialFilter f.
Proof.
  decide_name f; rewrite ?orb_false_r, ?orb_true_r; try reflexivity.
  - destruct (imageTypeMap !! Args f) as [typ |]; reflexivity.
  - destruct (String.eqb (firstField (Args f)) "auto"); cbn;
      rewrite ?orb_false_r, ?orb_true_r; reflexivity.
  - destruct (String.eqb (firstField (Args f)) "auto"); cbn;
      rewrite ?orb_false_r, ?orb_true_r; reflexivity.
Qed.

Lemma upscale_scanFilter (fl : Flags) (f : Filter) :
  Name f <> "upscale" -> upscale fl = false -> upscale (scanFilter fl f) = false.
Proof.
  intros Hname Hfl. decide_name f; try assumption; try reflexivity.
  - destruct (imageTypeMap !! Args f) as [typ |]; assumption.
  - contradiction.
  - destruct (String.eqb (firstField (Args f)) "auto"); assumption.
  - destruct (String.eqb (firstField (Args f)) "auto"); assumption.
Qed.

Lemma maxN_scan (filters : list Filter) :
  forall fl,
    maxN (fold_left scanFilter filters fl) =
      if existsb stillFormat filters then 1 else maxN fl.
Proof.
  induction filters as [| f rest IH]; intros fl; cbn [fold_left existsb];
    [reflexivity |].
  rewrite IH, maxN_scanFilter.
  destruct (stillFormat f); cbn; [destruct (existsb stillFormat rest) |]; reflexivity.
Qed.

Lemma special_scan (filters : list Filter) :
  forall fl,
    special (fold_left scanFilter filters fl) =
      special fl || existsb specialFilter filters.
Proof.
  induction filters as [| f rest IH]; intros fl; cbn [fold_left existsb].
  - rewrite orb_false_r. reflexivity.
  - rewrite IH, special_scanFilter, orb_assoc. reflexivity.
Qed.

Lemma upscale_scan (filters : list Filter) :
  forall fl,
    (forall f, In f filters -> Name f <> "upscale") -> upscale fl = false ->
    upscale (fold_left scanFilter filters fl) = false.
Proof.
  induction filters as [| f rest IH]; intros fl Hnames Hfl; cbn [fold_left];
    [exact Hfl |].
  apply IH; [intros g Hg; apply Hnames; right; exact Hg |].
  apply upscale_scanFilter; [apply Hnames; left; reflexivity | exact Hfl].
Qed.

Lemma special_scanFilters (v : VipsProcessor) (p : Params) :
  special (scanFilters v p) = Trim p || existsb specialFilter (Filters p).
Proof.
  unfold scanFilters. rewrite special_scan. cbn. destruct (Trim p); reflexivity.
Qed.

Lemma maxN_scanFilters (v : VipsProcessor) (p : Params) :
  maxN (scanFilters v p) =
    if existsb stillFormat (Filters p) then 1
    else if (MaxAnimationFrames v =? 0) || (MaxAnimationFrames v <? -1) then 1
         else MaxAnimationFrames v.
Proof. unfold scanFilters. rewrite maxN_scan. reflexivity. Qed.

(** The frame limit of every call that creates the image is the one the
    scan has left. *)
Lemma decision_frames (v : VipsProcessor) (p : Params) :
  match fst (loadDecision v p) with
  | NewThumbnail _ _ _ _ n | NewImage n => n = maxN (scanFilters v p)
  end.
Proof.
  unfold loadDecision, shrinkOnLoad. cbv zeta.
  repeat match goal with
         | |- context [if ?b then _ else _] => destruct b; cbn [fst]; try reflexivity
         | |- context [match cropInterest p with _ => _ end] =>
             destruct (cropInterest p); cbn [fst]; try reflexivity
         end.
Qed.

Lemma pages_newThumbnail (blob : option Blob) (width height : Z)
    (crop : Interesting) (size : Size) (n m : Z) :
  pages (newThumbnail blob width height crop size n) = Some m ->
  m = n /\ n <> 1 /\ n <> 0 /\ exists b, blob = Some b /\ SupportsAnimation b = true.
Proof.
  unfold newThumbnail. destruct blob as [b |]; [| discriminate].
  destruct (IsBlobEmpty (Some b)); [discriminate |].
  destruct (BlobReadAll b) as [buf | err]; [| discriminate].
  destruct (SupportsAnimation b) eqn:Hb; cbn [andb]; [| discriminate].
  destruct (Z.eqb_spec n 1); cbn [negb andb]; [discriminate |].
  destruct (Z.eqb_spec n 0); cbn [negb]; [discriminate |].
  intros Hpages.
  assert (m = n) by (destruct crop, size; cbn in Hpages; congruence).
  eauto 10.
Qed.

Lemma pages_newImage (blob : option Blob) (n m : Z) :
  pages (newImage blob n) = Some m ->
  m = n /\ n <> 1 /\ n <> 0 /\ exists b, blob = Some b /\ SupportsAnimation b = true.
Proof.
  unfold newImage. destruct blob as [b |]; [| discriminate].
  destruct (IsBlobEmpty (Some b)); [discriminate |].
  destruct (BlobReadAll b) as [buf | err]; [| discriminate].
  destruct (SupportsAnimation b) eqn:Hb; cbn [andb]; [| discriminate].
  destruct (Z.eqb_spec n 1); cbn [negb andb]; [discriminate |].
  destruct (Z.eqb_spec n 0); cbn [negb]; [discriminate |].
  intros [= <-]. eauto 10.
Qed.

(** X13. The frames of an animation: after the scan of the filters the
    frame limit is 1 when some [format] filter names a known type other
    than GIF and WEBP, wherever it stands among the filters, and else the
    configured [MaxAnimationFrames], with 1 in place of 0 and of a value
    below -1; so it is -1 or positive, never 0. *)
Theorem frame_limit (v : VipsProcessor) (p : Params) :
  maxN (scanFilters v p) =
    (if existsb stillFormat (Filters p) then 1
     else if (MaxAnimationFrames v =? 0) || (MaxAnimationFrames v <? -1) then 1
          else MaxAnimationFrames v) /\
  (maxN (scanFilters v p) = -1 \/ 1 <= maxN (scanFilters v p)).
Proof.
  rewrite maxN_scanFilters. split; [reflexivity |].
  destruct (existsb stillFormat (Filters p)); [right; lia |].
  destruct (Z.eqb_spec (MaxAnimationFrames v) 0); cbn; [right; lia |].
  destruct (Z.ltb_spec (MaxAnimationFrames v) (-1)); [right; lia |].
  lia.
Qed.

(** X14. A special request, one with [p.Trim], a [trim] filter, or a
    [fill] or [background_color] filter whose first argument is [auto],
    and a request with a crop inset are never created as a thumbnail of
    the target size: the special one is decoded in full by [newImage], the
    other one is loaded at [MaxWidth] x [MaxHeight] without enlarging, and
    [thumbnail] stays false. *)
Theorem no_shrink_on_load (v : VipsProcessor) (p : Params) :
  (Trim p || existsb specialFilter (Filters p) || cropped p) = true ->
  loadDecision v p =
    (if Trim p || existsb specialFilter (Filters p)
     then NewImage (maxN (scanFilters v p))
     else NewThumbnail (MaxWidth v) (MaxHeight v) InterestingNone SizeDown
            (maxN (scanFilters v p)),
     false).
Proof.
  intros Hcase. unfold loadDecision, shrinkOnLoad. cbv zeta.
  rewrite special_scanFilters.
  destruct (Trim p || existsb specialFilter (Filters p)); [reflexivity |].
  cbn in Hcase. unfold cropped in Hcase. apply negb_true_iff in Hcase.
  cbn [negb andb]. rewrite Hcase. reflexivity.
Qed.

Lemma no_shrink_on_load_witness :
  let p := Scenario.crop100 EmptyString EmptyString false
             [mkFilter "fill" "auto,2"; mkFilter "format" "png"] in
  loadDecision New p = (NewImage 1, false).
Proof.
  intros p. exact (no_shrink_on_load New p eq_refl).
Defined.

(** X15. Fit-in does not enlarge: for a request with [fit_in] and no
    [upscale] filter, whatever else it asks for, [stretch] included, every
    thumbnail the image is created by has size Down and interest None. *)
Theorem fit_in_never_upscales (v : VipsProcessor) (p : Params)
    (width height : Z) (crop : Interesting) (size : Size) (n : Z) :
  FitIn p = true ->
  (forall f, In f (Filters p) -> Name f <> "upscale") ->
  fst (loadDecision v p) = NewThumbnail width height crop size n ->
  size = SizeDown /\ crop = InterestingNone.
Proof.
  intros Hfit Hnames. unfold loadDecision, shrinkOnLoad. cbv zeta.
  assert (Hup : upscale (scanFilters v p) = false).
  { apply upscale_scan; [exact Hnames |]. cbn. rewrite Hfit. reflexivity. }
  rewrite Hfit, Hup.
  destruct (negb (special (scanFilters v p)) && (CropBottom p =? 0) &&
            (CropTop p =? 0) && (CropLeft p =? 0) && (CropRight p =? 0)).
  - destruct ((Width p >? 0) || (Height p >? 0)); cbn.
    + intros [= _ _ <- <- _]. auto.
    + destruct (special (scanFilters v p)); cbn; [discriminate |].
      intros [= _ _ <- <- _]. auto.
  - destruct (special (scanFilters v p)); cbn; [discriminate |].
    intros [= _ _ <- <- _]. auto.
Qed.

Lemma fit_in_never_upscales_witness :
  let p := {| ParamsEcho := false; Path := "fit-in/100x0/filters:stretch()/foo.jpg";
              Image := "foo.jpg"; Unsafe := true; Hash := EmptyString; Meta := false;
              Trim := false; CropLeft := 0; CropTop := 0; CropRight := 0;
              CropBottom := 0; FitIn := true; Stretch := true; Width := 100;
              Height := 0; HAlign := EmptyString; VAlign := EmptyString;
              Smart := false; Filters := [mkFilter "stretch" EmptyString] |} in
  fst (loadDecision New p) = NewThumbnail 100 9999 InterestingNone SizeDown (-1) /\
  SizeDown = SizeDown /\ InterestingNone = InterestingNone.
Proof.
  intros p. split; [reflexivity |].
  apply (fit_in_never_upscales New p 100 9999 InterestingNone SizeDown (-1));
    [reflexivity | | reflexivity].
  intros f [<- | []]. discriminate.
Defined.

(** X16. The size of a thumbnail is positive: with positive [MaxWidth]
    and [MaxHeight] and a request whose width and height are not
    negative, every thumbnail the image is created by has a positive
    width and a positive height. *)
Theorem thumbnail_size_positive (v : VipsProcessor) (p : Params)
    (width height : Z) (crop : Interesting) (size : Size) (n : Z) :
  0 < MaxWidth v -> 0 < MaxHeight v -> 0 <= Width p -> 0 <= Height p ->
  fst (loadDecision v p) = NewThumbnail width height crop size n ->
  0 < width /\ 0 < height.
Proof.
  intros HW HH Hw Hh. unfold loadDecision, shrinkOnLoad. cbv zeta.
  assert (Hfall : fst (if special (scanFilters v p)
                       then (NewImage (maxN (scanFilters v p)), false)
                       else (NewThumbnail (MaxWidth v) (MaxHeight v) InterestingNone
                               SizeDown (maxN (scanFilters v p)), false)) =
                  NewThumbnail width height crop size n -> 0 < width /\ 0 < height).
  { destruct (special (scanFilters v p)); cbn; [discriminate |].
    intros [= <- <- _ _ _]. auto. }
  destruct (negb (special (scanFilters v p)) && (CropBottom p =? 0) &&
            (CropTop p =? 0) && (CropLeft p =? 0) && (CropRight p =? 0));
    [| exact Hfall].
  destruct (FitIn p).
  - destruct (Z.gtb_spec (Width p) 0); cbn [orb].
    + cbn. intros [= <- <- _ _ _].
      destruct (Z.eqb_spec (Width p) 0); [lia |].
      destruct (Z.eqb_spec (Height p) 0); lia.
    + destruct (Z.gtb_spec (Height p) 0); [| exact Hfall].
      cbn. intros [= <- <- _ _ _].
      destruct (Z.eqb_spec (Width p) 0); [| lia].
      destruct (Z.eqb_spec (Height p) 0); lia.
  - destruct (stretch (scanFilters v p)).
    + destruct (Z.gtb_spec (Width p) 0); cbn [andb]; [| exact Hfall].
      destruct (Z.gtb_spec (Height p) 0); [| exact Hfall].
      cbn. intros [= <- <- _ _ _]. lia.
    + destruct (Z.gtb_spec (Width p) 0); cbn [andb].
      * destruct (Z.gtb_spec (Height p) 0).
        -- destruct (cropInterest p); [| exact Hfall].
           cbn. intros [= <- <- _ _ _]. lia.
        -- destruct (Z.eqb_spec (Height p) 0); [| destruct (Z.eqb_spec (Width p) 0);
                                                   [lia | exact Hfall]].
           cbn. intros [= <- <- _ _ _]. lia.
      * destruct (Z.gtb_spec (Height p) 0); cbn [andb]; [| exact Hfall].
        destruct (Z.eqb_spec (Width p) 0); [| exact Hfall].
        cbn. intros [= <- <- _ _ _]. lia.
Qed.

Lemma thumbnail_size_positive_witness :
  let p := Scenario.crop100 "left" EmptyString false [] in
  fst (loadDecision New p) = NewThumbnail 100 100 InterestingLow SizeBoth (-1) /\
  0 < 100 /\ 0 < 100.
Proof.
  intros p. split; [reflexivity |].
  apply (thumbnail_size_positive New p 100 100 InterestingLow SizeBoth (-1));
    [reflexivity | reflexivity | discriminate | discriminate | reflexivity].
Defined.

(** X17. An empty blob does not reach the image library: whatever the
    request asks for, [Process] on a blob that is nil or empty returns
    [ErrNotFound] before any call of the library, and on a blob whose
    bytes cannot be read it returns the error of the read. *)
Theorem empty_blob_not_loaded (v : VipsProcessor) (p : Params) (blob : option Blob) :
  (IsBlobEmpty blob = true ->
   loadImage v p blob = LoadFails (Imagor.EImagor Imagor.ErrNotFound)) /\
  (forall b err, blob = Some b -> BlobEmpty b = false -> BlobReadAll b = inr err ->
                 loadImage v p blob = LoadFails err).
Proof.
  unfold loadImage, newThumbnail, newImage. split.
  - intros Hempty.
    destruct (fst (loadDecision v p)); destruct blob as [b |];
      try reflexivity; rewrite Hempty; reflexivity.
  - intros b err -> Hb Hread. cbn [IsBlobEmpty]. rewrite Hb, Hread.
    destruct (fst (loadDecision v p)); reflexivity.
Qed.

(** X18. The pages asked of the library: when [Process] loads the image
    with a page count, the count is the configured [MaxAnimationFrames],
    it is -1 or at least 2, the blob supports animation, and no [format]
    filter names a type that cannot hold frames. *)
Theorem pages_requested (v : VipsProcessor) (p : Params) (blob : option Blob) (n : Z) :
  pages (loadImage v p blob) = Some n ->
  n = MaxAnimationFrames v /\ (n = -1 \/ 2 <= n) /\
  existsb stillFormat (Filters p) = false /\
  exists b, blob = Some b /\ SupportsAnimation b = true.
Proof.
  intros Hpages.
  assert (Hcall : n = maxN (scanFilters v p) /\ n <> 1 /\ n <> 0 /\
                  exists b, blob = Some b /\ SupportsAnimation b = true).
  { unfold loadImage in Hpages. pose proof (decision_frames v p) as Hn.
    destruct (fst (loadDecision v p)) as [width height crop size k | k].
    - apply pages_newThumbnail in Hpages as (-> & H1 & H0 & Hb). subst k. auto.
    - apply pages_newImage in Hpages as (-> & H1 & H0 & Hb). subst k. auto. }
  destruct Hcall as (Hn & H1 & H0 & Hb). rewrite maxN_scanFilters in Hn.
  destruct (existsb stillFormat (Filters p)); [contradiction |].
  destruct (Z.eqb_spec (MaxAnimationFrames v) 0); cbn [orb] in Hn; [contradiction |].
  destruct (Z.ltb_spec (MaxAnimationFrames v) (-1)); [contradiction |].
  split; [exact Hn | split; [lia | split; [reflexivity | exact Hb]]].
Qed.

(** The load of an animation with the default configuration. *)
Lemma pages_requested_witness :
  let p := Scenario.crop100 "left" EmptyString false [] in
  let gif := {| BlobEmpty := false; BlobReadAll := inl [Byte.x47; Byte.x49; Byte.x46];
                SupportsAnimation := true |} in
  loadImage New p (Some gif) =
    LoadImageFromBuffer [Byte.x47; Byte.x49; Byte.x46] (Some (-1))
      (Some (100, 100, InterestingLow, SizeBoth)) /\
  -1 = MaxAnimationFrames New.
Proof.
  intros p gif. split; [reflexivity |].
  apply (pages_requested New p (Some gif) (-1) eq_refl).
Defined.


End ScanProps.

(** ** Cropping an animation *)

Module CropProps.
Import Vips VipsCrop.

(** X19. The area cut out of an animation: when
    [animatedThumbnailWithCrop] comes to [ExtractArea] and the resized
    image is no smaller than the target, the area lies within the image;
    it starts at the left and top edges for interest Low, ends at the
    right and bottom edges for High, and has margins that differ by at
    most one pixel for Centre and for Attention. *)
Theorem extract_area_within_image
    (ThumbnailWithSize : Z -> Z -> Interesting -> Size -> ImageRef ->
                         Imagor.error + ImageRef)
    (wider : Z -> Z -> Z -> Z -> bool)
    (v : VipsProcessor) (img img' : ImageRef) (w h : Z) (crop : Interesting)
    (size : Size) (x y w' h' : Z) :
  animatedThumbnailWithCrop ThumbnailWithSize wider v img w h crop size =
    ExtractArea img' x y w' h' ->
  w <= ImgWidth img' -> h <= ImgPageHeight img' ->
  w' = w /\ h' = h /\
  0 <= x /\ x + w <= ImgWidth img' /\ 0 <= y /\ y + h <= ImgPageHeight img' /\
  match crop with
  | InterestingLow | InterestingNone => x = 0 /\ y = 0
  | InterestingHigh => x + w = ImgWidth img' /\ y + h = ImgPageHeight img'
  | InterestingCentre | InterestingAttention =>
      x <= ImgWidth img' - w - x <= x + 1 /\
      y <= ImgPageHeight img' - h - y <= y + 1
  end.
Proof.
  unfold animatedThumbnailWithCrop.
  destruct ((match size with SizeDown => true | _ => false end) &&
            (ImgWidth img <? w) && (ImgPageHeight img <? h)); [discriminate |].
  destruct (if wider w h (ImgWidth img) (ImgPageHeight img)
            then ThumbnailWithSize w (MaxHeight v) InterestingNone size img
            else ThumbnailWithSize (MaxWidth v) h InterestingNone size img)
    as [err | img1]; [discriminate |].
  intros Hcrop Hw Hh.
  assert (Hquot : forall a, 0 <= a -> 0 <= Z.quot a 2 /\ Z.quot a 2 <= a /\
                            Z.quot a 2 <= a - Z.quot a 2 <= Z.quot a 2 + 1).
  { intros a Ha. rewrite Z.quot_div_nonneg by lia.
    pose proof (Z.div_mod a 2 ltac:(lia)). pose proof (Z.mod_pos_bound a 2 ltac:(lia)).
    lia. }
  destruct crop; cbn in Hcrop; injection Hcrop as <- <- <- <- <-;
    try (split; [reflexivity | split; [reflexivity |]]; lia).
  - destruct (Hquot (ImgWidth img1 - w)) as (? & ? & ?); [lia |].
    destruct (Hquot (ImgPageHeight img1 - h)) as (? & ? & ?); [lia |].
    split; [reflexivity | split; [reflexivity |]]. lia.
  - destruct (Hquot (ImgWidth img1 - w)) as (? & ? & ?); [lia |].
    destruct (Hquot (ImgPageHeight img1 - h)) as (? & ? & ?); [lia |].
    split; [reflexivity | split; [reflexivity |]]. lia.
Qed.

(** A library that resizes to the width asked for and keeps the ratio of
    a 400 x 300 animation, cut to 100 x 50 around the centre. *)
Lemma extract_area_within_image_witness :
  let resize := fun (w h : Z) (_ : Interesting) (_ : Size) (img : ImageRef) =>
                  inr {| ImgWidth := w; ImgPageHeight := w * 3 / 4 |}
                  : Imagor.error + ImageRef in
  let wider := fun w h iw ih => w * ih >? iw * h in
  animatedThumbnailWithCrop resize wider New
    {| ImgWidth := 400; ImgPageHeight := 300 |} 100 50 InterestingCentre SizeBoth =
    ExtractArea {| ImgWidth := 100; ImgPageHeight := 75 |} 0 12 100 50 /\
  0 <= 12 /\ 12 + 50 <= 75.
Proof.
  intros resize wider.
  split; [reflexivity |].
  destruct (extract_area_within_image resize wider New
              {| ImgWidth := 400; ImgPageHeight := 300 |}
              {| ImgWidth := 100; ImgPageHeight := 75 |}
              100 50 InterestingCentre SizeBoth 0 12 100 50)
    as (_ & _ & _ & _ & Hy & Hy' & _); [reflexivity | cbn; lia | cbn; lia |].
  split; [exact Hy | exact Hy'].
Defined.

End CropProps.

(** ** The metadata and the format of the result *)

Module MetaProps.
Import imagorpath Vips VipsLoad VipsMeta.

(** X20. The metadata of a result always names a known MIME type:
    whatever the image library answers for the type of the image, the
    content type that [getMeta] gives is the entry of
    [imageMimeTypeMap] for the format it gives, and a type without a name
    or without an entry is reported as [jpeg] with [image/jpeg]. *)
Theorem meta_format_has_mime (ImageTypes : ImageType -> option string)
    (meta : ImageMetadata) :
  let m := getMeta ImageTypes meta in
  imageMimeTypeMap !! Imagor.Format m = Some (Imagor.ContentType m) /\
  ((forall s, ImageTypes (MetaFormat meta) = Some s -> imageMimeTypeMap !! s = None) ->
   Imagor.Format m = "jpeg" /\ Imagor.ContentType m = "image/jpeg").
Proof.
  unfold getMeta.
  destruct (ImageTypes (MetaFormat meta)) as [s |]; cbn [negb orb].
  - destruct (imageMimeTypeMap !! s) as [c |] eqn:Hs; cbn -[imageMimeTypeMap].
    + split; [exact Hs |]. intros Hnone. specialize (Hnone s eq_refl). congruence.
    + split; [reflexivity | auto].
  - destruct (imageMimeTypeMap !! EmptyString); cbn -[imageMimeTypeMap];
      split; (reflexivity || auto).
Qed.

(** The format after the second scan: JPEG with an [autojpg] filter, else
    as it was. *)
Lemma autojpg_scan (Atoi : string -> Z) (filters : list Filter) :
  forall acc,
    snd (fold_left (scanExport Atoi) filters acc) =
      if existsb (fun f => String.eqb (Name f) "autojpg") filters
      then ImageTypeJPEG else snd acc.
Proof.
  induction filters as [| f rest IH]; intros acc; cbn [fold_left existsb];
    [reflexivity |].
  rewrite IH. unfold scanExport.
  destruct (String.eqb_spec (Name f) "quality") as [Hq | Hq].
  - rewrite Hq. cbn. reflexivity.
  - destruct (String.eqb (Name f) "autojpg"); cbn; [| reflexivity].
    destruct (existsb _ rest); reflexivity.
Qed.

Lemma format_scanFilter_other (fl : Flags) (f : Filter) :
  imageTypeMap !! Args f = None \/ Name f <> "format" ->
  format (scanFilter fl f) = format fl.
Proof.
  intros Hf. unfold scanFilter.
  destruct (String.eqb_spec (Name f) "format") as [Hname | Hname].
  - destruct Hf as [-> | Hf]; [reflexivity | contradiction].
  - repeat match goal with
           | |- context [if ?b then _ else _] => destruct b; cbn; try reflexivity
           end.
Qed.

Lemma format_scan_other (filters : list Filter) :
  forall fl,
    (forall f, In f filters -> Name f = "format" -> imageTypeMap !! Args f = None) ->
    format (fold_left scanFilter filters fl) = format fl.
Proof.
  induction filters as [| f rest IH]; intros fl Hrest; cbn [fold_left];
    [reflexivity |].
  rewrite IH by (intros g Hg; apply Hrest; right; exact Hg).
  apply format_scanFilter_other.
  destruct (String.eqb_spec (Name f) "format") as [Hname | Hname];
    [left; apply Hrest; [left; reflexivity | exact Hname] | right; exact Hname].
Qed.

Lemma encoder_export (format : ImageType) (quality : Z) :
  encoder (export format quality) =
    match format with
    | ImageTypePNG | ImageTypeWEBP | ImageTypeHEIF | ImageTypeTIFF | ImageTypeGIF
    | ImageTypeAVIF | ImageTypeJP2K => format
    | _ => ImageTypeJPEG
    end.
Proof. destruct format; reflexivity. Qed.

Lemma quality_export (format : ImageType) (quality q : Z) :
  encoderQuality (export format quality) = Some q -> 0 < q.
Proof.
  unfold export. destruct (Z.gtb_spec quality 0);
    destruct format; cbn; intros [= <-] || discriminate; lia.
Qed.

(** X21. The encoder of the result. An [autojpg] filter anywhere among
    the filters makes [Process] call the JPEG encoder, whatever the
    [format] filters ask for. Without [autojpg] and without a [format]
    filter of a known type the image is encoded in its own format when
    [export] has an encoder for it (PNG, WEBP, HEIF, TIFF, GIF, AVIF,
    JP2K) and as JPEG otherwise (BMP, SVG, PDF, Magick or an unknown
    format among them). A quality is handed to the encoder only when it is
    positive, and never to the PNG encoder. *)
Theorem autojpg_overrides_format (Atoi : string -> Z) (v : VipsProcessor)
    (p : Params) (imgFormat : ImageType) :
  let call := exportCall Atoi v p imgFormat in
  let encoders := [ImageTypePNG; ImageTypeWEBP; ImageTypeHEIF; ImageTypeTIFF;
                   ImageTypeGIF; ImageTypeAVIF; ImageTypeJP2K] in
  ((exists f, In f (Filters p) /\ Name f = "autojpg") ->
   encoder call = ImageTypeJPEG) /\
  ((forall f, In f (Filters p) ->
              Name f <> "autojpg" /\
              (Name f = "format" -> imageTypeMap !! Args f = None)) ->
   (In imgFormat encoders -> encoder call = imgFormat) /\
   (~ In imgFormat encoders -> encoder call = ImageTypeJPEG)) /\
  (forall q, encoderQuality call = Some q -> 0 < q) /\
  (encoder call = ImageTypePNG -> encoderQuality call = None).
Proof.
  cbv zeta. unfold exportCall, exportArgs. cbv zeta.
  set (format0 := if ImageType_eqb (format (scanFilters v p)) ImageTypeUnknown
                  then imgFormat else format (scanFilters v p)).
  pose proof (autojpg_scan Atoi (Filters p) (0, format0)) as Hscan.
  destruct (fold_left (scanExport Atoi) (Filters p) (0, format0)) as [quality fmt].
  cbn [snd] in Hscan. split; [| split; [| split]].
  - intros (f & Hin & Hname).
    assert (Hex : existsb (fun f => String.eqb (Name f) "autojpg") (Filters p) = true).
    { apply existsb_exists. exists f. split; [exact Hin |]. rewrite Hname. reflexivity. }
    rewrite Hex in Hscan. rewrite Hscan. reflexivity.
  - intros Hall.
    assert (Hex : existsb (fun f => String.eqb (Name f) "autojpg") (Filters p) = false).
    { destruct (existsb _ (Filters p)) eqn:Hex; [| reflexivity].
      apply existsb_exists in Hex as (f & Hin & Hname).
      apply String.eqb_eq in Hname. destruct (Hall f Hin) as (Hno & _). contradiction. }
    rewrite Hex in Hscan.
    assert (Hfmt : format0 = imgFormat).
    { subst format0. unfold scanFilters.
      rewrite format_scan_other by (intros f Hin; apply Hall; exact Hin).
      reflexivity. }
    rewrite Hscan, Hfmt, encoder_export.
    split.
    + intros Hin. cbn in Hin.
      repeat (destruct Hin as [<- | Hin]; [reflexivity |]). destruct Hin.
    + intros Hout. destruct imgFormat; try reflexivity;
        exfalso; apply Hout; cbn; tauto.
  - intros q. apply quality_export.
  - unfold export. destruct fmt; cbn; try discriminate. reflexivity.
Qed.

End MetaProps.

(** ** The configuration *)

Module OptionsProps.
Import VipsOptions.

Lemma delete_all_disabled (names : list string) :
  forall (filters : gmap string FilterFunc) (name : string),
    fold_left (fun filters name => delete name filters) names filters !! name =
      if decide (name ∈ names) then None else filters !! name.
Proof.
  induction names as [| n rest IH]; intros filters name; cbn [fold_left].
  - destruct (decide (name ∈ [])) as [Hin | _]; [| reflexivity].
    apply elem_of_nil in Hin. contradiction.
  - rewrite IH.
    destruct (decide (name ∈ rest)) as [Hin | Hout].
    + destruct (decide (name ∈ n :: rest)) as [_ | Hno]; [reflexivity |].
      exfalso. apply Hno. right. exact Hin.
    + destruct (decide (name = n)) as [-> | Hne].
      * rewrite lookup_delete_eq.
        destruct (decide (n ∈ n :: rest)) as [_ | Hno]; [reflexivity |].
        exfalso. apply Hno. left.
      * rewrite lookup_delete_ne by congruence.
        destruct (decide (name ∈ n :: rest)) as [Hin | _]; [| reflexivity].
        apply elem_of_cons in Hin as [-> | Hin]; contradiction.
Qed.

(** X22. Disabled filters are gone: in the processor that [New] returns,
    whatever the options do, no filter named in [DisableFilters] is left
    in [Filters], with [DisableBlur] neither [blur] nor [sharpen] is, every
    other filter is the one the options left, and with [NumCPU] other than
    -1 the concurrency is not -1. *)
Theorem disabled_filters_removed (NumCPU : Z) (options : list Option) :
  let applied := fold_left (fun v option => option v) options defaults in
  let v := New NumCPU options in
  (forall name, name ∈ DisableFilters v -> Filters v !! name = None) /\
  (forall name, name ∉ DisableFilters v -> Filters v !! name = Filters applied !! name) /\
  (DisableBlur v = true ->
   Filters v !! "blur" = None /\ Filters v !! "sharpen" = None) /\
  (NumCPU <> -1 -> Concurrency v <> -1).
Proof.
  cbv zeta. unfold New. cbv zeta. cbn [Filters DisableFilters DisableBlur Concurrency].
  set (applied := fold_left (fun v option => option v) options defaults).
  set (disabled := if DisableBlur applied
                   then (DisableFilters applied ++ ["blur"; "sharpen"])%list
                   else DisableFilters applied).
  split; [| split; [| split]].
  - intros name Hin. rewrite delete_all_disabled.
    destruct (decide (name ∈ disabled)); [reflexivity | contradiction].
  - intros name Hout. rewrite delete_all_disabled.
    destruct (decide (name ∈ disabled)); [contradiction | reflexivity].
  - intros Hblur. rewrite !delete_all_disabled. subst disabled. rewrite Hblur.
    split.
    + destruct (decide ("blur" ∈ (DisableFilters applied ++ ["blur"; "sharpen"])%list))
        as [_ | Hno]; [reflexivity |].
      exfalso. apply Hno. apply elem_of_app. right. left.
    + destruct (decide ("sharpen" ∈ (DisableFilters applied ++ ["blur"; "sharpen"])%list))
        as [_ | Hno]; [reflexivity |].
      exfalso. apply Hno. apply elem_of_app. right. right. left.
  - intros Hcpu. destruct (Z.eqb_spec (Concurrency applied) (-1)); assumption.
Qed.

End OptionsProps.
